(** * Image-Sound-Synesthesia: a shallow embedding of the image-to-sound core

    The development follows the four JavaScript classes of the repository:
    [ImageProcessor] (grid of averaged colours, RGB to HSV), [HsvMapper]
    (HSV to audio parameters, HSV to RGB), [AudioEngine] (the pool of Tone.js
    synthesizers) and [InteractiveCanvas] (pointer events to engine calls).

    JavaScript numbers are modelled as exact rationals ([Q]); the only
    transcendental operation of the code, [Math.pow(2, x)], is the real power
    [Rpower 2 x].  JavaScript [Map]s are finite maps ([gmap]) whose keys are
    JavaScript values: numbers or strings. *)

From Stdlib Require Import ZArith QArith Qround Qabs Reals Qreals Psatz List Sorted.
From stdpp Require Import gmap strings pretty.

Local Open Scope Z_scope.

(** ** JavaScript arithmetic *)

Module JS.

(** [Math.floor], [Math.ceil]. *)
Definition Math_floor (x : Q) : Z := Qfloor x.
Definition Math_ceil (x : Q) : Z := Qceiling x.

(** [Math.round]: the nearest integer, halves going up. *)
Definition Math_round (x : Q) : Z := Qfloor (x + (1 # 2))%Q.

(** [Math.max] and [Math.min] on two numbers. *)
Definition Math_max (a b : Q) : Q := if Qle_bool a b then b else a.
Definition Math_min (a b : Q) : Q := if Qle_bool a b then a else b.

(** The remainder operator [x % y] on numbers: the result has the sign of
    the dividend. *)
Definition trunc (x : Q) : Z := if Qle_bool 0 x then Qfloor x else Qceiling x.
Definition rem (x y : Q) : Q := (x - y * inject_Z (trunc (x / y)))%Q.

(** [for (let i = lo; i < hi; i++) body], threading the loop state. *)
Definition for_range {A : Type} (lo hi : Z) (body : Z -> A -> A) (init : A) : A :=
  fold_left (fun acc i => body (lo + Z.of_nat i) acc)
            (seq 0 (Z.to_nat (hi - lo))) init.

End JS.

(** ** Colours *)

Record RGB := mkRGB { red : Z; green : Z; blue : Z }.
Record HSV := mkHSV { hue : Q; sat : Q; val : Q }.

Definition white : RGB := mkRGB 255 255 255.
Definition black : RGB := mkRGB 0 0 0.

(** ** ImageProcessor *)

Module ImageProcessor.
Import JS.

(** [rgbToHsv(r, g, b)], lines 244-275 of imageProcessor.js. *)
Definition rgbToHsv (r0 g0 b0 : Z) : HSV :=
  let r := (inject_Z r0 / 255)%Q in
  let g := (inject_Z g0 / 255)%Q in
  let b := (inject_Z b0 / 255)%Q in
  let max := Math_max (Math_max r g) b in
  let min := Math_min (Math_min r g) b in
  let diff := (max - min)%Q in
  let s := if Qeq_bool max 0 then 0%Q else (diff / max)%Q in
  let v := max in
  let h :=
    if negb (Qeq_bool diff 0) then
      if Qeq_bool max r then rem ((g - b) / diff) 6
      else if Qeq_bool max g then ((b - r) / diff + 2)%Q
      else ((r - g) / diff + 4)%Q
    else 0%Q in
  let h := Math_round (h * 60) in
  let h := if h <? 0 then h + 360 else h in
  {| hue := inject_Z h;
     sat := inject_Z (Math_round (s * 100));
     val := inject_Z (Math_round (v * 100)) |}.

(** *** The 2D canvas the processor draws on

    A canvas is its pixel dimensions and its bitmap.  Every pixel the
    processor reads is opaque (the canvas is first filled with white), so a
    pixel is its colour. *)
Record Canvas := mkCanvas {
  width : Z;
  height : Z;
  bitmap : Z -> Z -> RGB
}.

(** A decoded image: its natural size and its pixels. *)
Record Image := mkImage {
  img_width : Z;
  img_height : Z;
  img_pixel : Z -> Z -> RGB
}.

(** [ctx.fillRect(x, y, w, h)] with an opaque [fillStyle]. *)
Definition inRect (x y w h px py : Z) : bool :=
  (x <=? px) && (px <? x + w) && (y <=? py) && (py <? y + h).

Definition fillRect (x y w h : Z) (color : RGB) (c : Canvas) : Canvas :=
  {| width := width c; height := height c;
     bitmap := fun px py => if inRect x y w h px py then color else bitmap c px py |}.

(** [ctx.drawImage(img, dx, dy, dw, dh)].  How the browser resamples the
    image is not part of the repository: [resample img dx dy dw dh px py under]
    is the colour it gives canvas pixel [(px, py)], which showed [under]
    before.  Only the pixels that the destination rectangle touches change. *)
Definition Resampler : Type := Image -> Q -> Q -> Q -> Q -> Z -> Z -> RGB -> RGB.

Definition touches (dx dy dw dh : Q) (px py : Z) : bool :=
  Qle_bool dx (inject_Z px + 1) && negb (Qeq_bool dx (inject_Z px + 1))
  && negb (Qle_bool (dx + dw) (inject_Z px))
  && Qle_bool dy (inject_Z py + 1) && negb (Qeq_bool dy (inject_Z py + 1))
  && negb (Qle_bool (dy + dh) (inject_Z py)).

Definition drawImage (resample : Resampler) (img : Image) (dx dy dw dh : Q)
    (c : Canvas) : Canvas :=
  {| width := width c; height := height c;
     bitmap := fun px py =>
       if touches dx dy dw dh px py
       then resample img dx dy dw dh px py (bitmap c px py)
       else bitmap c px py |}.

(** Nearest-neighbour resampling, one concrete resampler. *)
Definition nearest : Resampler := fun img dx dy dw dh px py _ =>
  img_pixel img
    (Math_floor ((inject_Z px + (1 # 2) - dx) * inject_Z (img_width img) / dw))
    (Math_floor ((inject_Z py + (1 # 2) - dy) * inject_Z (img_height img) / dh)).

(** [ctx.strokeRect(x, y, w, h)] with [lineWidth = 1] and the translucent
    [strokeStyle = 'rgba(0, 0, 0, 0.1)'].  The one-pixel line is centred on
    the rectangle's outline, so it covers half of the pixel row or column on
    either side of each edge; [blend] is the colour the browser composes
    there. *)
Definition onStroke (x y w h px py : Z) : bool :=
  (((px =? x - 1) || (px =? x) || (px =? x + w - 1) || (px =? x + w))
     && (y - 1 <=? py) && (py <=? y + h))
  || (((py =? y - 1) || (py =? y) || (py =? y + h - 1) || (py =? y + h))
     && (x - 1 <=? px) && (px <=? x + w)).

Definition strokeRect (blend : RGB -> RGB) (x y w h : Z) (c : Canvas) : Canvas :=
  {| width := width c; height := height c;
     bitmap := fun px py =>
       if onStroke x y w h px py then blend (bitmap c px py) else bitmap c px py |}.

(** [ctx.getImageData(0, 0, width, height).data]: four bytes per pixel,
    row-major. *)
Definition getImageData (c : Canvas) : Z -> Z := fun index =>
  let p := index / 4 in
  let px := p mod width c in
  let py := p / width c in
  match index mod 4 with
  | 0 => red (bitmap c px py)
  | 1 => green (bitmap c px py)
  | 2 => blue (bitmap c px py)
  | _ => 255
  end.

(** *** The processor *)

Record Cell := mkCell {
  rgb : RGB;
  hsv : HSV;
  gridX : Z;
  gridY : Z;
  pixelX : Z;
  pixelY : Z
}.

Record t := mkProcessor {
  originalImage : option Image;
  pixelData : list (list Cell);
  pixelSize : Z;
  maxPixelSize : Z;
  minPixelSize : Z;
  canvas : option Canvas;
  imageWidth : option Q;
  imageHeight : option Q;
  imageOffsetX : option Q;
  imageOffsetY : option Q
}.

(** [constructor()] followed by [init(canvas)]. *)
Definition new : t :=
  {| originalImage := None; pixelData := []; pixelSize := 50;
     maxPixelSize := 100; minPixelSize := 10; canvas := None;
     imageWidth := None; imageHeight := None;
     imageOffsetX := None; imageOffsetY := None |}.

Definition init (c : Canvas) (ip : t) : t :=
  {| originalImage := originalImage ip; pixelData := pixelData ip;
     pixelSize := pixelSize ip; maxPixelSize := maxPixelSize ip;
     minPixelSize := minPixelSize ip; canvas := Some c;
     imageWidth := imageWidth ip; imageHeight := imageHeight ip;
     imageOffsetX := imageOffsetX ip; imageOffsetY := imageOffsetY ip |}.

(** [calculateAverageColor(data, width, height, startX, startY, cellSize)],
    lines 149-170. *)
Definition calculateAverageColor (data : Z -> Z) (width height startX startY cellSize : Z)
    : RGB :=
  let endX := Z.min (startX + cellSize) width in
  let endY := Z.min (startY + cellSize) height in
  let '(r, g, b, count) :=
    for_range startY endY (fun y =>
      for_range startX endX (fun x '(r, g, b, count) =>
        let index := (y * width + x) * 4 in
        (r + data index, g + data (index + 1), b + data (index + 2), count + 1)))
      (0, 0, 0, 0) in
  {| red := Math_round (inject_Z r / inject_Z count);
     green := Math_round (inject_Z g / inject_Z count);
     blue := Math_round (inject_Z b / inject_Z count) |}.

(** [fillGridCell(gridX, gridY, color)], lines 178-189. *)
Definition fillGridCell (blend : RGB -> RGB) (pixelSize gridX gridY : Z) (color : RGB)
    (c : Canvas) : Canvas :=
  let x := gridX * pixelSize in
  let y := gridY * pixelSize in
  strokeRect blend x y pixelSize pixelSize (fillRect x y pixelSize pixelSize color c).

(** [applyPixelation()], lines 111-137.  [data] is the snapshot taken before
    the loops; the fills go to the live canvas. *)
Definition applyPixelation (blend : RGB -> RGB) (pixelSize : Z) (c : Canvas) : Canvas :=
  let data := getImageData c in
  let width := width c in
  let height := height c in
  let gridWidth := Math_ceil (inject_Z width / inject_Z pixelSize) in
  let gridHeight := Math_ceil (inject_Z height / inject_Z pixelSize) in
  for_range 0 gridHeight (fun gridY =>
    for_range 0 gridWidth (fun gridX ctx =>
      let avgColor :=
        calculateAverageColor data width height
          (gridX * pixelSize) (gridY * pixelSize) pixelSize in
      fillGridCell blend pixelSize gridX gridY avgColor ctx)) c.

(** [extractPixelData()], lines 194-235: one cell per grid position, read
    from the centre of its block. *)
Definition range (n : Z) : list Z := map Z.of_nat (seq 0 (Z.to_nat n)).

Definition extractCell (data : Z -> Z) (width height pixelSize gridX gridY : Z) : Cell :=
  let pixelX := gridX * pixelSize in
  let pixelY := gridY * pixelSize in
  let centerX := Z.min (pixelX + Math_floor (inject_Z pixelSize / 2)) (width - 1) in
  let centerY := Z.min (pixelY + Math_floor (inject_Z pixelSize / 2)) (height - 1) in
  let index := (centerY * width + centerX) * 4 in
  let rgb := {| red := data index; green := data (index + 1); blue := data (index + 2) |} in
  let hsv := rgbToHsv (red rgb) (green rgb) (blue rgb) in
  {| rgb := rgb; hsv := hsv; gridX := gridX; gridY := gridY;
     pixelX := pixelX; pixelY := pixelY |}.

Definition extractPixelData (pixelSize : Z) (c : Canvas) : list (list Cell) :=
  let data := getImageData c in
  let width := width c in
  let height := height c in
  let gridWidth := Math_ceil (inject_Z width / inject_Z pixelSize) in
  let gridHeight := Math_ceil (inject_Z height / inject_Z pixelSize) in
  map (fun gridY =>
    map (fun gridX => extractCell data width height pixelSize gridX gridY)
        (range gridWidth))
    (range gridHeight).

(** [processImage()], lines 58-106.  The canvas is always 600 by 500; the
    image is scaled to fit it, keeping its aspect ratio, and centred on a
    white background. *)
Definition canvasWidth : Z := 600.
Definition canvasHeight : Z := 500.

Definition layout (img : Image) : Q * Q * Q * Q :=
  let aspectRatio := (inject_Z (img_width img) / inject_Z (img_height img))%Q in
  let '(imageWidth, imageHeight) :=
    if negb (Qle_bool aspectRatio (inject_Z canvasWidth / inject_Z canvasHeight))
    then (inject_Z canvasWidth, (inject_Z canvasWidth / aspectRatio)%Q)
    else ((inject_Z canvasHeight * aspectRatio)%Q, inject_Z canvasHeight) in
  let offsetX := ((inject_Z canvasWidth - imageWidth) / 2)%Q in
  let offsetY := ((inject_Z canvasHeight - imageHeight) / 2)%Q in
  (imageWidth, imageHeight, offsetX, offsetY).

Definition drawn (resample : Resampler) (img : Image) : Canvas :=
  let '(imageWidth, imageHeight, offsetX, offsetY) := layout img in
  let blank := fillRect 0 0 canvasWidth canvasHeight white
                 (mkCanvas canvasWidth canvasHeight (fun _ _ => white)) in
  drawImage resample img offsetX offsetY imageWidth imageHeight blank.

Definition processImage (resample : Resampler) (blend : RGB -> RGB) (ip : t) : t :=
  match originalImage ip, canvas ip with
  | Some img, Some _ =>
      let '(imageWidth, imageHeight, offsetX, offsetY) := layout img in
      let pixelated := applyPixelation blend (pixelSize ip) (drawn resample img) in
      {| originalImage := originalImage ip;
         pixelData := extractPixelData (pixelSize ip) pixelated;
         pixelSize := pixelSize ip; maxPixelSize := maxPixelSize ip;
         minPixelSize := minPixelSize ip; canvas := Some pixelated;
         imageWidth := Some imageWidth; imageHeight := Some imageHeight;
         imageOffsetX := Some offsetX; imageOffsetY := Some offsetY |}
  | _, _ => ip
  end.

(** [loadImage(file)] once the file is decoded: store the image, process. *)
Definition loadImage (resample : Resampler) (blend : RGB -> RGB) (img : Image) (ip : t) : t :=
  processImage resample blend
    {| originalImage := Some img; pixelData := pixelData ip;
       pixelSize := pixelSize ip; maxPixelSize := maxPixelSize ip;
       minPixelSize := minPixelSize ip; canvas := canvas ip;
       imageWidth := imageWidth ip; imageHeight := imageHeight ip;
       imageOffsetX := imageOffsetX ip; imageOffsetY := imageOffsetY ip |}.

(** [setPixelSize(size)], lines 281-286. *)
Definition setPixelSize (resample : Resampler) (blend : RGB -> RGB) (size : Z) (ip : t) : t :=
  let ip' :=
    {| originalImage := originalImage ip; pixelData := pixelData ip;
       pixelSize := Z.max (minPixelSize ip) (Z.min (maxPixelSize ip) size);
       maxPixelSize := maxPixelSize ip; minPixelSize := minPixelSize ip;
       canvas := canvas ip;
       imageWidth := imageWidth ip; imageHeight := imageHeight ip;
       imageOffsetX := imageOffsetX ip; imageOffsetY := imageOffsetY ip |} in
  match originalImage ip with
  | Some _ => processImage resample blend ip'
  | None => ip'
  end.

(** [getPixelAt(x, y)], lines 294-306. *)
Definition getPixelAt (x y : Q) (ip : t) : option Cell :=
  if (length (pixelData ip) =? 0)%nat then None
  else
    let gridX := Math_floor (x / inject_Z (pixelSize ip)) in
    let gridY := Math_floor (y / inject_Z (pixelSize ip)) in
    if (0 <=? gridY) && (gridY <? Z.of_nat (length (pixelData ip))) then
      match nth_error (pixelData ip) (Z.to_nat gridY) with
      | Some row =>
          if (0 <=? gridX) && (gridX <? Z.of_nat (length row))
          then nth_error row (Z.to_nat gridX)
          else None
      | None => None
      end
    else None.

(** [getColumnPixels(x)], lines 313-326. *)
Definition getColumnPixels (x : Q) (ip : t) : list (option Cell) :=
  match pixelData ip with
  | [] => []
  | row0 :: _ =>
      let gridX := Math_floor (x / inject_Z (pixelSize ip)) in
      if (0 <=? gridX) && (gridX <? Z.of_nat (length row0))
      then map (fun row => nth_error row (Z.to_nat gridX)) (pixelData ip)
      else []
  end.

Definition getPixelSize (ip : t) : Z := pixelSize ip.

Definition hasImage (ip : t) : bool :=
  match originalImage ip with
  | Some _ => negb (length (pixelData ip) =? 0)%nat
  | None => false
  end.

End ImageProcessor.

(** ** HsvMapper *)

Inductive Waveform := sine | triangle | sawtooth | square.

Module HsvMapper.
Import JS.

Record Range := mkRange { range_min : Q; range_max : Q }.

(** The mapper object.  [musicalScales] is a JavaScript object used as a
    table from scale names to arrays of semitone offsets. *)
Record t := mkMapper {
  frequencyRange : Range;
  volumeRange : Range;
  attackRange : Range;
  releaseRange : Range;
  waveforms : list Waveform;
  musicalScales : gmap string (list Z);
  currentScale : string;
  baseFrequency : Q
}.

Definition scaleTable : gmap string (list Z) :=
  <["chromatic" := [0; 1; 2; 3; 4; 5; 6; 7; 8; 9; 10; 11]]>
  (<["major" := [0; 2; 4; 5; 7; 9; 11]]>
  (<["minor" := [0; 2; 3; 5; 7; 8; 10]]>
  (<["pentatonic" := [0; 2; 4; 7; 9]]>
  (<["blues" := [0; 3; 5; 6; 7; 10]]> ∅)))).

(** [constructor()], lines 7-43. *)
Definition new : t :=
  {| frequencyRange := mkRange 200 2000;
     volumeRange := mkRange (1 # 10) (8 # 10);
     attackRange := mkRange (1 # 100) (1 # 10);
     releaseRange := mkRange (1 # 10) 1;
     waveforms := [sine; triangle; sawtooth; square];
     musicalScales := scaleTable;
     currentScale := "pentatonic";
     baseFrequency := 220 |}.

(** [array[i]] for a number [i]: [undefined] outside the array. *)
Definition array_get {A : Type} (l : list A) (i : Z) : option A :=
  if i <? 0 then None else nth_error l (Z.to_nat i).

(** The scale degree and octave that [mapHueToFrequency] picks, lines
    69-77.  [None]: the JavaScript value is [undefined] (no such scale, or
    an index outside the scale array). *)
Definition semitoneOf (m : t) (hue : Q) : option Z :=
  let normalizedHue := (hue / 360)%Q in
  match musicalScales m !! currentScale m with
  | Some scale =>
      let len := Z.of_nat (length scale) in
      let scaleIndex := Math_floor (normalizedHue * inject_Z len) in
      array_get scale (Z.rem scaleIndex len)
  | None => None
  end.

Definition octaveOf (hue : Q) : Z :=
  let normalizedHue := (hue / 360)%Q in
  Math_floor (normalizedHue * 3).

(** [baseFrequency * Math.pow(2, (octave * 12 + semitone) / 12)]. *)
Definition pitch (base : Q) (octave semitone : Z) : R :=
  (Q2R base * Rpower 2 (IZR (octave * 12 + semitone) / 12))%R.

(** [mapHueToFrequency(hue)], lines 67-81.  [None] stands for the results
    that are not numbers ([NaN], or the [TypeError] of an unknown scale). *)
Definition mapHueToFrequency (m : t) (hue : Q) : option R :=
  match semitoneOf m hue with
  | Some semitone =>
      let octave := octaveOf hue in
      let frequency := pitch (baseFrequency m) octave semitone in
      Some (Rmax (Q2R (range_min (frequencyRange m)))
                 (Rmin (Q2R (range_max (frequencyRange m))) frequency))
  | None => None
  end.

(** [setScale(scaleName)], lines 244-248: an unknown name is ignored. *)
Definition setScale (scaleName : string) (m : t) : t :=
  match musicalScales m !! scaleName with
  | Some _ =>
      {| frequencyRange := frequencyRange m; volumeRange := volumeRange m;
         attackRange := attackRange m; releaseRange := releaseRange m;
         waveforms := waveforms m; musicalScales := musicalScales m;
         currentScale := scaleName; baseFrequency := baseFrequency m |}
  | None => m
  end.


(** The configurations the mapper can be in: the constructor's tables and
    window, a scale of the table, and a base frequency that
    [setBaseFrequency] accepts. *)
Definition configured (m : t) : Prop :=
  musicalScales m = scaleTable
  /\ is_Some (scaleTable !! currentScale m)
  /\ frequencyRange m = mkRange 200 2000
  /\ (100 <= baseFrequency m <= 1000)%Q.

(** [hsvToRgb(h, s, v)], lines 180-218 of the mapper. *)
Definition hsvToRgb (h s v : Q) : RGB :=
  let h := Math_max 0 (Math_min 360 h) in
  let s := Math_max 0 (Math_min 100 s) in
  let v := Math_max 0 (Math_min 100 v) in
  let h := (h / 360)%Q in
  let s := (s / 100)%Q in
  let v := (v / 100)%Q in
  let '(r, g, b) :=
    if Qeq_bool s 0 then (v, v, v)
    else
      let i := Math_floor (h * 6) in
      let f := (h * 6 - inject_Z i)%Q in
      let p := (v * (1 - s))%Q in
      let q := (v * (1 - s * f))%Q in
      let t := (v * (1 - s * (1 - f)))%Q in
      match Z.rem i 6 with
      | 0 => (v, t, p)
      | 1 => (q, v, p)
      | 2 => (p, v, t)
      | 3 => (p, q, v)
      | 4 => (t, p, v)
      | _ => (v, p, q)
      end in
  {| red := Math_round (r * 255);
     green := Math_round (g * 255);
     blue := Math_round (b * 255) |}.

End HsvMapper.

(** ** The runtime shared by the engine and the canvas controller

    Everything runs on one event loop.  The world is the three objects, the
    clock and the pending [setTimeout] callbacks; a method is a function of
    the world that returns normally or throws, and keeps the world it has
    built so far in both cases. *)

(** Keys of the engine's [Map]s are JavaScript values: the controller passes
    the number [this.scanColumn] to [stopScanSound] and template strings to
    [startScanSound].  A number and a string are never the same key. *)
Inductive Key := KNum (n : Z) | KStr (s : string).

Global Instance Key_eq_dec : EqDecision Key.
Proof. solve_decision. Defined.

Global Program Instance Key_countable : Countable Key :=
  inj_countable'
    (fun k => match k with KNum n => inl n | KStr s => inr s end)
    (fun x => match x with inl n => KNum n | inr s => KStr s end) _.
Next Obligation. intros [n | s]; reflexivity. Qed.

Inductive Mode := single | scan.

Global Instance Mode_eq_dec : EqDecision Mode.
Proof. solve_decision. Defined.

(** A [Tone.Synth] with the options [createSynth] gives it. *)
Record Synth := mkSynth {
  oscillator : Waveform;
  env_attack : Q;
  env_decay : Q;
  env_sustain : Q;
  env_release : Q
}.

Record SynthData := mkSynthData {
  synth : Synth;
  frequency : Q;
  volume : Q;
  synth_hsv : HSV
}.

Record Engine := mkEngine {
  isInitialized : bool;
  synths : gmap Key SynthData;
  maxSynths : Z;
  currentMode : Mode;
  scanSounds : gmap Key Synth;
  masterVolume : Q;
  needsUserGesture : bool;
  masterGain : option Q;          (* the gain node, [undefined] before [init] *)
  reverb : option (Q * Q)         (* the reverb node (decay, wet) *)
}.

Record Controller := mkController {
  ctl_mode : Mode;                (* [this.currentMode] of the canvas *)
  isPlaying : bool;
  mousePosition : Q * Q;
  hoveredPixel : option ImageProcessor.Cell;
  scanColumn : Z
}.

(** The two closures the code hands to [setTimeout]: the clean-up of
    [playNote] (it captures [id]) and the staggered onset of [handleScanMove]
    (it captures [pixel] and [index]; [this.scanColumn] is read when it
    runs). *)
Inductive Callback :=
| CleanupSynth (id : Key)
| StartScan (pixel : ImageProcessor.Cell) (index : nat).

Record Timer := mkTimer { due : Q; callback : Callback }.

(** What Tone.js does when a node is connected to [undefined] is outside the
    repository: it either throws or ignores the call. *)
Record Tone := mkTone { connect_undefined_throws : bool }.

Record World := mkWorld {
  audioEngine : Engine;
  controller : Controller;
  imageProcessor : ImageProcessor.t;
  tone : Tone;
  now : Q;                        (* milliseconds *)
  timers : list Timer             (* pending, by due time, oldest first *)
}.

Inductive Result (A : Type) :=
| Ok (a : A) (w : World)
| Throw (msg : string) (w : World).
Arguments Ok {A} a w.
Arguments Throw {A} msg w.

Definition M (A : Type) : Type := World -> Result A.

Definition ret {A} (a : A) : M A := fun w => Ok a w.
Definition bind {A B} (m : M A) (k : A -> M B) : M B := fun w =>
  match m w with
  | Ok a w' => k a w'
  | Throw msg w' => Throw msg w'
  end.
Definition throw {A} (msg : string) : M A := fun w => Throw msg w.
Definition get : M World := fun w => Ok w w.

Notation "'let*' x := m 'in' k" := (bind m (fun x => k))
  (at level 10, x name, m at level 100, k at level 200).
Notation "m >> k" := (bind m (fun _ => k))
  (at level 100, k at level 200, right associativity).

(** The world a call leaves behind, whether it returned or threw. *)
Definition world_of {A} (r : Result A) : World :=
  match r with Ok _ w => w | Throw _ w => w end.

Definition set_engine (e : Engine) : M unit := fun w =>
  Ok tt {| audioEngine := e; controller := controller w;
           imageProcessor := imageProcessor w; tone := tone w;
           now := now w; timers := timers w |}.

Definition set_controller (c : Controller) : M unit := fun w =>
  Ok tt {| audioEngine := audioEngine w; controller := c;
           imageProcessor := imageProcessor w; tone := tone w;
           now := now w; timers := timers w |}.

(** [setTimeout(callback, delay)]: the queue stays ordered by due time, a
    new timer going behind the ones that are due at the same time. *)
Fixpoint enqueue (t : Timer) (l : list Timer) : list Timer :=
  match l with
  | [] => [t]
  | t' :: l' => if Qle_bool (due t') (due t) then t' :: enqueue t l' else t :: l
  end.

Definition setTimeout (cb : Callback) (delay : Q) : M unit := fun w =>
  Ok tt {| audioEngine := audioEngine w; controller := controller w;
           imageProcessor := imageProcessor w; tone := tone w;
           now := now w;
           timers := enqueue (mkTimer (now w + delay)%Q cb) (timers w) |}.

(** ** AudioEngine *)

Module AudioEngine.
Import JS.

(** [constructor()], lines 7-18. *)
Definition new : Engine :=
  {| isInitialized := false; synths := ∅; maxSynths := 5;
     currentMode := single; scanSounds := ∅; masterVolume := 3 # 10;
     needsUserGesture := true; masterGain := None; reverb := None |}.

(** How far [init] gets before the backend fails, if it does. *)
Inductive InitOutcome :=
| StartRejects      (* [await Tone.start()] rejects *)
| GainThrows        (* [new Tone.Gain(...)] throws *)
| ReverbThrows      (* [new Tone.Reverb(...)] throws *)
| InitSucceeds.

Definition with_nodes (e : Engine) (gain : option Q) (rev : option (Q * Q)) : Engine :=
  {| isInitialized := true; synths := synths e; maxSynths := maxSynths e;
     currentMode := currentMode e; scanSounds := scanSounds e;
     masterVolume := masterVolume e; needsUserGesture := needsUserGesture e;
     masterGain := gain; reverb := rev |}.

(** [init()], lines 20-47: the [catch] marks the engine initialized too. *)
Definition init (o : InitOutcome) : M unit :=
  let* w := get in
  let e := audioEngine w in
  match o with
  | StartRejects | GainThrows => set_engine (with_nodes e (masterGain e) (reverb e))
  | ReverbThrows => set_engine (with_nodes e (Some (masterVolume e)) (reverb e))
  | InitSucceeds => set_engine (with_nodes e (Some (masterVolume e)) (Some (2, 3 # 10)%Q))
  end.

(** The parameter mappings, lines 204-252. *)
Definition hsvToFrequency (hue : Q) : Q :=
  let minFreq := 200%Q in
  let maxFreq := 2000%Q in
  (minFreq + (hue / 360) * (maxFreq - minFreq))%Q.

Definition hsvToAttack (saturation : Q) : Q :=
  ((1 # 100) + (saturation / 100) * (1 # 10))%Q.

Definition hsvToRelease (value : Q) : Q :=
  ((1 # 10) + (value / 100) * 1)%Q.

Definition hsvToVolume (value : Q) : Q :=
  ((1 # 10) + (value / 100) * (7 # 10))%Q.

Definition Qlt_bool (a b : Q) : bool := negb (Qle_bool b a).

Definition hsvToWaveform (saturation : Q) : Waveform :=
  if Qlt_bool saturation 25 then sine
  else if Qlt_bool saturation 50 then triangle
  else if Qlt_bool saturation 75 then sawtooth
  else square.

Definition set_synths (m : gmap Key SynthData) : M unit :=
  let* w := get in
  let e := audioEngine w in
  set_engine
    {| isInitialized := isInitialized e; synths := m; maxSynths := maxSynths e;
       currentMode := currentMode e; scanSounds := scanSounds e;
       masterVolume := masterVolume e; needsUserGesture := needsUserGesture e;
       masterGain := masterGain e; reverb := reverb e |}.

Definition set_scanSounds (m : gmap Key Synth) : M unit :=
  let* w := get in
  let e := audioEngine w in
  set_engine
    {| isInitialized := isInitialized e; synths := synths e; maxSynths := maxSynths e;
       currentMode := currentMode e; scanSounds := m;
       masterVolume := masterVolume e; needsUserGesture := needsUserGesture e;
       masterGain := masterGain e; reverb := reverb e |}.

(** [createSynth(hsv, id)], lines 55-89.  [null] is [None]. *)
Definition createSynth (hsv : HSV) (id : Key) : M (option Synth) :=
  let* w := get in
  let e := audioEngine w in
  if negb (isInitialized e) then ret None
  else
    let frequency := hsvToFrequency (hue hsv) in
    let attack := hsvToAttack (sat hsv) in
    let release := hsvToRelease (val hsv) in
    let volume := hsvToVolume (val hsv) in
    let synth :=
      {| oscillator := hsvToWaveform (sat hsv);
         env_attack := attack; env_decay := 2 # 10; env_sustain := 3 # 10;
         env_release := release |} in
    (* synth.connect(this.reverb) *)
    (match reverb e with
     | Some _ => ret tt
     | None =>
         if connect_undefined_throws (tone w)
         then throw "Cannot connect to undefined node"
         else ret tt
     end) >>
    set_synths (<[id := mkSynthData synth frequency volume hsv]> (synths e)) >>
    ret (Some synth).

(** [cleanupSynth(id)], lines 258-264. *)
Definition cleanupSynth (id : Key) : M unit :=
  let* w := get in
  match synths (audioEngine w) !! id with
  | Some synthData => set_synths (delete id (synths (audioEngine w)))
  | None => ret tt
  end.

(** [playNote(hsv, duration = null)], lines 96-126.  [rnd] is what
    [Math.random()] prints as. *)
Definition Date_now (w : World) : Z := Math_floor (now w).

Definition playNote (hsv : HSV) (duration : option Q) (rnd : string) : M unit :=
  let* w := get in
  if negb (isInitialized (audioEngine w)) then ret tt
  else
    let computed := ((1 # 10) + (100 - val hsv) / 100 * (3 # 10))%Q in
    let calculatedDuration :=
      match duration with
      | Some d => if Qeq_bool d 0 then computed else d
      | None => computed
      end in
    let id := KStr ("note_" +:+ pretty (Date_now w) +:+ "_" +:+ rnd) in
    let* synth := createSynth hsv id in
    match synth with
    | Some _ =>
        (* synth.triggerAttackRelease(frequency, calculatedDuration, Tone.now(), volume) *)
        setTimeout (CleanupSynth id) (calculatedDuration * 1000 + 500)
    | None => ret tt
    end.

(** [stopScanSound(columnId)], lines 154-161. *)
Definition stopScanSound (columnId : Key) : M unit :=
  let* w := get in
  (match synths (audioEngine w) !! columnId with
   | Some synthData =>
       (* synthData.synth.triggerRelease() *)
       cleanupSynth columnId
   | None => ret tt
   end) >>
  let* w := get in
  set_scanSounds (delete columnId (scanSounds (audioEngine w))).

(** [startScanSound(hsv, columnId)], lines 133-148. *)
Definition startScanSound (hsv : HSV) (columnId : Key) : M unit :=
  let* w := get in
  if negb (isInitialized (audioEngine w))
     || negb (bool_decide (currentMode (audioEngine w) = scan))
  then ret tt
  else
    stopScanSound columnId >>
    let* synth := createSynth hsv columnId in
    match synth with
    | Some synth =>
        (* synth.triggerAttack(frequency, Tone.now(), volume) *)
        let* w := get in
        set_scanSounds (<[columnId := synth]> (scanSounds (audioEngine w)))
    | None => ret tt
    end.

(** [Map.prototype.forEach] with a callback that only looks at the key. *)
Fixpoint forEach (keys : list Key) (f : Key -> M unit) : M unit :=
  match keys with
  | [] => ret tt
  | k :: keys' => f k >> forEach keys' f
  end.

(** [stopAllScanSounds()], lines 166-174.  The callback deletes the entry it
    is called on and no other, so every key present at the start is visited
    once. *)
Definition stopAllScanSounds : M unit :=
  let* w := get in
  forEach (map fst (map_to_list (scanSounds (audioEngine w)))) stopScanSound >>
  set_scanSounds ∅.

(** [setMode(mode)], lines 180-186. *)
Definition setMode (mode : Mode) : M unit :=
  let* w := get in
  let e := audioEngine w in
  set_engine
    {| isInitialized := isInitialized e; synths := synths e; maxSynths := maxSynths e;
       currentMode := mode; scanSounds := scanSounds e;
       masterVolume := masterVolume e; needsUserGesture := needsUserGesture e;
       masterGain := masterGain e; reverb := reverb e |} >>
  match mode with
  | single => stopAllScanSounds
  | scan => ret tt
  end.

(** [dispose()], lines 269-281. *)
Definition dispose : M unit :=
  let* w := get in
  forEach (map fst (map_to_list (synths (audioEngine w)))) cleanupSynth.

(** The voices that are live: the synthesizers the engine holds. *)
Definition liveVoices (w : World) : nat := size (synths (audioEngine w)).

End AudioEngine.

(** ** InteractiveCanvas: the pointer handlers *)

Module InteractiveCanvas.
Import JS.

(** [constructor(...)], lines 7-22. *)
Definition new : Controller :=
  {| ctl_mode := single; isPlaying := false; mousePosition := (0, 0)%Q;
     hoveredPixel := None; scanColumn := -1 |}.

Definition set_scanColumn (column : Z) : M unit :=
  let* w := get in
  let c := controller w in
  set_controller
    {| ctl_mode := ctl_mode c; isPlaying := isPlaying c;
       mousePosition := mousePosition c; hoveredPixel := hoveredPixel c;
       scanColumn := column |}.

Definition set_hoveredPixel (pixel : option ImageProcessor.Cell) : M unit :=
  let* w := get in
  let c := controller w in
  set_controller
    {| ctl_mode := ctl_mode c; isPlaying := isPlaying c;
       mousePosition := mousePosition c; hoveredPixel := pixel;
       scanColumn := scanColumn c |}.

(** The key of a staggered onset, [`${this.scanColumn}_${index}`]. *)
Definition scanKey (column : Z) (index : nat) : Key :=
  KStr (pretty column +:+ "_" +:+ pretty index).

(** The body of a timer callback. *)
Definition runCallback (cb : Callback) : M unit :=
  match cb with
  | CleanupSynth id => AudioEngine.cleanupSynth id
  | StartScan pixel index =>
      let* w := get in
      AudioEngine.startScanSound (ImageProcessor.hsv pixel)
        (scanKey (scanColumn (controller w)) index)
  end.

(** [columnPixels.forEach((pixel, index) => ...)] of [handleScanMove]. *)
Fixpoint scheduleColumn (step : Z) (index : nat)
    (columnPixels : list (option ImageProcessor.Cell)) : M unit :=
  match columnPixels with
  | [] => ret tt
  | pixel :: rest =>
      (match pixel with
       | Some pixel =>
           if Z.rem (Z.of_nat index) step =? 0
           then setTimeout (StartScan pixel index)
                  (inject_Z (Z.of_nat index) / inject_Z step * 50)
           else ret tt
       | None => ret tt
       end) >>
      scheduleColumn step (S index) rest
  end.

(** [handleScanMove(p)], lines 379-405. *)
Definition handleScanMove (mouseX : Q) : M unit :=
  let* w := get in
  let newColumn :=
    Math_floor (mouseX / inject_Z (ImageProcessor.getPixelSize (imageProcessor w))) in
  if negb (newColumn =? scanColumn (controller w)) then
    (if 0 <=? scanColumn (controller w)
     then AudioEngine.stopScanSound (KNum (scanColumn (controller w)))
     else ret tt) >>
    set_scanColumn newColumn >>
    let columnPixels := ImageProcessor.getColumnPixels mouseX (imageProcessor w) in
    let maxSimultaneousSounds := 5 in
    let step :=
      Z.max 1 (Math_floor (inject_Z (Z.of_nat (length columnPixels))
                           / inject_Z maxSimultaneousSounds)) in
    scheduleColumn step 0 columnPixels
  else ret tt.

(** [handleScanRelease()], lines 410-415. *)
Definition handleScanRelease : M unit :=
  let* w := get in
  if 0 <=? scanColumn (controller w) then
    AudioEngine.stopScanSound (KNum (scanColumn (controller w))) >>
    set_scanColumn (-1)
  else ret tt.

(** [handleSingleClick(p, mouseX, mouseY)], lines 361-373. *)
Definition handleSingleClick (mouseX mouseY : Q) (rnd : string) : M unit :=
  let* w := get in
  match ImageProcessor.getPixelAt mouseX mouseY (imageProcessor w) with
  | Some pixel =>
      set_hoveredPixel (Some pixel) >>
      AudioEngine.playNote (ImageProcessor.hsv pixel) None rnd
  | None => ret tt
  end.

(** The offsets that centre the image on the p5 canvas (600 by 500). *)
Definition adjusted (w : World) (mouseX mouseY : Q) : Q * Q :=
  let imageWidth := default 0%Q (ImageProcessor.imageWidth (imageProcessor w)) in
  let imageHeight := default 0%Q (ImageProcessor.imageHeight (imageProcessor w)) in
  let offsetX := ((600 - imageWidth) / 2)%Q in
  let offsetY := ((500 - imageHeight) / 2)%Q in
  ((mouseX - offsetX)%Q, (mouseY - offsetY)%Q).

(** [p.mousePressed], lines 102-122. *)
Definition mousePressed (mouseX mouseY : Q) (rnd : string) : M unit :=
  let* w := get in
  if negb (ImageProcessor.hasImage (imageProcessor w)) || negb (isPlaying (controller w))
  then ret tt
  else
    match ctl_mode (controller w) with
    | single =>
        let '(x, y) := adjusted w mouseX mouseY in
        handleSingleClick x y rnd
    | scan => ret tt
    end.

(** [p.mouseMoved], lines 124-150. *)
Definition mouseMoved (mouseX mouseY : Q) : M unit :=
  let* w := get in
  if negb (ImageProcessor.hasImage (imageProcessor w)) then ret tt
  else
    let c := controller w in
    set_controller
      {| ctl_mode := ctl_mode c; isPlaying := isPlaying c;
         mousePosition := (mouseX, mouseY); hoveredPixel := hoveredPixel c;
         scanColumn := scanColumn c |} >>
    let '(x, y) := adjusted w mouseX mouseY in
    set_hoveredPixel (ImageProcessor.getPixelAt x y (imageProcessor w)) >>
    let* w := get in
    match ctl_mode (controller w), isPlaying (controller w) with
    | scan, true => handleScanMove mouseX
    | _, _ => ret tt
    end.

(** [p.mouseReleased] and [p.mouseExited], lines 152-163. *)
Definition mouseReleased : M unit :=
  let* w := get in
  match ctl_mode (controller w), isPlaying (controller w) with
  | scan, true => handleScanRelease
  | _, _ => ret tt
  end.

Definition mouseExited : M unit :=
  set_hoveredPixel None >>
  let* w := get in
  match ctl_mode (controller w), isPlaying (controller w) with
  | scan, true => handleScanRelease
  | _, _ => ret tt
  end.

(** [setMode(mode)], lines 431-441. *)
Definition setMode (mode : Mode) : M unit :=
  let* w := get in
  let c := controller w in
  set_controller
    {| ctl_mode := mode; isPlaying := isPlaying c;
       mousePosition := mousePosition c; hoveredPixel := hoveredPixel c;
       scanColumn := scanColumn c |} >>
  (match mode with
   | single => handleScanRelease
   | scan => ret tt
   end) >>
  AudioEngine.setMode mode.

(** [setPlaying(playing)], lines 447-458. *)
Definition setPlaying (playing : bool) : M unit :=
  let* w := get in
  let c := controller w in
  set_controller
    {| ctl_mode := ctl_mode c; isPlaying := playing;
       mousePosition := mousePosition c; hoveredPixel := hoveredPixel c;
       scanColumn := scanColumn c |} >>
  if negb playing then
    handleScanRelease >>
    AudioEngine.stopAllScanSounds
  else ret tt.

End InteractiveCanvas.

(** ** The event loop *)

Inductive Event :=
| MouseMoved (mouseX mouseY : Q)
| MousePressed (mouseX mouseY : Q) (rnd : string)
| MouseReleased
| MouseExited
| SetMode (mode : Mode)
| SetPlaying (playing : bool)
| Elapse (ms : Q).

Definition set_clock (t : Q) (rest : list Timer) : M unit := fun w =>
  Ok tt {| audioEngine := audioEngine w; controller := controller w;
           imageProcessor := imageProcessor w; tone := tone w;
           now := t; timers := rest |}.

(** Run the timers that are due up to [target], oldest first.  An exception
    in a callback ends that callback only.  No callback of this program sets
    a timer, so one pass over the queue is enough: [fuel] is its length. *)
Fixpoint fireDue (fuel : nat) (target : Q) (w : World) : World :=
  match fuel with
  | O => w
  | S fuel' =>
      match timers w with
      | t :: rest =>
          if Qle_bool (due t) target then
            let w1 := world_of (set_clock (due t) rest w) in
            fireDue fuel' target (world_of (InteractiveCanvas.runCallback (callback t) w1))
          else w
      | [] => w
      end
  end.

Definition elapse (ms : Q) (w : World) : World :=
  let target := (now w + ms)%Q in
  let w' := fireDue (length (timers w)) target w in
  world_of (set_clock target (timers w') w').

(** One turn of the event loop; an uncaught exception ends the handler and
    the loop goes on. *)
Definition dispatch (ev : Event) (w : World) : World :=
  match ev with
  | MouseMoved x y => world_of (InteractiveCanvas.mouseMoved x y w)
  | MousePressed x y rnd => world_of (InteractiveCanvas.mousePressed x y rnd w)
  | MouseReleased => world_of (InteractiveCanvas.mouseReleased w)
  | MouseExited => world_of (InteractiveCanvas.mouseExited w)
  | SetMode mode => world_of (InteractiveCanvas.setMode mode w)
  | SetPlaying playing => world_of (InteractiveCanvas.setPlaying playing w)
  | Elapse ms => elapse ms w
  end.

Definition run (evs : list Event) (w : World) : World := fold_left (fun w ev => dispatch ev w) evs w.

(** ** The colour round trip

    [hsvToRgb(hsv.h, hsv.s, hsv.v)] on [hsv = rgbToHsv(r, g, b)], as
    [drawHsvInfo] composes the two for the cell under the pointer. *)
Definition roundtrip (r g b : Z) : RGB :=
  let x := ImageProcessor.rgbToHsv r g b in
  HsvMapper.hsvToRgb (hue x) (sat x) (val x).


(** ** Auxiliary definitions for the statements *)

(** The world with the two tables of the engine replaced. *)
Definition with_tables (w : World) (sy : gmap Key SynthData) (sc : gmap Key Synth)
      : World :=
  let e := audioEngine w in
  {| audioEngine :=
       {| isInitialized := isInitialized e; synths := sy; maxSynths := maxSynths e;
          currentMode := currentMode e; scanSounds := sc;
          masterVolume := masterVolume e; needsUserGesture := needsUserGesture e;
          masterGain := masterGain e; reverb := reverb e |};
     controller := controller w; imageProcessor := imageProcessor w;
     tone := tone w; now := now w; timers := timers w |}.


(** Deleting a list of keys from a table. *)
Definition deleteAll {V} (keys : list Key) (m : gmap Key V) : gmap Key V :=
  fold_left (fun m k => delete k m) keys m.


(** The arithmetic mean of a block of pixels, channel by channel, rounded as
    [Math.round] does. *)
Definition span (lo hi : Z) : list Z :=
  map (fun i => lo + Z.of_nat i) (seq 0 (Z.to_nat (hi - lo))).

Definition total (xs : list Z) : Z := fold_right Z.add 0 xs.

Definition mean (xs : list Z) : Q :=
  (inject_Z (total xs) / inject_Z (Z.of_nat (length xs)))%Q.

Definition meanColor (pixels : list RGB) : RGB :=
  {| red := JS.Math_round (mean (map red pixels));
     green := JS.Math_round (mean (map green pixels));
     blue := JS.Math_round (mean (map blue pixels)) |}.

(** One step of the accumulation of [calculateAverageColor]. *)
Definition addPixel (acc : Z * Z * Z * Z) (p : RGB) : Z * Z * Z * Z :=
  let '(r, g, b, count) := acc in (r + red p, g + green p, b + blue p, count + 1).

(** The canvas pixels inside the bounds of the cell that starts at
    [(startX, startY)]: the cell is cut at the canvas edge. *)
Definition cellPixels (c : ImageProcessor.Canvas) (startX startY cellSize : Z) : list RGB :=
  flat_map
    (fun y =>
       map (fun x => ImageProcessor.bitmap c x y)
           (span startX (Z.min (startX + cellSize) (ImageProcessor.width c))))
    (span startY (Z.min (startY + cellSize) (ImageProcessor.height c))).

(** The pixels of the image itself in the block of side [size] at [(x, y)]. *)
Definition imageBlock (img : ImageProcessor.Image) (x y size : Z) : list RGB :=
  flat_map
    (fun py => map (fun px => ImageProcessor.img_pixel img px py) (span x (x + size)))
    (span y (y + size)).

(** The pixels strictly inside a grid cell, away from its outline. *)
Definition interior (pixelSize gx gy px py : Z) : Prop :=
  gx * pixelSize + 1 <= px <= gx * pixelSize + pixelSize - 2
  /\ gy * pixelSize + 1 <= py <= gy * pixelSize + pixelSize - 2.

(** A processor holding a 100 by 100 image that is black all over, at the
    default cell size 50. *)
Definition blackSquare : ImageProcessor.Image :=
  ImageProcessor.mkImage 100 100 (fun _ _ => black).

Definition blankCanvas : ImageProcessor.Canvas :=
  ImageProcessor.mkCanvas 300 150 (fun _ _ => white).

Definition blackSquareLoaded : ImageProcessor.t :=
  ImageProcessor.loadImage ImageProcessor.nearest (fun c => c) blackSquare
    (ImageProcessor.init blankCanvas ImageProcessor.new).

(** The same processor just before [loadImage] calls [processImage]. *)
Definition blackSquareHeld : ImageProcessor.t :=
  {| ImageProcessor.originalImage := Some blackSquare;
     ImageProcessor.pixelData := [];
     ImageProcessor.pixelSize := 50;
     ImageProcessor.maxPixelSize := 100; ImageProcessor.minPixelSize := 10;
     ImageProcessor.canvas := Some blankCanvas;
     ImageProcessor.imageWidth := None; ImageProcessor.imageHeight := None;
     ImageProcessor.imageOffsetX := None; ImageProcessor.imageOffsetY := None |}.

(** ** Concrete inputs

    A processor whose grid was built at cell size [pixelSize] on the 600 by
    500 canvas, every cell with a colour of its own; a world in which the
    engine was initialized with a working backend, scan mode was selected and
    playback started. *)

Definition demoCell (pixelSize gx gy : Z) : ImageProcessor.Cell :=
  let c := mkRGB (20 * gx) (20 * gy) 128 in
  {| ImageProcessor.rgb := c;
     ImageProcessor.hsv := ImageProcessor.rgbToHsv (red c) (green c) (blue c);
     ImageProcessor.gridX := gx; ImageProcessor.gridY := gy;
     ImageProcessor.pixelX := gx * pixelSize; ImageProcessor.pixelY := gy * pixelSize |}.

Definition demoProcessor (pixelSize : Z) : ImageProcessor.t :=
  {| ImageProcessor.originalImage :=
       Some (ImageProcessor.mkImage 600 500
               (fun x y => mkRGB (20 * (x / pixelSize)) (20 * (y / pixelSize)) 128));
     ImageProcessor.pixelData :=
       map (fun gy =>
              map (fun gx => demoCell pixelSize gx gy)
                  (ImageProcessor.range
                     (JS.Math_ceil (inject_Z 600 / inject_Z pixelSize))))
           (ImageProcessor.range (JS.Math_ceil (inject_Z 500 / inject_Z pixelSize)));
     ImageProcessor.pixelSize := pixelSize;
     ImageProcessor.maxPixelSize := 100; ImageProcessor.minPixelSize := 10;
     ImageProcessor.canvas := None;
     ImageProcessor.imageWidth := Some 600%Q;
     ImageProcessor.imageHeight := Some 500%Q;
     ImageProcessor.imageOffsetX := Some 0%Q;
     ImageProcessor.imageOffsetY := Some 0%Q |}.

Definition freshWorld (pixelSize : Z) (backend : Tone) : World :=
  {| audioEngine := AudioEngine.new; controller := InteractiveCanvas.new;
     imageProcessor := demoProcessor pixelSize;
     tone := backend; now := 0; timers := [] |}.

Definition initialized (pixelSize : Z) : World :=
  world_of (AudioEngine.init AudioEngine.InitSucceeds (freshWorld pixelSize (mkTone true))).

Definition scanning (pixelSize : Z) : World :=
  run [SetMode scan; SetPlaying true] (initialized pixelSize).

Definition demoHsv : HSV := mkHSV 0 100 100.

(** A transient voice is sounding: one click in single mode. *)
Definition oneNote : World :=
  world_of (AudioEngine.playNote demoHsv None "0.42" (initialized 50)).

(** A sustained voice is sounding: one onset of scan mode. *)
Definition oneScanVoice : World :=
  world_of (AudioEngine.startScanSound demoHsv (KStr "0_0") (scanning 100)).


(** *** The round trip in integers

    [rounds n den z] says that [z] is [Math.round(n / den)]: the nearest
    integer, ties going up. *)
Definition rounds (n den z : Z) : Prop :=
  2 * den * z <= 2 * n + den < 2 * den * z + 2 * den.



(** ** Further code of the four classes

    *** ImageProcessor: the accessors *)

Module ImageProcessorQueries.
Import JS ImageProcessor.



End ImageProcessorQueries.

(** *** HsvMapper: the audio parameters *)

Module HsvMapperAudio.
Import JS HsvMapper.

(** [mapSaturationToAttack(saturation)], lines 89-93. *)
Definition mapSaturationToAttack (m : t) (saturation : Q) : Q :=
  let normalizedSat := (saturation / 100)%Q in
  (range_min (attackRange m)
   + (1 - normalizedSat) * (range_max (attackRange m) - range_min (attackRange m)))%Q.

(** [mapValueToVolume(value)], lines 101-104. *)
Definition mapValueToVolume (m : t) (value : Q) : Q :=
  let normalizedValue := (value / 100)%Q in
  (range_min (volumeRange m)
   + normalizedValue * (range_max (volumeRange m) - range_min (volumeRange m)))%Q.

(** [mapValueToRelease(value)], lines 112-115. *)
Definition mapValueToRelease (m : t) (value : Q) : Q :=
  let normalizedValue := (value / 100)%Q in
  (range_min (releaseRange m)
   + normalizedValue * (range_max (releaseRange m) - range_min (releaseRange m)))%Q.

(** [mapSaturationToWaveform(saturation)], lines 123-127.  [None] is
    [undefined]: an index outside the array. *)
Definition mapSaturationToWaveform (m : t) (saturation : Q) : option Waveform :=
  let normalizedSat := (saturation / 100)%Q in
  let len := Z.of_nat (length (waveforms m)) in
  let waveformIndex := Math_floor (normalizedSat * inject_Z len) in
  array_get (waveforms m) (Z.min waveformIndex (len - 1)).

(** [mapSaturationToTimbre(saturation)], lines 134-145. *)
Record Timbre := mkTimbre {
  harmonicCount : Z;
  filterCutoff : Q;
  resonance : Q
}.

Definition mapSaturationToTimbre (saturation : Q) : Timbre :=
  let normalizedSat := (saturation / 100)%Q in
  {| harmonicCount := Math_floor (2 + normalizedSat * 8);
     filterCutoff := (200 + normalizedSat * 1800)%Q;
     resonance := (normalizedSat * (8 # 10))%Q |}.

(** [mapHueToPan(hue)], lines 152-155. *)
Definition mapHueToPan (hue : Q) : R := sin (Q2R hue * PI / 180).

(** [mapHsvToAudio(hsv)], lines 50-60. *)
Record AudioParams := mkAudioParams {
  ap_frequency : option R;
  ap_volume : Q;
  ap_attack : Q;
  ap_release : Q;
  ap_waveform : option Waveform;
  ap_timbre : Timbre;
  ap_pan : R
}.

Definition mapHsvToAudio (m : t) (hsv : HSV) : AudioParams :=
  {| ap_frequency := mapHueToFrequency m (hue hsv);
     ap_volume := mapValueToVolume m (val hsv);
     ap_attack := mapSaturationToAttack m (sat hsv);
     ap_release := mapValueToRelease m (val hsv);
     ap_waveform := mapSaturationToWaveform m (sat hsv);
     ap_timbre := mapSaturationToTimbre (sat hsv);
     ap_pan := mapHueToPan (hue hsv) |}.

(** [generateColorDescription(hsv)], lines 225-238.  [hueNames[hueIndex]]
    is [undefined] outside the table, and ['Red'] is taken then. *)
Definition hueNames : list string :=
  ["Red"; "Orange"; "Yellow"; "Lime"; "Green"; "Cyan";
   "Blue"; "Purple"; "Magenta"; "Pink"]%string.

Definition hueNameOf (h : Q) : string :=
  let hueIndex := Math_floor (h / 36) in
  default "Red"%string (array_get hueNames hueIndex).

Definition saturationDesc (s : Q) : string :=
  if AudioEngine.Qlt_bool 80 s then "vivid"
  else if AudioEngine.Qlt_bool 50 s then "moderate" else "muted".

Definition brightnessDesc (v : Q) : string :=
  if AudioEngine.Qlt_bool 80 v then "bright"
  else if AudioEngine.Qlt_bool 50 v then "medium" else "dark".

Definition generateColorDescription (hsv : HSV) : string :=
  brightnessDesc (val hsv) +:+ " " +:+ saturationDesc (sat hsv)
  +:+ " " +:+ hueNameOf (hue hsv).

End HsvMapperAudio.

(** *** AudioEngine: the master volume *)

Module AudioEngineControls.
Import JS.

(** [setMasterVolume(volume)], lines 192-197.  The gain node, when there
    is one, is ramped to the clamped volume; its field holds the value it
    is ramped to. *)
Definition setMasterVolume (volume : Q) : M unit :=
  let* w := get in
  let e := audioEngine w in
  let v := Math_max 0 (Math_min 1 volume) in
  set_engine
    {| isInitialized := isInitialized e; synths := synths e; maxSynths := maxSynths e;
       currentMode := currentMode e; scanSounds := scanSounds e;
       masterVolume := v; needsUserGesture := needsUserGesture e;
       masterGain := match masterGain e with Some _ => Some v | None => None end;
       reverb := reverb e |}.

End AudioEngineControls.

(** *** The application object *)

Module ImageSoundSynesthesia.

(** The state of the application object itself, lines 17-21; the four
    components it orchestrates are in the world. *)
Record App := mkApp {
  app_isPlaying : bool;
  app_currentMode : Mode;
  app_currentPixelSize : Z
}.

Definition new : App :=
  {| app_isPlaying := false; app_currentMode := single; app_currentPixelSize := 50 |}.

Definition set_imageProcessor (ip : ImageProcessor.t) : M unit := fun w =>
  Ok tt {| audioEngine := audioEngine w; controller := controller w;
           imageProcessor := ip; tone := tone w;
           now := now w; timers := timers w |}.

(** [handleImageUpload(event)], lines 173-214.  [file] is the decoded
    image, or [None] when there is no file or [loadImage] rejects (not an
    image, unreadable, undecodable): the handler catches the rejection and
    shows an error. *)
Definition handleImageUpload (resample : ImageProcessor.Resampler) (blend : RGB -> RGB)
    (file : option ImageProcessor.Image) : M unit :=
  match file with
  | Some img =>
      let* w := get in
      set_imageProcessor (ImageProcessor.loadImage resample blend img (imageProcessor w))
  | None => ret tt
  end.

(** [handlePixelSizeChange(event)], lines 220-238.  The size is recorded
    and displayed first; the processor is told only when it has an image. *)
Definition handlePixelSizeChange (resample : ImageProcessor.Resampler) (blend : RGB -> RGB)
    (newSize : Z) (a : App) (w : World) : App * Result unit :=
  ({| app_isPlaying := app_isPlaying a; app_currentMode := app_currentMode a;
      app_currentPixelSize := newSize |},
   if ImageProcessor.hasImage (imageProcessor w)
   then set_imageProcessor
          (ImageProcessor.setPixelSize resample blend newSize (imageProcessor w)) w
   else Ok tt w).

(** [handleModeChange(event)], lines 244-255. *)
Definition handleModeChange (newMode : Mode) (a : App) (w : World) : App * Result unit :=
  ({| app_isPlaying := app_isPlaying a; app_currentMode := newMode;
      app_currentPixelSize := app_currentPixelSize a |},
   (InteractiveCanvas.setMode newMode >> AudioEngine.setMode newMode) w).

(** [toggleMode()], lines 322-326. *)
Definition toggleMode (a : App) (w : World) : App * Result unit :=
  let newMode := match app_currentMode a with single => scan | scan => single end in
  handleModeChange newMode a w.

(** [togglePlayback()], lines 260-289.  [o] is what the backend does if
    the engine has to be initialized first; an exception out of [init]
    would end the handler before the state is flipped. *)
Definition togglePlayback (o : AudioEngine.InitOutcome) (a : App) (w : World)
    : App * Result unit :=
  let started :=
    if negb (app_isPlaying a) && negb (isInitialized (audioEngine w))
    then AudioEngine.init o w
    else Ok tt w in
  match started with
  | Throw _ w' => (a, Ok tt w')
  | Ok _ w1 =>
      let playing := negb (app_isPlaying a) in
      ({| app_isPlaying := playing; app_currentMode := app_currentMode a;
          app_currentPixelSize := app_currentPixelSize a |},
       ((if negb playing then AudioEngine.stopAllScanSounds else ret tt) >>
        InteractiveCanvas.setPlaying playing) w1)
  end.

End ImageSoundSynesthesia.

(** ** Auxiliary definitions for the further statements *)

(** What holds of the modes between two events: the canvas and the engine
    are in the same mode, and in single mode no scan sound is registered. *)
Definition modesAgree (w : World) : Prop :=
  ctl_mode (controller w) = currentMode (audioEngine w)
  /\ (currentMode (audioEngine w) = single -> scanSounds (audioEngine w) = ∅).

(** What a call may do to the modes: it leaves both as they are, and in
    single mode it registers no scan sound. *)
Definition modeFrame (w w' : World) : Prop :=
  ctl_mode (controller w') = ctl_mode (controller w)
  /\ currentMode (audioEngine w') = currentMode (audioEngine w)
  /\ (currentMode (audioEngine w) = single -> scanSounds (audioEngine w) = ∅ ->
      scanSounds (audioEngine w') = ∅).

Definition framed {A} (m : M A) : Prop :=
  forall w, modeFrame w (world_of (m w)).

(** The world with the scan column of the controller replaced. *)
Definition with_column (w : World) (column : Z) : World :=
  let c := controller w in
  {| audioEngine := audioEngine w;
     controller :=
       {| ctl_mode := ctl_mode c; isPlaying := isPlaying c;
          mousePosition := mousePosition c; hoveredPixel := hoveredPixel c;
          scanColumn := column |};
     imageProcessor := imageProcessor w; tone := tone w;
     now := now w; timers := timers w |}.

(** The number of multiples of [step] among [index], ..., [index + n - 1]. *)
Fixpoint onsets (step : Z) (index n : nat) : nat :=
  match n with
  | O => O
  | S n' =>
      ((if (Z.rem (Z.of_nat index) step =? 0)%Z then 1 else 0)
       + onsets step (S index) n')%nat
  end.

(** A range with its bounds in order, and a mapper whose tables are those
    of the constructor up to the choice of scale and base frequency. *)
Definition ordered (r : HsvMapper.Range) : Prop :=
  (HsvMapper.range_min r <= HsvMapper.range_max r)%Q.

Definition wellFormed (m : HsvMapper.t) : Prop :=
  HsvMapper.configured m
  /\ ordered (HsvMapper.volumeRange m)
  /\ ordered (HsvMapper.attackRange m)
  /\ ordered (HsvMapper.releaseRange m)
  /\ HsvMapper.waveforms m <> [].


(** * Properties *)

(** ** The voice pool *)

Section EngineFacts.
Import AudioEngine.

Lemma with_tables_id w :
  with_tables w (synths (audioEngine w)) (scanSounds (audioEngine w)) = w.
Proof. destruct w as [[] ? ? ? ? ?]; reflexivity. Qed.

Lemma with_tables_twice w sy sc sy' sc' :
  with_tables (with_tables w sy sc) sy' sc' = with_tables w sy' sc'.
Proof. reflexivity. Qed.

Lemma cleanupSynth_eq id w :
  cleanupSynth id w
  = Ok tt (with_tables w (delete id (synths (audioEngine w)))
                         (scanSounds (audioEngine w))).
Proof.
  unfold cleanupSynth, bind, get.
  destruct (synths (audioEngine w) !! id) eqn:Hid.
  - reflexivity.
  - rewrite (delete_id _ _ Hid), with_tables_id. reflexivity.
Qed.

Lemma stopScanSound_eq k w :
  stopScanSound k w
  = Ok tt (with_tables w (delete k (synths (audioEngine w)))
                         (delete k (scanSounds (audioEngine w)))).
Proof.
  unfold stopScanSound, bind, get.
  destruct (synths (audioEngine w) !! k) eqn:Hk.
  - rewrite cleanupSynth_eq. reflexivity.
  - unfold ret. rewrite (delete_id _ _ Hk). reflexivity.
Qed.

Lemma lookup_deleteAll {V} (keys : list Key) (m : gmap Key V) k :
  deleteAll keys m !! k = if decide (k ∈ keys) then None else m !! k.
Proof.
  revert m. induction keys as [| k' keys IH]; intros m; simpl.
  - destruct (decide (k ∈ [])) as [Hin |]; [inversion Hin | reflexivity].
  - rewrite IH.
    destruct (decide (k ∈ keys)) as [Hin | Hnin].
    + rewrite decide_True by (right; exact Hin). reflexivity.
    + destruct (decide (k = k')) as [-> | Hne].
      * rewrite lookup_delete_eq, decide_True by left. reflexivity.
      * rewrite lookup_delete_ne by congruence.
        rewrite decide_False; [reflexivity |].
        intros Hin. apply elem_of_cons in Hin as [? | ?]; contradiction.
Qed.

Lemma forEach_stopScanSound keys w :
  forEach keys stopScanSound w
  = Ok tt (with_tables w (deleteAll keys (synths (audioEngine w)))
                         (deleteAll keys (scanSounds (audioEngine w)))).
Proof.
  revert w. induction keys as [| k keys IH]; intros w; simpl.
  - unfold ret. rewrite with_tables_id. reflexivity.
  - unfold bind. rewrite stopScanSound_eq, IH. reflexivity.
Qed.

Lemma stopAllScanSounds_eq w :
  stopAllScanSounds w
  = Ok tt (with_tables w
             (deleteAll (map fst (map_to_list (scanSounds (audioEngine w))))
                        (synths (audioEngine w)))
             ∅).
Proof.
  unfold stopAllScanSounds, bind, get.
  rewrite forEach_stopScanSound. reflexivity.
Qed.

Lemma elem_of_keys {V} (m : gmap Key V) k :
  k ∈ map fst (map_to_list m) <-> is_Some (m !! k).
Proof.
  rewrite list_elem_of_In, in_map_iff. split.
  - intros [[k' v] [Heq Hin]]. simpl in Heq. subst k'.
    apply list_elem_of_In, elem_of_map_to_list in Hin. eauto.
  - intros [v Hv]. exists (k, v). split; [reflexivity |].
    apply list_elem_of_In, elem_of_map_to_list. exact Hv.
Qed.

End EngineFacts.

Section VoicePool.
Import AudioEngine.

(** C8.  Stopping a key that has no voice, stopping a key a second time,
    and a release that arrives after a transient voice has expired (its
    clean-up timer has run) are no-ops: the call returns normally and the
    world is the one it started from. *)
Theorem stop_absent_is_noop (w : World) (k : Key) :
  (synths (audioEngine w) !! k = None ->
   scanSounds (audioEngine w) !! k = None ->
   stopScanSound k w = Ok tt w /\ cleanupSynth k w = Ok tt w)
  /\ (exists w1, stopScanSound k w = Ok tt w1 /\ stopScanSound k w1 = Ok tt w1)
  /\ (exists w1, InteractiveCanvas.runCallback (CleanupSynth k) w = Ok tt w1
        /\ cleanupSynth k w1 = Ok tt w1
        /\ (scanSounds (audioEngine w) !! k = None -> stopScanSound k w1 = Ok tt w1)).
Proof.
  split; [| split].
  - intros Hsy Hsc.
    rewrite stopScanSound_eq, cleanupSynth_eq.
    rewrite (delete_id _ _ Hsy), (delete_id _ _ Hsc), with_tables_id.
    split; reflexivity.
  - eexists. split; [apply stopScanSound_eq |].
    rewrite stopScanSound_eq. simpl.
    rewrite !delete_delete_eq. reflexivity.
  - eexists. split; [apply cleanupSynth_eq |]. split.
    + rewrite cleanupSynth_eq. simpl. rewrite delete_delete_eq. reflexivity.
    + intros Hsc. rewrite stopScanSound_eq. simpl.
      rewrite delete_delete_eq, (delete_id _ _ Hsc). reflexivity.
Qed.

Lemma stop_absent_is_noop_witness :
  stopScanSound (KNum 3) oneNote = Ok tt oneNote
  /\ cleanupSynth (KNum 3) oneNote = Ok tt oneNote.
Proof.
  apply (proj1 (stop_absent_is_noop oneNote (KNum 3))); reflexivity.
Defined.

(** C7, as stated, fails: a transient voice that is still sounding survives
    [stopAllScanSounds]. *)
Lemma stopAll_keeps_transient_voice :
  liveVoices oneNote = 1%nat
  /\ liveVoices (world_of (stopAllScanSounds oneNote)) = 1%nat.
Proof. split; vm_compute; reflexivity. Qed.

(** C7, amended.  [stopAllScanSounds] returns normally and leaves no
    sustained scan voice: the table of scan sounds is empty, every key that
    was in it has no synthesizer any more, and the other synthesizers (the
    transient voices of [playNote]) are untouched.  No voice at all is left
    when every live voice was a scan voice. *)
Theorem stopAllScanSounds_stops_scan_voices (w : World) :
  exists w', stopAllScanSounds w = Ok tt w'
    /\ scanSounds (audioEngine w') = ∅
    /\ (forall k, is_Some (scanSounds (audioEngine w) !! k) ->
                  synths (audioEngine w') !! k = None)
    /\ (forall k, scanSounds (audioEngine w) !! k = None ->
                  synths (audioEngine w') !! k = synths (audioEngine w) !! k)
    /\ ((forall k, is_Some (synths (audioEngine w) !! k) ->
                   is_Some (scanSounds (audioEngine w) !! k)) ->
        liveVoices w' = 0%nat).
Proof.
  eexists. split; [apply stopAllScanSounds_eq |]. simpl.
  split; [reflexivity |].
  assert (Hin : forall k,
    deleteAll (map fst (map_to_list (scanSounds (audioEngine w))))
              (synths (audioEngine w)) !! k
    = if decide (is_Some (scanSounds (audioEngine w) !! k)) then None
      else synths (audioEngine w) !! k).
  { intros k. rewrite lookup_deleteAll.
    destruct (decide (k ∈ map fst (map_to_list (scanSounds (audioEngine w)))))
      as [Hk | Hk]; rewrite elem_of_keys in Hk.
    - rewrite decide_True by exact Hk. reflexivity.
    - rewrite decide_False by exact Hk. reflexivity. }
  split; [| split].
  - intros k Hk. rewrite Hin.
    rewrite decide_True by exact Hk. reflexivity.
  - intros k Hk. rewrite Hin.
    rewrite decide_False; [reflexivity |].
    rewrite Hk. intros [? ?]; discriminate.
  - intros Hall. unfold liveVoices. simpl.
    apply map_size_empty_iff, map_empty. intros k.
    rewrite Hin.
    destruct (decide (is_Some (scanSounds (audioEngine w) !! k))) as [| Hk];
      [reflexivity |].
    destruct (synths (audioEngine w) !! k) eqn:Hsy; [| reflexivity].
    exfalso. apply Hk, Hall. rewrite Hsy. eauto.
Qed.

(** The two tables of [oneScanVoice] hold the one voice. *)
Lemma oneScanVoice_tables :
  exists sd s,
    synths (audioEngine oneScanVoice) = <[KStr "0_0" := sd]> ∅
    /\ scanSounds (audioEngine oneScanVoice) = <[KStr "0_0" := s]> ∅.
Proof. eexists. eexists. split; vm_compute; reflexivity. Qed.

Lemma stopAllScanSounds_stops_scan_voices_witness :
  liveVoices oneScanVoice = 1%nat
  /\ exists w', stopAllScanSounds oneScanVoice = Ok tt w'
       /\ liveVoices w' = 0%nat.
Proof.
  split; [vm_compute; reflexivity |].
  destruct (stopAllScanSounds_stops_scan_voices oneScanVoice)
    as (w' & Hrun & _ & _ & _ & Hzero).
  exists w'. split; [exact Hrun |].
  apply Hzero. intros k.
  destruct oneScanVoice_tables as (sd & s & -> & ->).
  destruct (decide (k = KStr "0_0")) as [-> | Hne].
  - rewrite !lookup_insert_eq. eauto.
  - rewrite !lookup_insert_ne, !lookup_empty by congruence.
    intros [? ?]; discriminate.
Defined.




End VoicePool.

(** ** Scan mode *)

Section ScanMode.
Import AudioEngine InteractiveCanvas.

(** C1: the code at the failing input.  At cell size 60 a column of the
    grid has nine cells; the stride is [max(1, floor(9 / 5)) = 1], not
    [ceil(9 / 5) = 2], so all nine onsets are scheduled, and when they have
    fired nine voices are live although the cap is five. *)
Theorem scan_column_of_nine_exceeds_cap :
  let w := run [MouseMoved 10 10; Elapse 400] (scanning 60) in
  length (ImageProcessor.getColumnPixels 10 (imageProcessor (scanning 60))) = 9%nat
  /\ length (timers (dispatch (MouseMoved 10 10) (scanning 60))) = 9%nat
  /\ liveVoices w = 9%nat
  /\ maxSynths (audioEngine w) = 5.
Proof. repeat split; vm_compute; reflexivity. Qed.

(** C2: the code at the failing input.  The pointer enters column 0 of a
    grid with five rows and the five onsets fire; it then moves to column 1.
    [stopScanSound] is called with the number [0], a key no voice was
    started under, so the five voices of column 0 are all still live after
    the move, and ten voices of two columns are live once the onsets of
    column 1 have fired.  When the pointer changes column before the onsets
    have fired, the onset of row 1 of column 0 starts a voice under the key
    of column 1 with the colour of the cell of column 0. *)
Theorem previous_column_keeps_sounding :
  let w1 := run [MouseMoved 10 10; Elapse 400] (scanning 100) in
  let w2 := dispatch (MouseMoved 110 10) w1 in
  let w3 := dispatch (Elapse 400) w2 in
  let w4 := run [MouseMoved 10 10; Elapse 10; MouseMoved 110 10; Elapse 45]
                (scanning 100) in
  scanColumn (controller w1) = 0
  /\ liveVoices w1 = 5%nat
  /\ scanColumn (controller w2) = 1
  /\ Forall (fun i => is_Some (synths (audioEngine w2) !! scanKey 0 i)) [0; 1; 2; 3; 4]%nat
  /\ liveVoices w3 = 10%nat
  /\ Forall (fun i => is_Some (synths (audioEngine w3) !! scanKey 0 i)
                      /\ is_Some (synths (audioEngine w3) !! scanKey 1 i))
            [0; 1; 2; 3; 4]%nat
  /\ scanColumn (controller w4) = 1
  /\ synth_hsv <$> synths (audioEngine w4) !! scanKey 1 1
     = Some (ImageProcessor.hsv (demoCell 100 0 1))
  /\ ImageProcessor.hsv (demoCell 100 0 1) <> ImageProcessor.hsv (demoCell 100 1 1).
Proof.
  repeat split; try (vm_compute; reflexivity).
  - repeat constructor; vm_compute; eauto.
  - repeat constructor; vm_compute; eauto.
  - vm_compute. discriminate.
Qed.

End ScanMode.

(** ** Hue to frequency *)

Section Frequency.
Import JS HsvMapper.

Lemma Qfloor_bounds (x : Q) (n : Z) :
  (0 <= x)%Q -> (x < inject_Z n)%Q -> 0 <= Qfloor x < n.
Proof.
  intros H0 Hn. split.
  - apply (Qfloor_resp_le 0 x H0).
  - rewrite Zlt_Qlt. eapply Qle_lt_trans; [apply Qfloor_le | exact Hn].
Qed.

Lemma configured_new : configured new.
Proof.
  repeat split; simpl; try (vm_compute; congruence).
  vm_compute. eauto.
Qed.

Lemma Qle_bool_false (a b : Q) : Qle_bool a b = false -> (b < a)%Q.
Proof.
  intros H. apply Qnot_le_lt. intros Hc. apply Qle_bool_iff in Hc. congruence.
Qed.



Lemma configured_setScale scaleName m :
  configured m -> configured (setScale scaleName m).
Proof.
  intros (Hs & Hc & Hr & Hb). unfold setScale.
  destruct (musicalScales m !! scaleName) eqn:Hl.
  - split; [exact Hs |]. split; [| split; [exact Hr | exact Hb]].
    simpl. rewrite <- Hs, Hl. eauto.
  - split; [exact Hs |]. split; [exact Hc |]. split; [exact Hr | exact Hb].
Qed.

(** Every scale of the table is a non-empty array. *)
Lemma scaleTable_nonempty name scale :
  scaleTable !! name = Some scale -> (0 < length scale)%nat.
Proof.
  unfold scaleTable. intros H.
  repeat (apply lookup_insert_Some in H as [[_ <-] | [_ H]]; [simpl; lia |]).
  rewrite lookup_empty in H. discriminate.
Qed.

(** The scale degree is a semitone of the active scale and the octave is
    0, 1 or 2. *)
Lemma semitoneOf_in_scale m hue :
  configured m -> (0 <= hue)%Q -> (hue < 360)%Q ->
  exists scale semitone,
    musicalScales m !! currentScale m = Some scale
    /\ semitoneOf m hue = Some semitone
    /\ In semitone scale.
Proof.
  intros (Hs & [scale Hc] & _) H0 H360.
  exists scale. unfold semitoneOf. rewrite Hs, Hc.
  pose proof (scaleTable_nonempty _ _ Hc) as Hlen.
  cbv zeta. remember (Z.of_nat (length scale)) as len eqn:Hlen'.
  assert (Hidx : 0 <= Math_floor (hue / 360 * inject_Z len) < len).
  { apply Qfloor_bounds.
    - apply Qmult_le_0_compat;
        [| change 0%Q with (inject_Z 0); rewrite <- Zle_Qle; lia].
      apply Qle_shift_div_l; [reflexivity | lra].
    - assert (Hl : (0 < inject_Z len)%Q)
        by (change 0%Q with (inject_Z 0); rewrite <- Zlt_Qlt; lia).
      assert (Hh : (hue / 360 < 1)%Q) by (apply Qlt_shift_div_r; [reflexivity | lra]).
      pose proof (Qmult_lt_compat_r _ _ _ Hl Hh) as Hm. lra. }
  rewrite Z.rem_small by exact Hidx.
  unfold array_get.
  destruct (Z.ltb_spec (Math_floor (hue / 360 * inject_Z len)) 0) as [Hneg |]; [lia |].
  destruct (nth_error scale (Z.to_nat (Math_floor (hue / 360 * inject_Z len))))
    as [semitone |] eqn:Hnth.
  - exists semitone. repeat split. eapply nth_error_In. exact Hnth.
  - apply nth_error_None in Hnth. lia.
Qed.



Lemma Q2R_inject_Z (z : Z) : Q2R (inject_Z z) = IZR z.
Proof. unfold Q2R. simpl. rewrite Rinv_1. ring. Qed.






Lemma clamp_cases (p : R) :
  let f := Rmax 200 (Rmin 2000 p) in
  (200 <= f <= 2000)%R
  /\ ((200 <= p <= 2000)%R -> f = p)
  /\ ((p < 200)%R -> f = 200%R)
  /\ ((2000 < p)%R -> f = 2000%R).
Proof.
  simpl. unfold Rmax, Rmin.
  destruct (Rle_dec 2000 p); destruct (Rle_dec 200 _); repeat split; intros; lra.
Qed.

Lemma mapHueToFrequency_defined (m : t) (hue : Q) :
  configured m -> (0 <= hue)%Q -> (hue < 360)%Q ->
  exists f, mapHueToFrequency m hue = Some f /\ (200 <= f <= 2000)%R.
Proof.
  intros Hm H0 H360.
  destruct (semitoneOf_in_scale m hue Hm H0 H360) as (scale & semitone & _ & Hsem & _).
  destruct Hm as (_ & _ & Hwin & _).
  unfold mapHueToFrequency. rewrite Hsem, Hwin. simpl range_min. simpl range_max.
  change 200%Q with (inject_Z 200). change 2000%Q with (inject_Z 2000).
  rewrite !Q2R_inject_Z.
  eexists. split; [reflexivity |]. apply clamp_cases.
Qed.




(** C10, as stated, fails: at hue 0 the engine synthesizes 200 Hz and the
    mapper gives 220 Hz. *)
Lemma engine_frequency_differs_from_mapper :
  Q2R (AudioEngine.hsvToFrequency 0) = 200%R
  /\ mapHueToFrequency new 0 = Some 220%R
  /\ mapHueToFrequency new 0 <> Some (Q2R (AudioEngine.hsvToFrequency 0)).
Proof.
  assert (H1 : Q2R (AudioEngine.hsvToFrequency 0) = 200%R).
  { rewrite (Qeq_eqR (AudioEngine.hsvToFrequency 0) (inject_Z 200)) by reflexivity.
    apply Q2R_inject_Z. }
  assert (H2 : mapHueToFrequency new 0 = Some 220%R).
  { unfold mapHueToFrequency.
    change (semitoneOf new 0) with (Some 0). change (octaveOf 0) with 0.
    unfold pitch. simpl baseFrequency. simpl frequencyRange.
    simpl range_min. simpl range_max.
    change 200%Q with (inject_Z 200). change 2000%Q with (inject_Z 2000).
    change 220%Q with (inject_Z 220).
    rewrite !Q2R_inject_Z.
    change (IZR (0 * 12 + 0)) with 0%R. replace (0 / 12)%R with 0%R by lra.
    rewrite Rpower_O by lra.
    f_equal. replace 220%R with (220 * 1)%R at 2 by lra.
    apply (clamp_cases (220 * 1)). lra. }
  split; [exact H1 |]. split; [exact H2 |].
  rewrite H1, H2. intros Heq. injection Heq. lra.
Qed.

(** C10, amended.  The engine does not use the mapper: the frequency it
    stores for a voice and synthesizes is the linear interpolation
    [200 + hue / 360 * 1800].  For every hue in [0, 360) it lies in the same
    window 200-2000 Hz as the mapper's scale-quantized frequency, but the
    two are different functions of the hue. *)
Theorem engine_frequency_is_linear (h : Q) (w : World) (hsv : HSV) (id : Key) :
  (0 <= h)%Q -> (h < 360)%Q ->
  (AudioEngine.hsvToFrequency h == 200 + 5 * h)%Q
  /\ (200 <= AudioEngine.hsvToFrequency h)%Q
  /\ (AudioEngine.hsvToFrequency h < 2000)%Q
  /\ (exists f, mapHueToFrequency new h = Some f /\ (200 <= f <= 2000)%R)
  /\ (isInitialized (audioEngine w) = true -> is_Some (reverb (audioEngine w)) ->
      exists synth w',
        AudioEngine.createSynth hsv id w = Ok (Some synth) w'
        /\ frequency <$> synths (audioEngine w') !! id
           = Some (AudioEngine.hsvToFrequency (hue hsv))).
Proof.
  intros H0 H360.
  assert (Hlin : (AudioEngine.hsvToFrequency h == 200 + 5 * h)%Q)
    by (unfold AudioEngine.hsvToFrequency; field).
  split; [exact Hlin |]. split; [lra |]. split; [lra |]. split.
  - apply mapHueToFrequency_defined; [apply configured_new | assumption ..].
  - intros Hinit [rev Hrev].
    unfold AudioEngine.createSynth, bind, get, ret. rewrite Hinit. simpl.
    rewrite Hrev. simpl. eexists. eexists. split; [reflexivity |].
    simpl. rewrite lookup_insert_eq. reflexivity.
Qed.

Lemma engine_frequency_is_linear_witness :
  (AudioEngine.hsvToFrequency 180 == 200 + 5 * 180)%Q
  /\ (200 <= AudioEngine.hsvToFrequency 180)%Q
  /\ (AudioEngine.hsvToFrequency 180 < 2000)%Q
  /\ (exists f, mapHueToFrequency new 180 = Some f /\ (200 <= f <= 2000)%R)
  /\ (isInitialized (audioEngine (initialized 50)) = true ->
      is_Some (reverb (audioEngine (initialized 50))) ->
      exists synth w',
        AudioEngine.createSynth demoHsv (KNum 0) (initialized 50) = Ok (Some synth) w'
        /\ frequency <$> synths (audioEngine w') !! KNum 0
           = Some (AudioEngine.hsvToFrequency (hue demoHsv))).
Proof.
  apply (engine_frequency_is_linear 180 (initialized 50) demoHsv (KNum 0)).
  - unfold Qle; simpl; lia.
  - unfold Qlt; simpl; lia.
Defined.

End Frequency.

(** ** The pixel grid *)

Section Grid.
Import JS ImageProcessor.

(** *** Loops *)

Lemma for_range_span {A} (lo hi : Z) (body : Z -> A -> A) (init : A) :
  for_range lo hi body init = fold_left (fun acc x => body x acc) (span lo hi) init.
Proof.
  unfold for_range, span. generalize (seq 0 (Z.to_nat (hi - lo))). intros l.
  revert init. induction l as [| i l IH]; intros init; simpl; [reflexivity | apply IH].
Qed.

Lemma span_bounds (lo hi x : Z) : In x (span lo hi) <-> lo <= x < hi.
Proof.
  unfold span. rewrite in_map_iff. split.
  - intros (i & <- & Hi). apply in_seq in Hi. lia.
  - intros Hx. exists (Z.to_nat (x - lo)). split; [lia |]. apply in_seq. lia.
Qed.

Lemma span_succ (lo hi : Z) : lo <= hi -> span lo (hi + 1) = span lo hi ++ [hi].
Proof.
  intros Hle. unfold span.
  replace (Z.to_nat (hi + 1 - lo)) with (S (Z.to_nat (hi - lo))) by lia.
  rewrite seq_S, map_app. simpl. do 3 f_equal. lia.
Qed.

(** The invariant rule of a counting loop. *)
Lemma for_range_invariant {A} (P : Z -> A -> Prop) (lo hi : Z) (body : Z -> A -> A)
    (init : A) :
  lo <= hi ->
  P lo init ->
  (forall i a, lo <= i < hi -> P i a -> P (i + 1) (body i a)) ->
  P hi (for_range lo hi body init).
Proof.
  intros Hle Hinit Hstep. rewrite for_range_span.
  assert (Hgen : forall n : nat, lo + Z.of_nat n <= hi ->
            P (lo + Z.of_nat n)
              (fold_left (fun acc x => body x acc) (span lo (lo + Z.of_nat n)) init)).
  { induction n as [| n IH]; intros Hn.
    - unfold span. replace (Z.to_nat (lo + Z.of_nat 0 - lo)) with 0%nat by lia.
      simpl. replace (lo + Z.of_nat 0) with lo by lia. exact Hinit.
    - replace (lo + Z.of_nat (S n)) with (lo + Z.of_nat n + 1) by lia.
      rewrite span_succ by lia. rewrite fold_left_app. simpl.
      apply Hstep; [lia | apply IH; lia]. }
  specialize (Hgen (Z.to_nat (hi - lo))).
  replace (lo + Z.of_nat (Z.to_nat (hi - lo))) with hi in Hgen by lia.
  apply Hgen. lia.
Qed.

Lemma for_range_preserves {A} (P : A -> Prop) (lo hi : Z) (body : Z -> A -> A) (init : A) :
  P init -> (forall i a, P a -> P (body i a)) -> P (for_range lo hi body init).
Proof.
  intros Hinit Hstep. rewrite for_range_span. generalize (span lo hi). intros l.
  revert init Hinit. induction l as [| x l IH]; intros init Hinit; simpl; auto.
Qed.

(** *** Reading the image data *)

Lemma getImageData_pixel (c : Canvas) (x y : Z) :
  0 <= x < width c ->
  getImageData c ((y * width c + x) * 4) = red (bitmap c x y)
  /\ getImageData c ((y * width c + x) * 4 + 1) = green (bitmap c x y)
  /\ getImageData c ((y * width c + x) * 4 + 2) = blue (bitmap c x y).
Proof.
  intros Hx. unfold getImageData. cbv zeta.
  assert (Hmod : (y * width c + x) mod width c = x)
    by (rewrite Z.add_comm, Z.mod_add by lia; apply Z.mod_small; lia).
  assert (Hdiv : (y * width c + x) / width c = y)
    by (rewrite Z.add_comm, Z.div_add by lia; rewrite Z.div_small by lia; lia).
  repeat split.
  - rewrite Z.div_mul, Z.mod_mul by lia. rewrite Hmod, Hdiv. reflexivity.
  - rewrite (Z.add_comm _ 1), Z.div_add, Z.mod_add by lia.
    change (1 / 4) with 0. change (1 mod 4) with 1. rewrite Z.add_0_l, Hmod, Hdiv.
    reflexivity.
  - rewrite (Z.add_comm _ 2), Z.div_add, Z.mod_add by lia.
    change (2 / 4) with 0. change (2 mod 4) with 2. rewrite Z.add_0_l, Hmod, Hdiv.
    reflexivity.
Qed.

(** *** The average colour is the rounded mean of the block *)

Lemma fold_addPixel (pixels : list RGB) (r g b count : Z) :
  fold_left addPixel pixels (r, g, b, count)
  = (r + total (map red pixels), g + total (map green pixels),
     b + total (map blue pixels), count + Z.of_nat (length pixels)).
Proof.
  revert r g b count. induction pixels as [| p pixels IH]; intros r g b count.
  - unfold total. simpl.
    repeat match goal with |- (_, _) = (_, _) => f_equal end; lia.
  - cbn [fold_left addPixel]. rewrite IH. unfold total. cbn [map fold_right length].
    repeat match goal with |- (_, _) = (_, _) => f_equal end; lia.
Qed.

Lemma calculateAverageColor_mean (c : Canvas) (startX startY cellSize : Z) :
  0 <= startX ->
  calculateAverageColor (getImageData c) (width c) (height c) startX startY cellSize
  = meanColor (cellPixels c startX startY cellSize).
Proof.
  intros Hx. unfold calculateAverageColor, cellPixels.
  set (endX := Z.min (startX + cellSize) (width c)).
  set (endY := Z.min (startY + cellSize) (height c)).
  assert (Hrow : forall y acc,
    for_range startX endX (fun x '(r, g, b, count) =>
      let index := (y * width c + x) * 4 in
      (r + getImageData c index, g + getImageData c (index + 1),
       b + getImageData c (index + 2), count + 1)) acc
    = fold_left addPixel (map (fun x => bitmap c x y) (span startX endX)) acc).
  { intros y acc. rewrite for_range_span.
    assert (Hin : forall x, In x (span startX endX) -> 0 <= x < width c)
      by (intros x Hin; apply span_bounds in Hin; lia).
    revert acc Hin. generalize (span startX endX). intros xs.
    induction xs as [| x xs IH]; intros acc Hin; [reflexivity |].
    cbn [fold_left map]. rewrite <- IH by (intros; apply Hin; right; assumption).
    f_equal. destruct acc as [[[r g] b] count]. cbn [addPixel].
    destruct (getImageData_pixel c x y (Hin x (or_introl eq_refl))) as (-> & -> & ->).
    reflexivity. }
  assert (Hall : forall acc,
    for_range startY endY (fun y =>
      for_range startX endX (fun x '(r, g, b, count) =>
        let index := (y * width c + x) * 4 in
        (r + getImageData c index, g + getImageData c (index + 1),
         b + getImageData c (index + 2), count + 1))) acc
    = fold_left addPixel
        (flat_map (fun y => map (fun x => bitmap c x y) (span startX endX))
                  (span startY endY)) acc).
  { intros acc. rewrite for_range_span. revert acc.
    generalize (span startY endY). intros ys.
    induction ys as [| y ys IH]; intros acc; [reflexivity |].
    cbn [fold_left flat_map]. rewrite fold_left_app, Hrow. apply IH. }
  rewrite Hall, fold_addPixel. unfold meanColor, mean.
  rewrite !Z.add_0_l, !length_map. reflexivity.
Qed.

(** *** Filling the cells *)

Lemma fillGridCell_interior blend pixelSize gx gy color c px py :
  interior pixelSize gx gy px py ->
  bitmap (fillGridCell blend pixelSize gx gy color c) px py = color.
Proof.
  intros [Hx Hy]. unfold fillGridCell, strokeRect, fillRect. cbn [bitmap].
  destruct (onStroke _ _ _ _ px py) eqn:Hstroke; [unfold onStroke in Hstroke; lia |].
  destruct (inRect _ _ _ _ px py) eqn:Hin; [reflexivity | unfold inRect in Hin; lia].
Qed.

Lemma fillGridCell_outside blend pixelSize gx gy color c px py :
  0 < pixelSize ->
  px < gx * pixelSize - 1 \/ gx * pixelSize + pixelSize < px
  \/ py < gy * pixelSize - 1 \/ gy * pixelSize + pixelSize < py ->
  bitmap (fillGridCell blend pixelSize gx gy color c) px py = bitmap c px py.
Proof.
  intros Hs Hout. unfold fillGridCell, strokeRect, fillRect. cbn [bitmap].
  destruct (onStroke _ _ _ _ px py) eqn:Hstroke; [unfold onStroke in Hstroke; lia |].
  destruct (inRect _ _ _ _ px py) eqn:Hin; [unfold inRect in Hin; lia | reflexivity].
Qed.

Lemma fillGridCell_size blend pixelSize gx gy color c :
  width (fillGridCell blend pixelSize gx gy color c) = width c
  /\ height (fillGridCell blend pixelSize gx gy color c) = height c.
Proof. split; reflexivity. Qed.

(** The interior of a cell is out of reach of the fill and of the outline
    of every other cell. *)
Lemma interior_is_outside pixelSize a b gx gy px py :
  0 < pixelSize -> (a, b) <> (gx, gy) -> interior pixelSize a b px py ->
  px < gx * pixelSize - 1 \/ gx * pixelSize + pixelSize < px
  \/ py < gy * pixelSize - 1 \/ gy * pixelSize + pixelSize < py.
Proof.
  intros Hs Hne [Hx Hy].
  destruct (Z.eq_dec a gx) as [-> | Ha]; [destruct (Z.eq_dec b gy) as [-> | Hb] |].
  - congruence.
  - right. right. nia.
  - nia.
Qed.

Lemma applyPixelation_size blend pixelSize c :
  width (applyPixelation blend pixelSize c) = width c
  /\ height (applyPixelation blend pixelSize c) = height c.
Proof.
  unfold applyPixelation.
  apply (for_range_preserves (fun ctx => width ctx = width c /\ height ctx = height c));
    [split; reflexivity |].
  intros gy ctx Hctx.
  apply (for_range_preserves (fun ctx => width ctx = width c /\ height ctx = height c));
    [exact Hctx |].
  intros gx ctx' Hctx'. exact Hctx'.
Qed.

(** After the pixelation the interior of every cell of the grid shows the
    average colour that was computed for the cell from the snapshot. *)
Lemma applyPixelation_interior blend pixelSize c gx gy px py :
  0 < pixelSize ->
  0 <= gx < Math_ceil (inject_Z (width c) / inject_Z pixelSize) ->
  0 <= gy < Math_ceil (inject_Z (height c) / inject_Z pixelSize) ->
  interior pixelSize gx gy px py ->
  bitmap (applyPixelation blend pixelSize c) px py
  = calculateAverageColor (getImageData c) (width c) (height c)
      (gx * pixelSize) (gy * pixelSize) pixelSize.
Proof.
  intros Hs Hgx Hgy Hint. unfold applyPixelation.
  set (gridWidth := Math_ceil (inject_Z (width c) / inject_Z pixelSize)) in *.
  set (gridHeight := Math_ceil (inject_Z (height c) / inject_Z pixelSize)) in *.
  set (avg := fun a b => calculateAverageColor (getImageData c) (width c) (height c)
                           (a * pixelSize) (b * pixelSize) pixelSize).
  change (calculateAverageColor _ _ _ (gx * pixelSize) _ _) with (avg gx gy).
  revert gx gy px py Hgx Hgy Hint.
  pose (P := fun (j : Z) (ctx : Canvas) =>
    forall a b px py, 0 <= a < gridWidth -> 0 <= b < j ->
      interior pixelSize a b px py -> bitmap ctx px py = avg a b).
  assert (Houter :
    P gridHeight
      (for_range 0 gridHeight (fun gridY =>
         for_range 0 gridWidth (fun gridX ctx =>
           fillGridCell blend pixelSize gridX gridY (avg gridX gridY) ctx)) c)).
  { destruct (Z_lt_le_dec gridHeight 0) as [Hneg | Hpos].
    { intros a b px py _ Hb. lia. }
    apply (for_range_invariant P); [exact Hpos | intros a b px py _ Hb; lia |].
    intros j ctx Hj Hctx.
    destruct (Z_lt_le_dec gridWidth 0) as [Hnegw | Hposw].
    { intros a b px py Ha. lia. }
    pose (Q := fun (i : Z) (ctx' : Canvas) =>
      forall a b px py, 0 <= a < gridWidth ->
        (0 <= b < j \/ (b = j /\ 0 <= a < i)) ->
        interior pixelSize a b px py -> bitmap ctx' px py = avg a b).
    assert (Hinner :
      Q gridWidth
        (for_range 0 gridWidth (fun gridX ctx' =>
           fillGridCell blend pixelSize gridX j (avg gridX j) ctx') ctx)).
    { apply (for_range_invariant Q); [exact Hposw | |].
      - intros a b px py Ha [Hb | [_ Hi]] Hin; [| lia]. apply Hctx; assumption.
      - intros i ctx' Hi Hctx' a b px py Ha Hb Hin.
        destruct (decide ((a, b) = (i, j))) as [Heq | Hne].
        + injection Heq as -> ->. apply fillGridCell_interior. exact Hin.
        + rewrite fillGridCell_outside
            by (try exact Hs; eapply interior_is_outside; eassumption).
          apply Hctx'; [exact Ha | | exact Hin].
          destruct Hb as [Hb | [-> Hb]]; [left; exact Hb |].
          right. split; [reflexivity |].
          assert (a <> i) by congruence. lia. }
    intros a b px py Ha Hb Hin. apply Hinner; [exact Ha | | exact Hin].
    destruct (Z.eq_dec b j) as [-> | Hbj]; [right; split; [reflexivity | exact Ha] |].
    left. lia. }
  intros gx gy px py Hgx Hgy Hint. apply Houter; assumption.
Qed.

(** *** Integer division through the rationals *)

Lemma Math_floor_Zdiv (n d : Z) : Math_floor (inject_Z n / inject_Z d) = n / d.
Proof. symmetry. apply Zdiv_Qdiv. Qed.

Lemma Math_ceil_Zdiv (n d : Z) : Math_ceil (inject_Z n / inject_Z d) = - ((- n) / d).
Proof.
  unfold Math_ceil, Qceiling. f_equal.
  rewrite <- Math_floor_Zdiv. unfold Math_floor. apply Qfloor_comp.
  rewrite inject_Z_opp. unfold Qdiv. ring.
Qed.

Lemma Math_ceil_lt (n d g : Z) :
  0 < d -> (g < Math_ceil (inject_Z n / inject_Z d) <-> g * d < n).
Proof.
  intros Hd. rewrite Math_ceil_Zdiv.
  pose proof (Z.div_mod (- n) d ltac:(lia)) as Hdm.
  pose proof (Z.mod_pos_bound (- n) d Hd) as Hmod.
  split; intros H; nia.
Qed.

Lemma Math_ceil_pos (n d : Z) : 0 < d -> 0 < n -> 0 < Math_ceil (inject_Z n / inject_Z d).
Proof. intros Hd Hn. apply Math_ceil_lt; lia. Qed.

Lemma floor_div_bounds (x : Q) (d : Z) :
  0 < d ->
  (inject_Z (Math_floor (x / inject_Z d) * d) <= x)%Q
  /\ (x < inject_Z (Math_floor (x / inject_Z d) * d + d))%Q.
Proof.
  intros Hd.
  assert (Hq : (0 < inject_Z d)%Q) by (change 0%Q with (inject_Z 0); rewrite <- Zlt_Qlt; lia).
  assert (Hx : (x / inject_Z d * inject_Z d == x)%Q) by (field; lra).
  pose proof (Qfloor_le (x / inject_Z d)) as Hlo.
  pose proof (Qlt_floor (x / inject_Z d)) as Hhi.
  unfold Math_floor. rewrite inject_Z_plus, !inject_Z_mult.
  rewrite inject_Z_plus in Hhi. change (inject_Z 1) with 1%Q in Hhi.
  split; nra.
Qed.

Lemma floor_div_unique (x : Q) (d g : Z) :
  0 < d -> (inject_Z (g * d) <= x)%Q -> (x < inject_Z (g * d + d))%Q ->
  Math_floor (x / inject_Z d) = g.
Proof.
  intros Hd Hlo Hhi. destruct (floor_div_bounds x d Hd) as [Hlo' Hhi'].
  assert (H1 : g * d < Math_floor (x / inject_Z d) * d + d)
    by (rewrite Zlt_Qlt; eapply Qle_lt_trans; eassumption).
  assert (H2 : Math_floor (x / inject_Z d) * d < g * d + d)
    by (rewrite Zlt_Qlt; eapply Qle_lt_trans; eassumption).
  nia.
Qed.

(** *** The cells of the grid *)

Lemma range_length (n : Z) : length (range n) = Z.to_nat n.
Proof. unfold range. rewrite length_map, length_seq. reflexivity. Qed.

Lemma range_nth (n i : Z) : 0 <= i < n -> nth_error (range n) (Z.to_nat i) = Some i.
Proof.
  intros Hi. unfold range. rewrite nth_error_map, nth_error_seq.
  destruct (Nat.ltb_spec (Z.to_nat i) (Z.to_nat n)) as [_ | Hge]; [| lia].
  simpl. f_equal. lia.
Qed.

Lemma range_In (n i : Z) : In i (range n) <-> 0 <= i < n.
Proof.
  unfold range. rewrite in_map_iff. split.
  - intros (k & <- & Hk). apply in_seq in Hk. lia.
  - intros Hi. exists (Z.to_nat i). split; [lia | apply in_seq; lia].
Qed.

Lemma extractPixelData_length pixelSize c :
  length (extractPixelData pixelSize c)
  = Z.to_nat (Math_ceil (inject_Z (height c) / inject_Z pixelSize)).
Proof. unfold extractPixelData. rewrite length_map. apply range_length. Qed.

Lemma extractPixelData_rows pixelSize c :
  Forall (fun row => length row
                     = Z.to_nat (Math_ceil (inject_Z (width c) / inject_Z pixelSize)))
         (extractPixelData pixelSize c).
Proof.
  unfold extractPixelData. apply List.Forall_forall. intros row Hrow.
  apply in_map_iff in Hrow as (gy & <- & _). rewrite length_map. apply range_length.
Qed.

Lemma extractPixelData_nth pixelSize c gx gy :
  0 <= gx < Math_ceil (inject_Z (width c) / inject_Z pixelSize) ->
  0 <= gy < Math_ceil (inject_Z (height c) / inject_Z pixelSize) ->
  exists row,
    nth_error (extractPixelData pixelSize c) (Z.to_nat gy) = Some row
    /\ length row = Z.to_nat (Math_ceil (inject_Z (width c) / inject_Z pixelSize))
    /\ nth_error row (Z.to_nat gx)
       = Some (extractCell (getImageData c) (width c) (height c) pixelSize gx gy).
Proof.
  intros Hgx Hgy. unfold extractPixelData.
  rewrite nth_error_map, (range_nth _ gy Hgy). simpl. eexists. split; [reflexivity |].
  split; [rewrite length_map; apply range_length |].
  rewrite nth_error_map, (range_nth _ gx Hgx). reflexivity.
Qed.

Lemma extractPixelData_In pixelSize c row cell :
  In row (extractPixelData pixelSize c) -> In cell row ->
  exists gx gy,
    0 <= gx < Math_ceil (inject_Z (width c) / inject_Z pixelSize)
    /\ 0 <= gy < Math_ceil (inject_Z (height c) / inject_Z pixelSize)
    /\ cell = extractCell (getImageData c) (width c) (height c) pixelSize gx gy.
Proof.
  unfold extractPixelData. intros Hrow Hcell.
  apply in_map_iff in Hrow as (gy & <- & Hgy).
  apply in_map_iff in Hcell as (gx & <- & Hgx).
  apply range_In in Hgx, Hgy. exists gx, gy. repeat split; lia.
Qed.

(** The colour a cell reports is the pixel at its centre. *)
Lemma extractCell_rgb c pixelSize gx gy :
  0 < width c -> 0 <= gx * pixelSize + pixelSize / 2 ->
  rgb (extractCell (getImageData c) (width c) (height c) pixelSize gx gy)
  = bitmap c (Z.min (gx * pixelSize + pixelSize / 2) (width c - 1))
             (Z.min (gy * pixelSize + pixelSize / 2) (height c - 1)).
Proof.
  intros Hw Hx. unfold extractCell. cbn [rgb].
  change (inject_Z pixelSize / 2)%Q with (inject_Z pixelSize / inject_Z 2)%Q.
  rewrite Math_floor_Zdiv.
  set (cx := Z.min (gx * pixelSize + pixelSize / 2) (width c - 1)).
  set (cy := Z.min (gy * pixelSize + pixelSize / 2) (height c - 1)).
  destruct (getImageData_pixel c cx cy) as (-> & -> & ->); [unfold cx; lia |].
  destruct (bitmap c cx cy); reflexivity.
Qed.

(** No cell of a grid of cell size 10 to 100 starts on the last pixel column
    or row of the 600 by 500 canvas: 599 and 499 are primes. *)
Lemma no_cell_on_last_pixel (pixelSize g : Z) :
  10 <= pixelSize <= 100 -> g * pixelSize <> 599 /\ g * pixelSize <> 499.
Proof.
  intros Hs.
  assert (Hall : forallb (fun d => negb (599 mod d =? 0) && negb (499 mod d =? 0))
                         (span 10 101) = true) by (vm_compute; reflexivity).
  rewrite forallb_forall in Hall.
  specialize (Hall pixelSize ltac:(apply span_bounds; lia)).
  split; intros Heq; rewrite <- Heq, Z.mod_mul in Hall by lia;
    rewrite ?andb_false_r in Hall; discriminate.
Qed.

Lemma center_is_interior (pixelSize gx gy : Z) :
  10 <= pixelSize <= 100 ->
  0 <= gx -> gx * pixelSize < canvasWidth ->
  0 <= gy -> gy * pixelSize < canvasHeight ->
  interior pixelSize gx gy
    (Z.min (gx * pixelSize + pixelSize / 2) (canvasWidth - 1))
    (Z.min (gy * pixelSize + pixelSize / 2) (canvasHeight - 1)).
Proof.
  intros Hs Hgx Hx Hgy Hy. unfold canvasWidth, canvasHeight in *.
  destruct (no_cell_on_last_pixel pixelSize gx Hs) as [Hx' _].
  destruct (no_cell_on_last_pixel pixelSize gy Hs) as [_ Hy'].
  pose proof (Z.div_mod pixelSize 2 ltac:(lia)) as Hdm.
  pose proof (Z.mod_pos_bound pixelSize 2 ltac:(lia)) as Hmod.
  unfold interior. lia.
Qed.

(** *** The processed image *)

Lemma drawn_size resample img :
  width (drawn resample img) = canvasWidth /\ height (drawn resample img) = canvasHeight.
Proof. unfold drawn. destruct (layout img) as [[[? ?] ?] ?]. split; reflexivity. Qed.

Lemma processImage_result resample blend ip img c0 :
  originalImage ip = Some img -> canvas ip = Some c0 ->
  pixelData (processImage resample blend ip)
  = extractPixelData (pixelSize ip)
      (applyPixelation blend (pixelSize ip) (drawn resample img))
  /\ pixelSize (processImage resample blend ip) = pixelSize ip.
Proof.
  intros Himg Hc. unfold processImage. rewrite Himg, Hc.
  destruct (layout img) as [[[? ?] ?] ?]. split; reflexivity.
Qed.

(** The cell at grid position [(gx, gy)] of a processed image. *)
Lemma processed_cell resample blend ip img c0 gx gy :
  originalImage ip = Some img -> canvas ip = Some c0 ->
  10 <= pixelSize ip <= 100 ->
  0 <= gx < Math_ceil (inject_Z canvasWidth / inject_Z (pixelSize ip)) ->
  0 <= gy < Math_ceil (inject_Z canvasHeight / inject_Z (pixelSize ip)) ->
  exists row cell,
    nth_error (pixelData (processImage resample blend ip)) (Z.to_nat gy) = Some row
    /\ length row = Z.to_nat (Math_ceil (inject_Z canvasWidth / inject_Z (pixelSize ip)))
    /\ nth_error row (Z.to_nat gx) = Some cell
    /\ gridX cell = gx /\ gridY cell = gy
    /\ pixelX cell = gx * pixelSize ip /\ pixelY cell = gy * pixelSize ip
    /\ rgb cell = meanColor (cellPixels (drawn resample img)
                               (gx * pixelSize ip) (gy * pixelSize ip) (pixelSize ip))
    /\ hsv cell = rgbToHsv (red (rgb cell)) (green (rgb cell)) (blue (rgb cell)).
Proof.
  intros Himg Hc Hs Hgx Hgy.
  destruct (processImage_result resample blend ip img c0 Himg Hc) as [-> _].
  set (s := pixelSize ip) in *.
  set (c := drawn resample img).
  destruct (drawn_size resample img) as [Hw Hh]. fold c in Hw, Hh.
  destruct (applyPixelation_size blend s c) as [Hw' Hh'].
  destruct (extractPixelData_nth s (applyPixelation blend s c) gx gy)
    as (row & Hrow & Hlen & Hcell); [rewrite Hw', Hw; exact Hgx | rewrite Hh', Hh; exact Hgy |].
  exists row. eexists. split; [exact Hrow |]. split; [rewrite Hlen, Hw', Hw; reflexivity |].
  split; [exact Hcell |]. repeat split.
  assert (Hhalf : 0 <= s / 2) by (apply Z.div_pos; lia).
  rewrite extractCell_rgb; [| rewrite Hw', Hw; unfold canvasWidth; lia | nia].
  rewrite Hw', Hh', Hw, Hh.
  assert (Hx : gx * s < canvasWidth) by (apply (Math_ceil_lt canvasWidth s gx); lia).
  assert (Hy : gy * s < canvasHeight) by (apply (Math_ceil_lt canvasHeight s gy); lia).
  rewrite (applyPixelation_interior blend s c gx gy);
    [| lia | rewrite Hw; exact Hgx | rewrite Hh; exact Hgy
     | apply center_is_interior; lia].
  rewrite Hw, Hh. rewrite <- Hw at 1. rewrite <- Hh at 1.
  apply calculateAverageColor_mean. nia.
Qed.

Lemma getPixelAt_nth ip x y row cell :
  0 <= Math_floor (x / inject_Z (pixelSize ip)) ->
  0 <= Math_floor (y / inject_Z (pixelSize ip)) ->
  nth_error (pixelData ip) (Z.to_nat (Math_floor (y / inject_Z (pixelSize ip)))) = Some row ->
  nth_error row (Z.to_nat (Math_floor (x / inject_Z (pixelSize ip)))) = Some cell ->
  getPixelAt x y ip = Some cell.
Proof.
  intros Hgx Hgy Hrow Hcell. unfold getPixelAt.
  assert (Hlen : (Z.to_nat (Math_floor (y / inject_Z (pixelSize ip)))
                  < length (pixelData ip))%nat)
    by (apply nth_error_Some; rewrite Hrow; discriminate).
  assert (Hlen' : (Z.to_nat (Math_floor (x / inject_Z (pixelSize ip))) < length row)%nat)
    by (apply nth_error_Some; rewrite Hcell; discriminate).
  destruct (Nat.eqb_spec (length (pixelData ip)) 0) as [H0 | _]; [lia |].
  cbv zeta.
  assert (Hb1 : (0 <=? Math_floor (y / inject_Z (pixelSize ip)))
                && (Math_floor (y / inject_Z (pixelSize ip))
                    <? Z.of_nat (length (pixelData ip))) = true) by lia.
  assert (Hb2 : (0 <=? Math_floor (x / inject_Z (pixelSize ip)))
                && (Math_floor (x / inject_Z (pixelSize ip))
                    <? Z.of_nat (length row)) = true) by lia.
  rewrite Hb1, Hrow, Hb2. exact Hcell.
Qed.

(** The cell under an in-bounds canvas coordinate. *)
Lemma getPixelAt_processed resample blend ip img c0 (x y : Q) :
  originalImage ip = Some img -> canvas ip = Some c0 -> 0 < pixelSize ip ->
  (0 <= x)%Q -> (x < inject_Z canvasWidth)%Q ->
  (0 <= y)%Q -> (y < inject_Z canvasHeight)%Q ->
  let gx := Math_floor (x / inject_Z (pixelSize ip)) in
  let gy := Math_floor (y / inject_Z (pixelSize ip)) in
  0 <= gx < Math_ceil (inject_Z canvasWidth / inject_Z (pixelSize ip))
  /\ 0 <= gy < Math_ceil (inject_Z canvasHeight / inject_Z (pixelSize ip))
  /\ exists row cell,
       nth_error (pixelData (processImage resample blend ip)) (Z.to_nat gy) = Some row
       /\ nth_error row (Z.to_nat gx) = Some cell
       /\ getPixelAt x y (processImage resample blend ip) = Some cell
       /\ gridX cell = gx /\ gridY cell = gy
       /\ pixelX cell = gx * pixelSize ip /\ pixelY cell = gy * pixelSize ip.
Proof.
  intros Himg Hc Hs Hx0 Hx1 Hy0 Hy1 gx gy.
  destruct (floor_div_bounds x (pixelSize ip) Hs) as [Hxlo Hxhi].
  destruct (floor_div_bounds y (pixelSize ip) Hs) as [Hylo Hyhi].
  fold gx in Hxlo, Hxhi. fold gy in Hylo, Hyhi.
  assert (Hgx : 0 <= gx < Math_ceil (inject_Z canvasWidth / inject_Z (pixelSize ip))).
  { split.
    - assert (0 < gx * pixelSize ip + pixelSize ip); [| nia].
      rewrite Zlt_Qlt. eapply Qle_lt_trans; [exact Hx0 | exact Hxhi].
    - apply Math_ceil_lt; [exact Hs |].
      rewrite Zlt_Qlt. eapply Qle_lt_trans; [exact Hxlo | exact Hx1]. }
  assert (Hgy : 0 <= gy < Math_ceil (inject_Z canvasHeight / inject_Z (pixelSize ip))).
  { split.
    - assert (0 < gy * pixelSize ip + pixelSize ip); [| nia].
      rewrite Zlt_Qlt. eapply Qle_lt_trans; [exact Hy0 | exact Hyhi].
    - apply Math_ceil_lt; [exact Hs |].
      rewrite Zlt_Qlt. eapply Qle_lt_trans; [exact Hylo | exact Hy1]. }
  split; [exact Hgx |]. split; [exact Hgy |].
  destruct (processImage_result resample blend ip img c0 Himg Hc) as [Hpd Hps].
  destruct (drawn_size resample img) as [Hw Hh].
  destruct (applyPixelation_size blend (pixelSize ip) (drawn resample img)) as [Hw' Hh'].
  destruct (extractPixelData_nth (pixelSize ip)
              (applyPixelation blend (pixelSize ip) (drawn resample img)) gx gy)
    as (row & Hrow & _ & Hcell);
    [rewrite Hw', Hw; exact Hgx | rewrite Hh', Hh; exact Hgy |].
  rewrite <- Hpd in Hrow.
  exists row. eexists. split; [exact Hrow |]. split; [exact Hcell |].
  split; [| repeat split].
  apply (getPixelAt_nth _ x y row); rewrite ?Hps; try apply Hgx; try apply Hgy; assumption.
Qed.

(** *** A block of one colour, and the letterbox *)

Lemma total_const (xs : list Z) (v : Z) :
  Forall (eq v) xs -> total xs = v * Z.of_nat (length xs).
Proof.
  unfold total. induction 1 as [| x xs <- _ IH]; simpl; [lia |].
  rewrite IH. lia.
Qed.

Lemma Math_round_inject_Z (q : Q) (v : Z) : (q == inject_Z v)%Q -> Math_round q = v.
Proof.
  intros Hq. unfold Math_round.
  rewrite (Qfloor_comp _ (inject_Z (2 * v + 1) / inject_Z 2)%Q).
  - fold (Math_floor (inject_Z (2 * v + 1) / inject_Z 2)). rewrite Math_floor_Zdiv.
    pose proof (Z.div_mod (2 * v + 1) 2 ltac:(lia)).
    pose proof (Z.mod_pos_bound (2 * v + 1) 2 ltac:(lia)). lia.
  - rewrite Hq, inject_Z_plus, inject_Z_mult.
    change (inject_Z 2) with 2%Q. change (inject_Z 1) with 1%Q. field.
Qed.

Lemma meanColor_const (pixels : list RGB) (q : RGB) :
  pixels <> [] -> Forall (eq q) pixels -> meanColor pixels = q.
Proof.
  intros Hne Hall.
  assert (Hlen : 0 < Z.of_nat (length pixels)) by (destruct pixels; [congruence | simpl; lia]).
  assert (Hchan : forall f : RGB -> Z, Math_round (mean (map f pixels)) = f q).
  { intros f. apply Math_round_inject_Z. unfold mean.
    rewrite (total_const (map f pixels) (f q)).
    - rewrite length_map, inject_Z_mult. field.
      change 0%Q with (inject_Z 0). rewrite inject_Z_injective. lia.
    - clear -Hall. induction Hall as [| p ps <- _ IH]; simpl; constructor; auto. }
  unfold meanColor. rewrite !Hchan. destruct q; reflexivity.
Qed.

Lemma cellPixels_In (c : Canvas) (startX startY cellSize : Z) (p : RGB) :
  In p (cellPixels c startX startY cellSize) <->
  exists x y, startX <= x < Z.min (startX + cellSize) (width c)
              /\ startY <= y < Z.min (startY + cellSize) (height c)
              /\ p = bitmap c x y.
Proof.
  unfold cellPixels. rewrite in_flat_map. split.
  - intros (y & Hy & Hp). apply in_map_iff in Hp as (x & <- & Hx).
    apply span_bounds in Hx, Hy. exists x, y. auto.
  - intros (x & y & Hx & Hy & ->). exists y. split; [apply span_bounds; exact Hy |].
    apply in_map_iff. exists x. split; [reflexivity | apply span_bounds; exact Hx].
Qed.

Lemma cellPixels_nonempty (c : Canvas) (startX startY cellSize : Z) :
  0 < cellSize -> startX < width c -> startY < height c ->
  cellPixels c startX startY cellSize <> [].
Proof.
  intros Hs Hx Hy Hnil.
  assert (Hin : In (bitmap c startX startY) (cellPixels c startX startY cellSize))
    by (apply cellPixels_In; exists startX, startY; repeat split; lia).
  rewrite Hnil in Hin. exact Hin.
Qed.

(** A 100 by 100 image is drawn 500 pixels wide from canvas column 50 on:
    the columns to the left of it keep the white background. *)
Lemma letterbox_is_white resample img px py :
  img_width img = 100 -> img_height img = 100 -> px < 50 ->
  bitmap (drawn resample img) px py = white.
Proof.
  intros Hw Hh Hpx. unfold drawn, layout. rewrite Hw, Hh.
  change (negb (Qle_bool (inject_Z 100 / inject_Z 100)
                         (inject_Z canvasWidth / inject_Z canvasHeight))) with false.
  cbv iota beta. unfold drawImage, fillRect. cbn [bitmap].
  destruct (touches _ _ _ _ px py) eqn:Ht;
    [exfalso | destruct (inRect _ _ _ _ px py); reflexivity].
  unfold touches in Ht.
  apply andb_prop in Ht as [Ht _]. apply andb_prop in Ht as [Ht _].
  apply andb_prop in Ht as [Ht _]. apply andb_prop in Ht as [Ht _].
  apply andb_prop in Ht as [Hle Hne].
  apply Qle_bool_iff in Hle. apply negb_true_iff in Hne.
  assert (Hlt : (inject_Z 50 < inject_Z px + 1)%Q).
  { apply Qle_lteq in Hle as [Hlt | Heq].
    - eapply Qle_lt_trans; [| exact Hlt]. unfold Qle. vm_compute. discriminate.
    - apply Qeq_bool_iff in Heq. congruence. }
  change 1%Q with (inject_Z 1) in Hlt.
  rewrite <- inject_Z_plus, <- Zlt_Qlt in Hlt. lia.
Qed.

Lemma letterbox_cell_is_white resample img :
  img_width img = 100 -> img_height img = 100 ->
  meanColor (cellPixels (drawn resample img) 0 0 50) = white.
Proof.
  intros Hw Hh. destruct (drawn_size resample img) as [Hcw Hch].
  apply meanColor_const.
  - apply cellPixels_nonempty; rewrite ?Hcw, ?Hch; unfold canvasWidth, canvasHeight; lia.
  - apply List.Forall_forall. intros p Hp.
    apply cellPixels_In in Hp as (x & y & Hx & _ & ->).
    symmetry. apply letterbox_is_white; [assumption .. | lia].
Qed.

(** The processor that holds the 100 by 100 image. *)
Lemma blackSquareLoaded_eq :
  blackSquareLoaded = processImage nearest (fun c => c) blackSquareHeld.
Proof. reflexivity. Qed.

(** C6, as stated, fails: for a 100 by 100 image at cell size 50 the claim
    gives [ceil(100 / 50) = 2] columns and rows, and the grid has 12 columns
    and 10 rows, those of the 600 by 500 canvas. *)
Lemma grid_of_small_image_is_canvas_sized :
  Math_ceil (inject_Z (img_width blackSquare) / inject_Z 50) = 2
  /\ Math_ceil (inject_Z (img_height blackSquare) / inject_Z 50) = 2
  /\ pixelSize blackSquareLoaded = 50
  /\ length (pixelData blackSquareLoaded) = 10%nat
  /\ Forall (fun row => length row = 12%nat) (pixelData blackSquareLoaded).
Proof.
  split; [reflexivity |]. split; [reflexivity |].
  rewrite blackSquareLoaded_eq.
  destruct (processImage_result nearest (fun c => c) blackSquareHeld blackSquare
              blankCanvas eq_refl eq_refl) as [-> ->].
  destruct (drawn_size nearest blackSquare) as [Hw Hh].
  destruct (applyPixelation_size (fun c => c) (pixelSize blackSquareHeld)
              (drawn nearest blackSquare)) as [Hw' Hh'].
  split; [reflexivity |]. split.
  - rewrite extractPixelData_length, Hh', Hh. reflexivity.
  - eapply List.Forall_impl; [| apply extractPixelData_rows].
    intros row ->. rewrite Hw', Hw. reflexivity.
Qed.

(** C6, amended.  The grid is laid over the 600 by 500 canvas on which the
    image is drawn, whatever the size of the image: at cell size C it has
    [ceil(500 / C)] rows of [ceil(600 / C)] cells, and every coordinate inside
    the canvas resolves, by floor division by C, to exactly one cell of the
    grid, the only one whose bounds hold the coordinate. *)
Theorem grid_covers_canvas resample blend ip img c0 (x y : Q) :
  originalImage ip = Some img -> canvas ip = Some c0 -> 0 < pixelSize ip ->
  Z.of_nat (length (pixelData (processImage resample blend ip)))
  = Math_ceil (inject_Z canvasHeight / inject_Z (pixelSize ip))
  /\ Forall (fun row => Z.of_nat (length row)
                        = Math_ceil (inject_Z canvasWidth / inject_Z (pixelSize ip)))
            (pixelData (processImage resample blend ip))
  /\ ((0 <= x)%Q -> (x < inject_Z canvasWidth)%Q ->
      (0 <= y)%Q -> (y < inject_Z canvasHeight)%Q ->
      exists cell,
        getPixelAt x y (processImage resample blend ip) = Some cell
        /\ gridX cell = Math_floor (x / inject_Z (pixelSize ip))
        /\ gridY cell = Math_floor (y / inject_Z (pixelSize ip))
        /\ (inject_Z (pixelX cell) <= x)%Q
        /\ (x < inject_Z (pixelX cell + pixelSize ip))%Q
        /\ (inject_Z (pixelY cell) <= y)%Q
        /\ (y < inject_Z (pixelY cell + pixelSize ip))%Q
        /\ forall row cell',
             In row (pixelData (processImage resample blend ip)) -> In cell' row ->
             (inject_Z (pixelX cell') <= x)%Q ->
             (x < inject_Z (pixelX cell' + pixelSize ip))%Q ->
             (inject_Z (pixelY cell') <= y)%Q ->
             (y < inject_Z (pixelY cell' + pixelSize ip))%Q ->
             cell' = cell).
Proof.
  intros Himg Hc Hs.
  destruct (processImage_result resample blend ip img c0 Himg Hc) as [Hpd Hps].
  destruct (drawn_size resample img) as [Hw Hh].
  destruct (applyPixelation_size blend (pixelSize ip) (drawn resample img)) as [Hw' Hh'].
  assert (Hrows : 0 < Math_ceil (inject_Z canvasHeight / inject_Z (pixelSize ip)))
    by (apply Math_ceil_pos; [exact Hs | reflexivity]).
  assert (Hcols : 0 < Math_ceil (inject_Z canvasWidth / inject_Z (pixelSize ip)))
    by (apply Math_ceil_pos; [exact Hs | reflexivity]).
  split; [| split].
  - rewrite Hpd, extractPixelData_length, Hh', Hh. lia.
  - rewrite Hpd. eapply List.Forall_impl; [| apply extractPixelData_rows].
    intros row ->. rewrite Hw', Hw. lia.
  - intros Hx0 Hx1 Hy0 Hy1.
    destruct (getPixelAt_processed resample blend ip img c0 x y
                Himg Hc Hs Hx0 Hx1 Hy0 Hy1)
      as (Hgx & Hgy & row & cell & Hrow & Hcell & Hget & HgX & HgY & HpX & HpY).
    destruct (floor_div_bounds x (pixelSize ip) Hs) as [Hxlo Hxhi].
    destruct (floor_div_bounds y (pixelSize ip) Hs) as [Hylo Hyhi].
    exists cell. split; [exact Hget |]. split; [exact HgX |]. split; [exact HgY |].
    rewrite HpX, HpY. repeat (split; [assumption |]).
    intros row' cell' Hrow' Hcell' Hx0' Hx1' Hy0' Hy1'.
    rewrite Hpd in Hrow'.
    destruct (extractPixelData_In _ _ _ _ Hrow' Hcell') as (gx' & gy' & _ & _ & ->).
    cbn [pixelX pixelY extractCell] in Hx0', Hx1', Hy0', Hy1'.
    rewrite (floor_div_unique x (pixelSize ip) gx' Hs Hx0' Hx1') in Hcell, Hgx.
    rewrite (floor_div_unique y (pixelSize ip) gy' Hs Hy0' Hy1') in Hrow, Hgy.
    rewrite Hpd in Hrow.
    destruct (extractPixelData_nth (pixelSize ip)
                (applyPixelation blend (pixelSize ip) (drawn resample img)) gx' gy')
      as (row2 & Hrow2 & _ & Hcell2);
      [rewrite Hw', Hw; exact Hgx | rewrite Hh', Hh; exact Hgy |].
    congruence.
Qed.

Lemma grid_covers_canvas_witness :
  exists cell,
    getPixelAt 75 (901 # 2) (processImage nearest (fun c => c) blackSquareHeld) = Some cell
    /\ gridX cell = 1 /\ gridY cell = 9.
Proof.
  destruct (grid_covers_canvas nearest (fun c => c) blackSquareHeld blackSquare
              blankCanvas 75 (901 # 2) eq_refl eq_refl eq_refl)
    as (_ & _ & Hcell).
  destruct Hcell as (cell & Hget & HgX & HgY & _);
    [discriminate | reflexivity | discriminate | reflexivity |].
  exists cell. split; [exact Hget |].
  rewrite HgX, HgY. split; reflexivity.
Defined.

(** C5, as stated, fails: the 100 by 100 image is black all over, so the
    mean of its top-left 50 by 50 block is black, and cell (0, 0) of the grid
    at cell size 50 reports white: it lies on the letterbox beside the
    image. *)
Lemma cell_0_0_of_small_image_is_letterbox :
  (exists cell,
     getPixelAt 0 0 blackSquareLoaded = Some cell
     /\ gridX cell = 0 /\ gridY cell = 0
     /\ rgb cell = white /\ hsv cell = mkHSV 0 0 100)
  /\ meanColor (imageBlock blackSquare 0 0 50) = black
  /\ rgbToHsv 0 0 0 = mkHSV 0 0 0.
Proof.
  split; [| split; vm_compute; reflexivity].
  rewrite blackSquareLoaded_eq.
  assert (Hr : 10 <= pixelSize blackSquareHeld <= 100) by (simpl; lia).
  destruct (getPixelAt_processed nearest (fun c => c) blackSquareHeld blackSquare
              blankCanvas 0 0 eq_refl eq_refl eq_refl
              ltac:(discriminate) ltac:(reflexivity)
              ltac:(discriminate) ltac:(reflexivity))
    as (Hgx & Hgy & row & cell & Hrow & Hcell & Hget & HgX & HgY & _).
  change (Math_floor (0 / inject_Z (pixelSize blackSquareHeld))) with 0 in *.
  destruct (processed_cell nearest (fun c => c) blackSquareHeld blackSquare blankCanvas
              0 0 eq_refl eq_refl Hr Hgx Hgy)
    as (row' & cell' & Hrow' & _ & Hcell' & _ & _ & _ & _ & Hrgb & Hhsv).
  assert (cell' = cell) by congruence. subst cell'.
  exists cell. split; [exact Hget |]. split; [exact HgX |]. split; [exact HgY |].
  change (0 * pixelSize blackSquareHeld) with 0 in Hrgb.
  change (pixelSize blackSquareHeld) with 50 in Hrgb.
  rewrite letterbox_cell_is_white in Hrgb by reflexivity.
  split; [exact Hrgb |]. rewrite Hhsv, Hrgb. vm_compute. reflexivity.
Qed.

(** C5, amended.  For every processed image, every cell size from 10 to 100
    and every cell of the grid, the RGB the cell reports is the arithmetic
    mean, rounded to the nearest integer per channel, of every pixel of the
    canvas inside the bounds of the cell (cut at the canvas edge), not a
    single sample of the picture, and its HSV is derived from that RGB.  The
    canvas holds the image scaled to fit 600 by 500 and centred on white, so
    for a 100 by 100 image at cell size 50 cell (0, 0) averages a block of
    the white letterbox and reports white. *)
Theorem cell_color_is_block_mean resample blend ip img c0 gx gy :
  originalImage ip = Some img -> canvas ip = Some c0 ->
  10 <= pixelSize ip <= 100 ->
  0 <= gx < Math_ceil (inject_Z canvasWidth / inject_Z (pixelSize ip)) ->
  0 <= gy < Math_ceil (inject_Z canvasHeight / inject_Z (pixelSize ip)) ->
  exists cell,
    getPixelAt (inject_Z (gx * pixelSize ip)) (inject_Z (gy * pixelSize ip))
               (processImage resample blend ip) = Some cell
    /\ gridX cell = gx /\ gridY cell = gy
    /\ cellPixels (drawn resample img) (gx * pixelSize ip) (gy * pixelSize ip)
                  (pixelSize ip) <> []
    /\ rgb cell = meanColor (cellPixels (drawn resample img)
                               (gx * pixelSize ip) (gy * pixelSize ip) (pixelSize ip))
    /\ hsv cell = rgbToHsv (red (rgb cell)) (green (rgb cell)) (blue (rgb cell))
    /\ (img_width img = 100 -> img_height img = 100 -> pixelSize ip = 50 ->
        gx = 0 -> gy = 0 -> rgb cell = white).
Proof.
  intros Himg Hc Hr Hgx Hgy.
  assert (Hs : 0 < pixelSize ip) by lia.
  destruct (processed_cell resample blend ip img c0 gx gy Himg Hc Hr Hgx Hgy)
    as (row & cell & Hrow & _ & Hcell & HgX & HgY & _ & _ & Hrgb & Hhsv).
  assert (Hfx : Math_floor (inject_Z (gx * pixelSize ip) / inject_Z (pixelSize ip)) = gx)
    by (apply floor_div_unique; [exact Hs | apply Qle_refl | rewrite <- Zlt_Qlt; lia]).
  assert (Hfy : Math_floor (inject_Z (gy * pixelSize ip) / inject_Z (pixelSize ip)) = gy)
    by (apply floor_div_unique; [exact Hs | apply Qle_refl | rewrite <- Zlt_Qlt; lia]).
  destruct (processImage_result resample blend ip img c0 Himg Hc) as [_ Hps].
  destruct (drawn_size resample img) as [Hw Hh].
  exists cell. split.
  { apply (getPixelAt_nth _ _ _ row); rewrite Hps, ?Hfx, ?Hfy; try lia; assumption. }
  split; [exact HgX |]. split; [exact HgY |]. split.
  { apply cellPixels_nonempty; [exact Hs | rewrite Hw | rewrite Hh].
    - apply (Math_ceil_lt canvasWidth (pixelSize ip) gx); lia.
    - apply (Math_ceil_lt canvasHeight (pixelSize ip) gy); lia. }
  split; [exact Hrgb |]. split; [exact Hhsv |].
  intros Hiw Hih H50 -> ->. rewrite Hrgb, H50. change (0 * 50) with 0.
  apply letterbox_cell_is_white; assumption.
Qed.

Lemma cell_color_is_block_mean_witness :
  exists cell,
    getPixelAt (inject_Z (1 * 50)) (inject_Z (0 * 50))
               (processImage nearest (fun c => c) blackSquareHeld) = Some cell
    /\ gridX cell = 1 /\ gridY cell = 0
    /\ rgb cell = meanColor (cellPixels (drawn nearest blackSquare) (1 * 50) (0 * 50) 50).
Proof.
  destruct (cell_color_is_block_mean nearest (fun c => c) blackSquareHeld blackSquare
              blankCanvas 1 0 eq_refl eq_refl)
    as (cell & Hget & HgX & HgY & _ & Hrgb & _);
    [simpl; lia | split; [lia | reflexivity] ..|].
  exists cell. repeat split; assumption.
Defined.

End Grid.

(** ** RGB to HSV and back *)

Section RoundTrip.
Import JS.


(** *** Rounding a quotient of integers *)


Lemma rounds_unique (n den z z' : Z) :
  0 < den -> rounds n den z -> rounds n den z' -> z = z'.
Proof. unfold rounds. intros. nia. Qed.

Lemma Math_round_comp (q q' : Q) : (q == q')%Q -> Math_round q = Math_round q'.
Proof. intros Hq. unfold Math_round. apply Qfloor_comp. rewrite Hq. reflexivity. Qed.

(** *** [hsvToRgb] on integer HSV values *)







(** *** [rgbToHsv] in integers *)







Lemma inject_Z_nonzero (z : Z) : z <> 0 -> ~ (inject_Z z == 0)%Q.
Proof. intros Hz Hc. unfold Qeq in Hc. simpl in Hc. lia. Qed.

Lemma trunc_small (y : Q) : (-1 < y)%Q -> (y < 1)%Q -> trunc y = 0.
Proof.
  intros Hlo Hhi. unfold trunc.
  destruct (Qle_bool 0 y) eqn:H0.
  - apply Qle_bool_iff in H0.
    assert (0 <= Qfloor y < 1) by (apply Qfloor_bounds; assumption). lia.
  - apply Qle_bool_false in H0. unfold Qceiling.
    assert (0 <= Qfloor (- y) < 1) by (apply Qfloor_bounds; [lra | change (inject_Z 1) with 1%Q; lra]).
    lia.
Qed.

Lemma rem_small (x : Q) : (-6 < x)%Q -> (x < 6)%Q -> (rem x 6 == x)%Q.
Proof.
  intros Hlo Hhi. unfold rem.
  rewrite trunc_small.
  - change (inject_Z 0) with 0%Q. ring.
  - apply Qlt_shift_div_l; [reflexivity | lra].
  - apply Qlt_shift_div_r; [reflexivity | lra].
Qed.


(** *** The error of one channel *)











(** The bound 3 is reached: the cyan (0, 252, 254) has hue 180.47 degrees
    and value 99.6 percent, stored as 180 and 100, and comes back as the
    pure cyan (0, 255, 255). *)
Lemma roundtrip_bound_is_attained :
  ImageProcessor.rgbToHsv 0 252 254 = mkHSV 180 100 100
  /\ roundtrip 0 252 254 = mkRGB 0 255 255.
Proof. split; vm_compute; reflexivity. Qed.



End RoundTrip.

(** ** Further properties of the image processor *)

Section ProcessorFacts.
Import JS ImageProcessor ImageProcessorQueries.






(** A grid index is inside [0, n) exactly for the coordinates inside
    [0, n * C). *)
Lemma grid_index_bounds (x : Q) (C n : Z) :
  0 < C ->
  (0 <= Math_floor (x / inject_Z C) < n
   <-> (0 <= x)%Q /\ (x < inject_Z (n * C))%Q).
Proof.
  intros HC. destruct (floor_div_bounds x C HC) as [Hlo Hhi].
  set (g := Math_floor (x / inject_Z C)) in *. clearbody g.
  split.
  - intros [H0 Hn]. split.
    + eapply Qle_trans; [| exact Hlo].
      change 0%Q with (inject_Z 0). rewrite <- Zle_Qle. nia.
    + eapply Qlt_le_trans; [exact Hhi |]. rewrite <- Zle_Qle. nia.
  - intros [H0 Hn].
    assert (H1 : 0 < g * C + C)
      by (rewrite Zlt_Qlt; eapply Qle_lt_trans; [exact H0 | exact Hhi]).
    assert (H2 : g * C < n * C)
      by (rewrite Zlt_Qlt; eapply Qle_lt_trans; [exact Hlo | exact Hn]).
    nia.
Qed.

(** The grid of a processed image, as a table. *)
Lemma processed_grid resample blend ip img c0 :
  originalImage ip = Some img -> canvas ip = Some c0 -> 0 < pixelSize ip ->
  let ip' := processImage resample blend ip in
  let C := pixelSize ip in
  let cols := Math_ceil (inject_Z canvasWidth / inject_Z C) in
  let rows := Math_ceil (inject_Z canvasHeight / inject_Z C) in
  pixelSize ip' = C /\ 0 < cols /\ 0 < rows
  /\ Z.of_nat (length (pixelData ip')) = rows
  /\ (forall row, In row (pixelData ip') -> Z.of_nat (length row) = cols)
  /\ (forall gx gy, 0 <= gx < cols -> 0 <= gy < rows ->
        exists row cell,
          nth_error (pixelData ip') (Z.to_nat gy) = Some row
          /\ nth_error row (Z.to_nat gx) = Some cell
          /\ gridX cell = gx /\ gridY cell = gy
          /\ pixelX cell = gx * C /\ pixelY cell = gy * C).
Proof.
  intros Himg Hc HC ip' C cols rows. subst ip' C cols rows.
  destruct (processImage_result resample blend ip img c0 Himg Hc) as [Hpd Hps].
  destruct (drawn_size resample img) as [Hw Hh].
  destruct (applyPixelation_size blend (pixelSize ip) (drawn resample img)) as [Hw' Hh'].
  assert (Hrows : 0 < Math_ceil (inject_Z canvasHeight / inject_Z (pixelSize ip)))
    by (apply Math_ceil_pos; [exact HC | reflexivity]).
  assert (Hcols : 0 < Math_ceil (inject_Z canvasWidth / inject_Z (pixelSize ip)))
    by (apply Math_ceil_pos; [exact HC | reflexivity]).
  split; [exact Hps |]. split; [exact Hcols |]. split; [exact Hrows |]. split; [| split].
  - rewrite Hpd, extractPixelData_length, Hh', Hh. lia.
  - intros row Hrow. rewrite Hpd in Hrow.
    pose proof (extractPixelData_rows (pixelSize ip)
                  (applyPixelation blend (pixelSize ip) (drawn resample img))) as Hall.
    rewrite List.Forall_forall in Hall. rewrite (Hall row Hrow), Hw', Hw. lia.
  - intros gx gy Hgx Hgy.
    destruct (extractPixelData_nth (pixelSize ip)
                (applyPixelation blend (pixelSize ip) (drawn resample img)) gx gy)
      as (row & Hrow & _ & Hcell);
      [rewrite Hw', Hw; exact Hgx | rewrite Hh', Hh; exact Hgy |].
    rewrite <- Hpd in Hrow.
    exists row. eexists. split; [exact Hrow |]. split; [exact Hcell |].
    repeat split.
Qed.

(** X2.  [setPixelSize] clamps the size to the 10..100 of the constructor,
    so the cell size of a processor never leaves that range; a processor
    that holds an image rebuilds its grid at the clamped size, and one that
    holds none keeps the grid it had. *)
Theorem setPixelSize_clamps resample blend (size : Z) (ip : t) :
  minPixelSize ip = 10 -> maxPixelSize ip = 100 ->
  let ip' := setPixelSize resample blend size ip in
  10 <= pixelSize ip' <= 100
  /\ (10 <= size <= 100 -> pixelSize ip' = size)
  /\ (size < 10 -> pixelSize ip' = 10)
  /\ (100 < size -> pixelSize ip' = 100)
  /\ (minPixelSize ip' = 10 /\ maxPixelSize ip' = 100)
  /\ (originalImage ip = None -> pixelData ip' = pixelData ip)
  /\ (is_Some (originalImage ip) -> is_Some (canvas ip) ->
      Z.of_nat (length (pixelData ip'))
      = Math_ceil (inject_Z canvasHeight / inject_Z (pixelSize ip'))
      /\ forall row, In row (pixelData ip') ->
           Z.of_nat (length row)
           = Math_ceil (inject_Z canvasWidth / inject_Z (pixelSize ip'))).
Proof.
  intros Hmin Hmax ip'. subst ip'. unfold setPixelSize. rewrite Hmin, Hmax.
  set (held := {| originalImage := originalImage ip; pixelData := pixelData ip;
                  pixelSize := Z.max 10 (Z.min 100 size);
                  maxPixelSize := 100; minPixelSize := 10; canvas := canvas ip;
                  imageWidth := imageWidth ip; imageHeight := imageHeight ip;
                  imageOffsetX := imageOffsetX ip; imageOffsetY := imageOffsetY ip |}).
  assert (Hps : forall p, pixelSize p = pixelSize held ->
            10 <= pixelSize p <= 100
            /\ (10 <= size <= 100 -> pixelSize p = size)
            /\ (size < 10 -> pixelSize p = 10)
            /\ (100 < size -> pixelSize p = 100))
    by (intros p ->; simpl; lia).
  destruct (originalImage ip) as [img |] eqn:Himg.
  - assert (Hkeep : pixelSize (processImage resample blend held) = pixelSize held
                    /\ minPixelSize (processImage resample blend held) = 10
                    /\ maxPixelSize (processImage resample blend held) = 100).
    { unfold processImage. destruct (originalImage held), (canvas held);
        try destruct (layout _) as [[[? ?] ?] ?]; repeat split. }
    destruct Hkeep as (Hk & Hkmin & Hkmax).
    destruct (Hps _ Hk) as (H1 & H2 & H3 & H4).
    split; [exact H1 |]. split; [exact H2 |]. split; [exact H3 |].
    split; [exact H4 |]. split; [split; assumption |].
    split; [intros Hn; discriminate Hn |].
    intros _ [c0 Hc].
    destruct (processed_grid resample blend held img c0 eq_refl Hc ltac:(simpl; lia))
      as (_ & _ & _ & Hrows & Hcols & _).
    rewrite Hk. split; [exact Hrows | exact Hcols].
  - destruct (Hps held eq_refl) as (H1 & H2 & H3 & H4).
    split; [exact H1 |]. split; [exact H2 |]. split; [exact H3 |].
    split; [exact H4 |]. split; [split; reflexivity |].
    split; [reflexivity |].
    intros [? Hn]; discriminate Hn.
Qed.

Lemma setPixelSize_clamps_witness :
  pixelSize (setPixelSize nearest (fun c => c) 250 blackSquareHeld) = 100
  /\ Z.of_nat (length (pixelData (setPixelSize nearest (fun c => c) 250 blackSquareHeld)))
     = 5.
Proof.
  destruct (setPixelSize_clamps nearest (fun c => c) 250 blackSquareHeld eq_refl eq_refl)
    as (_ & _ & _ & Hhi & _ & _ & Hgrid).
  specialize (Hhi ltac:(lia)).
  destruct (Hgrid ltac:(simpl; eauto) ltac:(simpl; eauto)) as [Hrows _].
  split; [exact Hhi |]. rewrite Hrows, Hhi. reflexivity.
Defined.

(** What [getPixelAt] returns when it returns a cell. *)
Lemma getPixelAt_Some_inv resample blend ip img c0 (x y : Q) cell :
  originalImage ip = Some img -> canvas ip = Some c0 -> 0 < pixelSize ip ->
  getPixelAt x y (processImage resample blend ip) = Some cell ->
  let C := pixelSize ip in
  (0 <= Math_floor (x / inject_Z C) < Math_ceil (inject_Z canvasWidth / inject_Z C)
   /\ 0 <= Math_floor (y / inject_Z C) < Math_ceil (inject_Z canvasHeight / inject_Z C))
  /\ pixelX cell = Math_floor (x / inject_Z C) * C
  /\ pixelY cell = Math_floor (y / inject_Z C) * C
  /\ ((inject_Z (pixelX cell) <= x)%Q /\ (x < inject_Z (pixelX cell + C))%Q
      /\ (inject_Z (pixelY cell) <= y)%Q /\ (y < inject_Z (pixelY cell + C))%Q).
Proof.
  intros Himg Hc HC Hget C.
  destruct (processed_grid resample blend ip img c0 Himg Hc HC)
    as (Hps & Hcols & Hrows & Hlen & Hrow & Hcell).
  set (ip' := processImage resample blend ip) in *.
  set (cols := Math_ceil (inject_Z canvasWidth / inject_Z (pixelSize ip))) in *.
  set (rows := Math_ceil (inject_Z canvasHeight / inject_Z (pixelSize ip))) in *.
  fold C in Hps, Hcell, cols, rows.
  destruct (floor_div_bounds x C HC) as [Hxlo Hxhi].
  destruct (floor_div_bounds y C HC) as [Hylo Hyhi].
  unfold getPixelAt in Hget. rewrite Hps in Hget.
  destruct (Nat.eqb_spec (length (pixelData ip')) 0) as [| _]; [discriminate |].
  cbv zeta in Hget.
  destruct ((0 <=? Math_floor (y / inject_Z C))
            && (Math_floor (y / inject_Z C) <? Z.of_nat (length (pixelData ip'))))
    eqn:Hby; [| discriminate].
  destruct (nth_error (pixelData ip') (Z.to_nat (Math_floor (y / inject_Z C))))
    as [row |] eqn:Hnth; [| discriminate].
  pose proof (Hrow row (nth_error_In _ _ Hnth)) as Hlenrow.
  destruct ((0 <=? Math_floor (x / inject_Z C))
            && (Math_floor (x / inject_Z C) <? Z.of_nat (length row)))
    eqn:Hbx; [| discriminate].
  assert (Hin : 0 <= Math_floor (x / inject_Z C) < cols
                /\ 0 <= Math_floor (y / inject_Z C) < rows) by lia.
  split; [exact Hin |].
  destruct (Hcell _ _ (proj1 Hin) (proj2 Hin))
    as (row' & cell' & Hnth' & Hc' & _ & _ & HpX & HpY).
  assert (row' = row) by congruence. subst row'.
  assert (cell' = cell) by congruence. subst cell'.
  rewrite HpX, HpY. repeat apply conj; try reflexivity; assumption.
Qed.


(** The coordinates for which [getPixelAt] returns a cell. *)
Lemma getPixelAt_is_Some_iff resample blend ip img c0 (x y : Q) :
  originalImage ip = Some img -> canvas ip = Some c0 -> 0 < pixelSize ip ->
  let C := pixelSize ip in
  let cols := Math_ceil (inject_Z canvasWidth / inject_Z C) in
  let rows := Math_ceil (inject_Z canvasHeight / inject_Z C) in
  is_Some (getPixelAt x y (processImage resample blend ip))
  <-> ((0 <= x)%Q /\ (x < inject_Z (cols * C))%Q)
      /\ ((0 <= y)%Q /\ (y < inject_Z (rows * C))%Q).
Proof.
  intros Himg Hc HC C cols rows.
  destruct (processed_grid resample blend ip img c0 Himg Hc HC)
    as (Hps & Hcols & Hrows & Hlen & Hrow & Hcell).
  fold C cols rows in Hps, Hcols, Hrows, Hlen, Hrow, Hcell.
  pose proof (grid_index_bounds x C cols HC) as Hgx.
  pose proof (grid_index_bounds y C rows HC) as Hgy.
  split.
  - intros [cell Hget].
    destruct (getPixelAt_Some_inv resample blend ip img c0 x y cell Himg Hc HC Hget)
      as ([Hx Hy] & _).
    split; [apply Hgx, Hx | apply Hgy, Hy].
  - intros [Hx Hy]. apply Hgx in Hx. apply Hgy in Hy.
    destruct (Hcell _ _ Hx Hy) as (row & cell & Hnth & Hc' & _).
    exists cell.
    apply (getPixelAt_nth (processImage resample blend ip) x y row);
      rewrite ?Hps; try lia; assumption.
Qed.

(** X3.  [getPixelAt] returns a cell exactly for the coordinates from 0 up
    to the right and lower edges of the grid, which lie at the number of
    columns and rows times the cell size, at or beyond the canvas edge; for
    any other coordinate it returns null.  The cell it returns is the one
    whose bounds hold the coordinate. *)
Theorem getPixelAt_in_grid_only resample blend ip img c0 (x y : Q) :
  originalImage ip = Some img -> canvas ip = Some c0 -> 0 < pixelSize ip ->
  let ip' := processImage resample blend ip in
  let C := pixelSize ip in
  let cols := Math_ceil (inject_Z canvasWidth / inject_Z C) in
  let rows := Math_ceil (inject_Z canvasHeight / inject_Z C) in
  (canvasWidth <= cols * C /\ canvasHeight <= rows * C)
  /\ (is_Some (getPixelAt x y ip')
      <-> ((0 <= x)%Q /\ (x < inject_Z (cols * C))%Q)
          /\ ((0 <= y)%Q /\ (y < inject_Z (rows * C))%Q))
  /\ (forall cell, getPixelAt x y ip' = Some cell ->
        (inject_Z (pixelX cell) <= x)%Q /\ (x < inject_Z (pixelX cell + C))%Q
        /\ (inject_Z (pixelY cell) <= y)%Q /\ (y < inject_Z (pixelY cell + C))%Q).
Proof.
  intros Himg Hc HC ip' C cols rows.
  split; [| split].
  - split.
    + destruct (Z_lt_le_dec (cols * C) canvasWidth) as [Hlt |]; [| assumption].
      apply (Math_ceil_lt canvasWidth C cols HC) in Hlt. unfold cols in Hlt. lia.
    + destruct (Z_lt_le_dec (rows * C) canvasHeight) as [Hlt |]; [| assumption].
      apply (Math_ceil_lt canvasHeight C rows HC) in Hlt. unfold rows in Hlt. lia.
  - apply (getPixelAt_is_Some_iff resample blend ip img c0 x y Himg Hc HC).
  - intros cell Hget.
    apply (getPixelAt_Some_inv resample blend ip img c0 x y cell Himg Hc HC Hget).
Qed.

Lemma getPixelAt_in_grid_only_witness :
  is_Some (getPixelAt 610 10 (setPixelSize nearest (fun c => c) 70 blackSquareHeld))
  /\ ~ is_Some (getPixelAt 630 10 (setPixelSize nearest (fun c => c) 70 blackSquareHeld))
  /\ ~ is_Some (getPixelAt (-1) 10 (setPixelSize nearest (fun c => c) 70 blackSquareHeld)).
Proof.
  set (held := {| originalImage := Some blackSquare; pixelData := [];
                  pixelSize := 70; maxPixelSize := 100; minPixelSize := 10;
                  canvas := Some blankCanvas;
                  imageWidth := None; imageHeight := None;
                  imageOffsetX := None; imageOffsetY := None |}).
  change (setPixelSize nearest (fun c => c) 70 blackSquareHeld)
    with (processImage nearest (fun c => c) held).
  repeat apply conj.
  - apply (getPixelAt_in_grid_only nearest (fun c => c) held blackSquare blankCanvas
             610 10 eq_refl eq_refl ltac:(reflexivity)).
    repeat apply conj; [discriminate | reflexivity | discriminate | reflexivity].
  - intros Hs.
    apply (getPixelAt_in_grid_only nearest (fun c => c) held blackSquare blankCanvas
             630 10 eq_refl eq_refl ltac:(reflexivity)) in Hs.
    destruct Hs as [[_ Hs] _]. revert Hs. vm_compute. discriminate.
  - intros Hs.
    apply (getPixelAt_in_grid_only nearest (fun c => c) held blackSquare blankCanvas
             (-1) 10 eq_refl eq_refl ltac:(reflexivity)) in Hs.
    destruct Hs as [[Hs _] _]. apply Hs. reflexivity.
Defined.

(** X4.  [getColumnPixels] returns the column under the coordinate, one
    cell per row of the grid from top to bottom; the cell of row [gy] is
    the one [getPixelAt] finds at the top of that row.  Outside the grid it
    returns the empty array. *)
Theorem getColumnPixels_is_column resample blend ip img c0 (x : Q) :
  originalImage ip = Some img -> canvas ip = Some c0 -> 0 < pixelSize ip ->
  let ip' := processImage resample blend ip in
  let C := pixelSize ip in
  let cols := Math_ceil (inject_Z canvasWidth / inject_Z C) in
  let rows := Math_ceil (inject_Z canvasHeight / inject_Z C) in
  ((0 <= x)%Q -> (x < inject_Z (cols * C))%Q ->
   Z.of_nat (length (getColumnPixels x ip')) = rows
   /\ forall gy, 0 <= gy < rows ->
        exists cell,
          nth_error (getColumnPixels x ip') (Z.to_nat gy) = Some (Some cell)
          /\ getPixelAt x (inject_Z (gy * C)) ip' = Some cell
          /\ gridX cell = Math_floor (x / inject_Z C) /\ gridY cell = gy)
  /\ ((x < 0)%Q \/ (inject_Z (cols * C) <= x)%Q -> getColumnPixels x ip' = []).
Proof.
  intros Himg Hc HC ip' C cols rows.
  destruct (processed_grid resample blend ip img c0 Himg Hc HC)
    as (Hps & Hcols & Hrows & Hlen & Hrow & Hcell).
  fold ip' C cols rows in Hps, Hcols, Hrows, Hlen, Hrow, Hcell.
  pose proof (grid_index_bounds x C cols HC) as Hgx.
  unfold getColumnPixels. rewrite Hps.
  destruct (pixelData ip') as [| row0 rest] eqn:Hpd; [simpl in Hlen; lia |].
  rewrite <- Hpd in *.
  assert (Hlen0 : Z.of_nat (length row0) = cols)
    by (apply Hrow; rewrite Hpd; left; reflexivity).
  cbv zeta. rewrite Hlen0. split.
  - intros Hx0 Hx1.
    assert (Hx : 0 <= Math_floor (x / inject_Z C) < cols) by (apply Hgx; split; assumption).
    replace ((0 <=? Math_floor (x / inject_Z C)) && (Math_floor (x / inject_Z C) <? cols))
      with true by lia.
    split; [rewrite length_map; exact Hlen |].
    intros gy Hgy.
    destruct (Hcell _ gy Hx Hgy) as (row & cell & Hnth & Hc' & HgX & HgY & _).
    exists cell. split; [rewrite nth_error_map, Hnth; cbn [option_map]; rewrite Hc'; reflexivity |].
    split; [| split; assumption].
    assert (Hfy : Math_floor (inject_Z (gy * C) / inject_Z C) = gy)
      by (apply floor_div_unique; [exact HC | apply Qle_refl | rewrite <- Zlt_Qlt; lia]).
    apply (getPixelAt_nth ip' _ _ row); rewrite Hps, ?Hfy; try lia; assumption.
  - intros Hout.
    destruct ((0 <=? Math_floor (x / inject_Z C)) && (Math_floor (x / inject_Z C) <? cols))
      eqn:Hb; [| reflexivity].
    exfalso. assert (Hx : 0 <= Math_floor (x / inject_Z C) < cols) by lia.
    apply Hgx in Hx. destruct Hx as [Hx0 Hx1]. destruct Hout as [Hneg | Hbig]; lra.
Qed.

Lemma getColumnPixels_is_column_witness :
  Z.of_nat (length (getColumnPixels 120 (processImage nearest (fun c => c) blackSquareHeld)))
  = 10
  /\ getColumnPixels 600 (processImage nearest (fun c => c) blackSquareHeld) = [].
Proof.
  destruct (getColumnPixels_is_column nearest (fun c => c) blackSquareHeld blackSquare
              blankCanvas 120 eq_refl eq_refl ltac:(reflexivity)) as [Hin _].
  destruct (getColumnPixels_is_column nearest (fun c => c) blackSquareHeld blackSquare
              blankCanvas 600 eq_refl eq_refl ltac:(reflexivity)) as [_ Hout].
  split.
  - apply Hin; [discriminate | reflexivity].
  - apply Hout. right. discriminate.
Defined.



(** X6.  [hasImage] is false until an image has been loaded into a
    processor that was given its canvas: a new processor has none, loading
    before [init] stores the image without building a grid, and loading
    after [init] builds one. *)
Theorem hasImage_after_load resample blend (img : Image) (c : Canvas) (ip : t) :
  hasImage new = false
  /\ hasImage (init c new) = false
  /\ (canvas ip = None -> pixelData ip = [] ->
      hasImage (loadImage resample blend img ip) = false
      /\ originalImage (loadImage resample blend img ip) = Some img)
  /\ (is_Some (canvas ip) -> 0 < pixelSize ip ->
      hasImage (loadImage resample blend img ip) = true
      /\ pixelSize (loadImage resample blend img ip) = pixelSize ip).
Proof.
  split; [reflexivity |]. split; [reflexivity |]. split.
  - intros Hc Hpd. unfold loadImage, processImage. cbn [originalImage canvas].
    rewrite Hc. unfold hasImage. cbn [originalImage pixelData]. rewrite Hpd.
    split; reflexivity.
  - intros [c0 Hc] HC. unfold loadImage.
    set (held := {| originalImage := Some img; pixelData := pixelData ip;
                    pixelSize := pixelSize ip; maxPixelSize := maxPixelSize ip;
                    minPixelSize := minPixelSize ip; canvas := canvas ip;
                    imageWidth := imageWidth ip; imageHeight := imageHeight ip;
                    imageOffsetX := imageOffsetX ip; imageOffsetY := imageOffsetY ip |}).
    destruct (processed_grid resample blend held img c0 eq_refl Hc HC)
      as (Hps & _ & Hrows & Hlen & _).
    split; [| exact Hps].
    unfold hasImage.
    assert (Ho : originalImage (processImage resample blend held) = Some img).
    { unfold processImage. cbn [originalImage canvas held]. rewrite Hc.
      destruct (layout img) as [[[? ?] ?] ?]. reflexivity. }
    rewrite Ho.
    destruct (Nat.eqb_spec (length (pixelData (processImage resample blend held))) 0)
      as [H0 |]; [| reflexivity].
    rewrite H0 in Hlen. simpl in Hlen. cbn [pixelSize held] in Hrows. lia.
Qed.

Lemma hasImage_after_load_witness :
  hasImage (loadImage nearest (fun c => c) blackSquare (init blankCanvas new)) = true
  /\ hasImage (loadImage nearest (fun c => c) blackSquare new) = false.
Proof.
  destruct (hasImage_after_load nearest (fun c => c) blackSquare blankCanvas
              (init blankCanvas new)) as (_ & _ & _ & Hyes).
  destruct (hasImage_after_load nearest (fun c => c) blackSquare blankCanvas new)
    as (_ & _ & Hno & _).
  split.
  - apply Hyes; [simpl; eauto | reflexivity].
  - apply Hno; reflexivity.
Defined.

End ProcessorFacts.

(** ** Further properties of the mapper *)

Section MapperFacts.
Import JS HsvMapper HsvMapperAudio.

(** A clamped number is inside the clamp. *)
Lemma clamp_bounds (lo hi x : Q) :
  (lo <= hi)%Q ->
  (lo <= Math_max lo (Math_min hi x) <= hi)%Q
  /\ ((lo <= x <= hi)%Q -> Math_max lo (Math_min hi x) == x)%Q
  /\ ((x <= lo)%Q -> Math_max lo (Math_min hi x) == lo)%Q
  /\ ((hi <= x)%Q -> Math_max lo (Math_min hi x) == hi)%Q.
Proof.
  intros Hle. unfold Math_max, Math_min.
  destruct (Qle_bool hi x) eqn:H1; destruct (Qle_bool lo _) eqn:H2;
    try apply Qle_bool_iff in H1; try apply Qle_bool_iff in H2;
    try apply Qle_bool_false in H1; try apply Qle_bool_false in H2;
    repeat apply conj; intros; lra.
Qed.



(** X8.  The hue is a circle with a seam: a hue of 360 or more, like a hue
    of 0 or less, gives the colour of hue 0; and a saturation of 0 or less
    gives a gray. *)
Theorem hsvToRgb_hue_wraps (h s v : Q) :
  ((360 <= h)%Q \/ (h <= 0)%Q -> hsvToRgb h s v = hsvToRgb 0 s v)
  /\ ((s <= 0)%Q ->
      red (hsvToRgb h s v) = green (hsvToRgb h s v)
      /\ green (hsvToRgb h s v) = blue (hsvToRgb h s v)).
Proof.
  split.
  - intros Hh. unfold hsvToRgb.
    set (cs := Math_max 0 (Math_min 100 s)). set (cv := Math_max 0 (Math_min 100 v)).
    change (Math_max 0 (Math_min 360 0)) with 0%Q.
    assert (Hch : (Math_max 0 (Math_min 360 h) == 360
                   /\ Math_floor (Math_max 0 (Math_min 360 h) / 360 * 6) = 6)
                  \/ (Math_max 0 (Math_min 360 h) == 0
                      /\ Math_floor (Math_max 0 (Math_min 360 h) / 360 * 6) = 0)).
    { destruct (clamp_bounds 0 360 h ltac:(discriminate)) as (_ & _ & Hlo & Hhi).
      destruct Hh as [Hh | Hh]; [left | right].
      - split; [exact (Hhi Hh) |]. unfold Math_floor.
        rewrite (Qfloor_comp _ 6); [reflexivity | rewrite (Hhi Hh); reflexivity].
      - split; [exact (Hlo Hh) |]. unfold Math_floor.
        rewrite (Qfloor_comp _ 0); [reflexivity | rewrite (Hlo Hh); reflexivity]. }
    set (ch := Math_max 0 (Math_min 360 h)) in *. clearbody ch.
    cbv zeta. change (Math_floor (0 / 360 * 6)) with 0.
    destruct (Qeq_bool (cs / 100) 0); [reflexivity |].
    destruct Hch as [[Hch ->] | [Hch ->]];
      change (Z.rem 6 6) with 0; change (Z.rem 0 6) with 0; cbv iota;
      f_equal; apply Math_round_comp; rewrite Hch; reflexivity.
  - intros Hs. unfold hsvToRgb.
    destruct (clamp_bounds 0 100 s ltac:(discriminate)) as (_ & _ & Hlo & _).
    specialize (Hlo Hs).
    assert (H0 : Qeq_bool (Math_max 0 (Math_min 100 s) / 100) 0 = true)
      by (apply Qeq_bool_iff; rewrite Hlo; reflexivity).
    cbv zeta. rewrite H0. split; reflexivity.
Qed.

Lemma hsvToRgb_hue_wraps_witness :
  hsvToRgb 360 100 100 = hsvToRgb 0 100 100
  /\ hsvToRgb 0 100 100 = mkRGB 255 0 0
  /\ red (hsvToRgb 200 0 50) = green (hsvToRgb 200 0 50).
Proof.
  split; [| split].
  - apply (proj1 (hsvToRgb_hue_wraps 360 100 100)). left. discriminate.
  - reflexivity.
  - apply (proj2 (hsvToRgb_hue_wraps 200 0 50)). discriminate.
Defined.

(** *** The scales are ascending *)






(** *** The audio parameters *)

Lemma wellFormed_new : wellFormed new.
Proof.
  split; [apply configured_new |].
  repeat apply conj; try discriminate.
Qed.

Lemma interpolation_bounds (lo hi t : Q) :
  (lo <= hi)%Q -> (0 <= t <= 1)%Q -> (lo <= lo + t * (hi - lo) <= hi)%Q.
Proof. intros Hle [H0 H1]. split; nra. Qed.

Lemma percent_unit (x : Q) : (0 <= x <= 100)%Q -> (0 <= x / 100 <= 1)%Q.
Proof.
  intros [H0 H1]. split; [apply Qle_shift_div_l | apply Qle_shift_div_r]; lra.
Qed.

Lemma Qfloor_unique (y : Q) (k : Z) :
  (inject_Z k <= y)%Q -> (y < inject_Z k + 1)%Q -> Qfloor y = k.
Proof.
  intros Hlo Hhi.
  pose proof (Qfloor_le y) as H1. pose proof (Qlt_floor y) as H2.
  rewrite inject_Z_plus in H2. change (inject_Z 1) with 1%Q in H2.
  assert (k < Qfloor y + 1)
    by (rewrite Zlt_Qlt, inject_Z_plus; change (inject_Z 1) with 1%Q; lra).
  assert (Qfloor y < k + 1)
    by (rewrite Zlt_Qlt, inject_Z_plus; change (inject_Z 1) with 1%Q; lra).
  lia.
Qed.

(** X10.  For a colour in range every audio parameter of [mapHsvToAudio]
    is inside the range the mapper holds for it: the frequency in the
    window, volume, attack and release between their bounds, a waveform of
    the table, two to ten harmonics, a cut-off from 200 to 2000 Hz, a
    resonance up to 0.8 and a pan from -1 to 1. *)
Theorem mapHsvToAudio_in_ranges (m : t) (hsv : HSV) :
  wellFormed m ->
  (0 <= hue hsv)%Q -> (hue hsv < 360)%Q ->
  (0 <= sat hsv <= 100)%Q -> (0 <= val hsv <= 100)%Q ->
  let a := mapHsvToAudio m hsv in
  (exists f, ap_frequency a = Some f /\ (200 <= f <= 2000)%R)
  /\ (range_min (volumeRange m) <= ap_volume a <= range_max (volumeRange m))%Q
  /\ (range_min (attackRange m) <= ap_attack a <= range_max (attackRange m))%Q
  /\ (range_min (releaseRange m) <= ap_release a <= range_max (releaseRange m))%Q
  /\ (exists wf, ap_waveform a = Some wf /\ In wf (waveforms m))
  /\ (2 <= harmonicCount (ap_timbre a) <= 10
      /\ (200 <= filterCutoff (ap_timbre a) <= 2000)%Q
      /\ (0 <= resonance (ap_timbre a) <= 8 # 10)%Q)
  /\ (-1 <= ap_pan a <= 1)%R.
Proof.
  intros (Hconf & Hvol & Hatt & Hrel & Hwf) Hh0 Hh1 Hs Hv a. subst a.
  pose proof (percent_unit _ Hs) as Hs1. pose proof (percent_unit _ Hv) as Hv1.
  unfold mapHsvToAudio. cbn [ap_frequency ap_volume ap_attack ap_release ap_waveform
                             ap_timbre ap_pan].
  split; [apply mapHueToFrequency_defined; assumption |].
  split; [apply interpolation_bounds; assumption |].
  split.
  { unfold mapSaturationToAttack. cbv zeta.
    apply interpolation_bounds; [exact Hatt |]. split; lra. }
  split; [apply interpolation_bounds; assumption |].
  split.
  { unfold mapSaturationToWaveform. cbv zeta.
    set (len := Z.of_nat (length (waveforms m))).
    assert (Hlen : 0 < len) by (unfold len; destruct (waveforms m); [congruence | simpl; lia]).
    assert (Hidx : 0 <= Math_floor (sat hsv / 100 * inject_Z len)).
    { apply (Qfloor_resp_le 0). apply Qmult_le_0_compat; [lra |].
      change 0%Q with (inject_Z 0). rewrite <- Zle_Qle. lia. }
    unfold array_get.
    destruct (Z.ltb_spec (Z.min (Math_floor (sat hsv / 100 * inject_Z len)) (len - 1)) 0);
      [lia |].
    destruct (nth_error (waveforms m)
                (Z.to_nat (Z.min (Math_floor (sat hsv / 100 * inject_Z len)) (len - 1))))
      as [wf |] eqn:Hnth.
    - exists wf. split; [reflexivity | eapply nth_error_In; exact Hnth].
    - apply nth_error_None in Hnth. unfold len in *. lia. }
  split.
  { unfold mapSaturationToTimbre. cbn [harmonicCount filterCutoff resonance].
    split; [| split; split; lra].
    assert (H2 : 2 <= Math_floor (2 + sat hsv / 100 * 8))
      by (apply (Qfloor_resp_le 2); change (inject_Z 2) with 2%Q; lra).
    assert (H10 : Math_floor (2 + sat hsv / 100 * 8) <= 10)
      by (apply (Qfloor_resp_le _ 10); change (inject_Z 10) with 10%Q; lra).
    lia. }
  unfold mapHueToPan. apply SIN_bound.
Qed.

Lemma mapHsvToAudio_in_ranges_witness :
  (1 # 10 <= ap_volume (mapHsvToAudio new demoHsv) <= 8 # 10)%Q
  /\ (1 # 100 <= ap_attack (mapHsvToAudio new demoHsv) <= 1 # 10)%Q
  /\ (exists wf, ap_waveform (mapHsvToAudio new demoHsv) = Some wf
                 /\ In wf (waveforms new)).
Proof.
  destruct (mapHsvToAudio_in_ranges new demoHsv wellFormed_new)
    as (_ & Hvol & Hatt & _ & Hwf & _).
  - discriminate.
  - reflexivity.
  - split; discriminate.
  - split; discriminate.
  - split; [exact Hvol |]. split; [exact Hatt | exact Hwf].
Defined.


(** *** The colour description *)

Lemma hue_slice (h : Q) (k : Z) :
  (inject_Z k * 36 <= h)%Q -> (h < (inject_Z k + 1) * 36)%Q -> Math_floor (h / 36) = k.
Proof.
  intros Hlo Hhi. apply Qfloor_unique.
  - apply Qle_shift_div_l; [reflexivity | exact Hlo].
  - apply Qlt_shift_div_r; [reflexivity | exact Hhi].
Qed.

(** X26.  [generateColorDescription] names the hue by its slice of 36
    degrees, so the last slice, from 324 up to 360, is called Pink and only
    the first is called Red by the table; a hue outside [0, 360) has no
    entry and is called Red by the fallback.  The name is always one of the
    ten of the table, and the description is the brightness word, the
    saturation word and that name, separated by spaces. *)
Theorem hue_name_by_slice (hsv : HSV) :
  (((0 <= hue hsv)%Q /\ (hue hsv < 36)%Q) \/ (hue hsv < 0)%Q \/ (360 <= hue hsv)%Q ->
   hueNameOf (hue hsv) = "Red"%string)
  /\ ((324 <= hue hsv)%Q /\ (hue hsv < 360)%Q -> hueNameOf (hue hsv) = "Pink"%string)
  /\ In (hueNameOf (hue hsv)) hueNames
  /\ generateColorDescription hsv
     = (brightnessDesc (val hsv) +:+ " " +:+ saturationDesc (sat hsv) +:+ " "
        +:+ hueNameOf (hue hsv))%string
  /\ In (brightnessDesc (val hsv)) ["bright"; "medium"; "dark"]%string
  /\ In (saturationDesc (sat hsv)) ["vivid"; "moderate"; "muted"]%string.
Proof.
  set (h := hue hsv).
  assert (Hneg : (h < 0)%Q -> hueNameOf h = "Red"%string).
  { intros Hh. unfold hueNameOf. cbv zeta.
    assert (Hk : Math_floor (h / 36) < 0).
    { pose proof (Qfloor_le (h / 36)) as Hfl.
      assert (Hq : (h / 36 < 0)%Q) by (apply Qlt_shift_div_r; [reflexivity | lra]).
      apply Z.nle_gt. intros Hge.
      assert (0 <= inject_Z (Math_floor (h / 36)))%Q
        by (change 0%Q with (inject_Z 0); rewrite <- Zle_Qle; exact Hge).
      unfold Math_floor in *. lra. }
    unfold array_get. destruct (Z.ltb_spec (Math_floor (h / 36)) 0); [reflexivity | lia]. }
  assert (Hbig : (360 <= h)%Q -> hueNameOf h = "Red"%string).
  { intros Hh. unfold hueNameOf. cbv zeta.
    assert (Hk : 10 <= Math_floor (h / 36)).
    { apply (Qfloor_resp_le 10 (h / 36)). apply Qle_shift_div_l; [reflexivity | lra]. }
    unfold array_get. destruct (Z.ltb_spec (Math_floor (h / 36)) 0); [reflexivity |].
    destruct (Z.to_nat (Math_floor (h / 36))) as [| n] eqn:Hn; [lia |].
    do 9 (destruct n as [| n]; [lia |]). destruct n; reflexivity. }
  assert (Hslice : forall k : Z, 0 <= k < 10 ->
            (inject_Z k * 36 <= h)%Q -> (h < (inject_Z k + 1) * 36)%Q ->
            hueNameOf h = default "Red"%string (array_get hueNames k)).
  { intros k _ Hlo Hhi. unfold hueNameOf. cbv zeta. rewrite (hue_slice h k Hlo Hhi).
    reflexivity. }
  split; [| split; [| split; [| split; [reflexivity | split]]]].
  - intros [[Hlo Hhi] | [Hh | Hh]]; [| exact (Hneg Hh) | exact (Hbig Hh)].
    rewrite (Hslice 0); [reflexivity | lia | |]; unfold inject_Z; lra.
  - intros [Hlo Hhi]. rewrite (Hslice 9); [reflexivity | lia | |]; unfold inject_Z; lra.
  - destruct (Qlt_le_dec h 0) as [Hh | Hh0]; [rewrite (Hneg Hh); simpl; auto |].
    destruct (Qlt_le_dec h 360) as [Hh1 | Hh]; [| rewrite (Hbig Hh); simpl; auto].
    set (k := Math_floor (h / 36)).
    assert (Hk : 0 <= k < 10).
    { unfold k, Math_floor. apply Qfloor_bounds.
      - apply Qle_shift_div_l; [reflexivity | lra].
      - apply Qlt_shift_div_r; [reflexivity |]. unfold inject_Z. lra. }
    unfold hueNameOf. cbv zeta. fold k.
    assert (Hcases : k = 0 \/ k = 1 \/ k = 2 \/ k = 3 \/ k = 4 \/ k = 5 \/ k = 6
                     \/ k = 7 \/ k = 8 \/ k = 9) by lia.
    clearbody k.
    repeat (destruct Hcases as [-> | Hcases]; [simpl; tauto |]).
    subst k. simpl. tauto.
  - unfold brightnessDesc. repeat destruct (AudioEngine.Qlt_bool _ _); simpl; auto.
  - unfold saturationDesc. repeat destruct (AudioEngine.Qlt_bool _ _); simpl; auto.
Qed.

End MapperFacts.

(** ** Further properties of the engine *)

Section EngineMore.
Import JS AudioEngine AudioEngineControls.

Lemma createSynth_eq (hsv : HSV) (id : Key) (w : World) :
  isInitialized (audioEngine w) = true -> is_Some (reverb (audioEngine w)) ->
  let sy :=
    {| oscillator := hsvToWaveform (sat hsv);
       env_attack := hsvToAttack (sat hsv); env_decay := 2 # 10;
       env_sustain := 3 # 10; env_release := hsvToRelease (val hsv) |} in
  createSynth hsv id w
  = Ok (Some sy)
       (with_tables w
          (<[id := mkSynthData sy (hsvToFrequency (hue hsv)) (hsvToVolume (val hsv)) hsv]>
             (synths (audioEngine w)))
          (scanSounds (audioEngine w))).
Proof.
  intros Hinit [rev Hrev]. unfold createSynth, bind, get, ret. rewrite Hinit. simpl.
  rewrite Hrev. reflexivity.
Qed.

(** X12.  On an initialized engine [createSynth] registers exactly one
    synthesizer, under the id it is given, and touches nothing else.  For a
    colour in range its attack is between 0.01 and 0.11 s, its release
    between 0.1 and 1.1 s, decay and sustain are 0.2 and 0.3, and the
    volume it stores is between 0.1 and 0.8. *)
Theorem createSynth_registers_voice (hsv : HSV) (id : Key) (w : World) :
  isInitialized (audioEngine w) = true -> is_Some (reverb (audioEngine w)) ->
  (0 <= sat hsv <= 100)%Q -> (0 <= val hsv <= 100)%Q ->
  exists sy data w',
    createSynth hsv id w = Ok (Some sy) w'
    /\ synths (audioEngine w') = <[id := data]> (synths (audioEngine w))
    /\ scanSounds (audioEngine w') = scanSounds (audioEngine w)
    /\ timers w' = timers w
    /\ synth data = sy /\ synth_hsv data = hsv
    /\ (1 # 100 <= env_attack sy <= 11 # 100)%Q
    /\ (1 # 10 <= env_release sy <= 11 # 10)%Q
    /\ env_decay sy = (2 # 10)%Q /\ env_sustain sy = (3 # 10)%Q
    /\ (1 # 10 <= volume data <= 8 # 10)%Q.
Proof.
  intros Hinit Hrev [Hs0 Hs1] [Hv0 Hv1].
  eexists. eexists. eexists. split; [apply createSynth_eq; assumption |].
  cbn [with_tables audioEngine synths scanSounds timers synth synth_hsv volume
       env_attack env_release env_decay env_sustain].
  do 5 (split; [reflexivity |]).
  unfold hsvToAttack, hsvToRelease, hsvToVolume.
  unfold Qdiv. change (/ 100)%Q with (1 # 100)%Q.
  split; [split; lra |]. split; [split; lra |].
  split; [reflexivity |]. split; [reflexivity |]. cbn [volume]. split; lra.
Qed.

Lemma createSynth_registers_voice_witness :
  exists sy data w',
    createSynth demoHsv (KStr "0_0") (initialized 50) = Ok (Some sy) w'
    /\ synths (audioEngine w')
       = <[KStr "0_0" := data]> (synths (audioEngine (initialized 50)))
    /\ (1 # 10 <= volume data <= 8 # 10)%Q.
Proof.
  destruct (createSynth_registers_voice demoHsv (KStr "0_0") (initialized 50))
    as (sy & data & w' & Hrun & Hsy & _ & _ & _ & _ & _ & _ & _ & _ & Hvol).
  - reflexivity.
  - simpl. eauto.
  - split; discriminate.
  - split; discriminate.
  - exists sy, data, w'. split; [exact Hrun |]. split; [exact Hsy | exact Hvol].
Defined.

(** X13.  [setMasterVolume] keeps the master volume between 0 and 1: a
    volume in range is taken as it is, one below 0 becomes 0 and one above
    1 becomes 1.  A gain node that exists follows the volume, none is
    created, and no voice is touched. *)
Theorem setMasterVolume_clamps (vol : Q) (w : World) :
  exists w',
    setMasterVolume vol w = Ok tt w'
    /\ (0 <= masterVolume (audioEngine w') <= 1)%Q
    /\ ((0 <= vol <= 1)%Q -> masterVolume (audioEngine w') == vol)%Q
    /\ ((vol <= 0)%Q -> masterVolume (audioEngine w') == 0)%Q
    /\ ((1 <= vol)%Q -> masterVolume (audioEngine w') == 1)%Q
    /\ masterGain (audioEngine w')
       = (fun _ => masterVolume (audioEngine w')) <$> masterGain (audioEngine w)
    /\ synths (audioEngine w') = synths (audioEngine w)
    /\ scanSounds (audioEngine w') = scanSounds (audioEngine w).
Proof.
  eexists. split; [unfold setMasterVolume, bind, get, set_engine; reflexivity |].
  cbn [audioEngine masterVolume masterGain synths scanSounds].
  destruct (clamp_bounds 0 1 vol ltac:(discriminate)) as (Hin & Hid & Hlo & Hhi).
  split; [exact Hin |]. split; [exact Hid |]. split; [exact Hlo |]. split; [exact Hhi |].
  split; [| split; reflexivity].
  destruct (masterGain (audioEngine w)); reflexivity.
Qed.

Lemma forEach_cleanupSynth keys w :
  forEach keys cleanupSynth w
  = Ok tt (with_tables w (deleteAll keys (synths (audioEngine w)))
                         (scanSounds (audioEngine w))).
Proof.
  revert w. induction keys as [| k keys IH]; intros w; simpl.
  - unfold ret. rewrite with_tables_id. reflexivity.
  - unfold bind. rewrite cleanupSynth_eq, IH. reflexivity.
Qed.

(** X14.  [dispose] disposes of every synthesizer the engine holds, so no
    voice is left; it does not clear the table of scan sounds, whose
    entries then name synthesizers that no longer exist. *)
Theorem dispose_leaves_no_voice (w : World) :
  exists w',
    dispose w = Ok tt w'
    /\ synths (audioEngine w') = ∅
    /\ liveVoices w' = 0%nat
    /\ scanSounds (audioEngine w') = scanSounds (audioEngine w).
Proof.
  eexists. split; [unfold dispose, bind, get; apply forEach_cleanupSynth |].
  cbn [with_tables audioEngine synths scanSounds].
  assert (Hempty : deleteAll (map fst (map_to_list (synths (audioEngine w))))
                     (synths (audioEngine w)) = ∅).
  { apply map_empty. intros k. rewrite lookup_deleteAll.
    destruct (decide (k ∈ map fst (map_to_list (synths (audioEngine w))))) as [| Hk];
      [reflexivity |].
    rewrite elem_of_keys in Hk.
    destruct (synths (audioEngine w) !! k) eqn:Hl; [| reflexivity].
    exfalso. apply Hk. eauto. }
  split; [exact Hempty |]. split; [| reflexivity].
  unfold liveVoices. cbn [with_tables audioEngine synths].
  rewrite Hempty. reflexivity.
Qed.

Lemma startScanSound_eq (hsv : HSV) (k : Key) (w : World) :
  isInitialized (audioEngine w) = true -> currentMode (audioEngine w) = scan ->
  is_Some (reverb (audioEngine w)) ->
  let sy :=
    {| oscillator := hsvToWaveform (sat hsv);
       env_attack := hsvToAttack (sat hsv); env_decay := 2 # 10;
       env_sustain := 3 # 10; env_release := hsvToRelease (val hsv) |} in
  startScanSound hsv k w
  = Ok tt
       (with_tables w
          (<[k := mkSynthData sy (hsvToFrequency (hue hsv)) (hsvToVolume (val hsv)) hsv]>
             (synths (audioEngine w)))
          (<[k := sy]> (scanSounds (audioEngine w)))).
Proof.
  intros Hinit Hmode Hrev sy. unfold startScanSound, bind, get.
  rewrite Hinit, Hmode. cbn [negb orb].
  rewrite bool_decide_true by reflexivity. cbn [negb].
  rewrite stopScanSound_eq.
  rewrite createSynth_eq by assumption.
  cbn [with_tables audioEngine synths scanSounds]. unfold set_scanSounds, bind, get.
  cbn [with_tables audioEngine synths scanSounds set_engine].
  unfold with_tables. cbn [audioEngine controller imageProcessor tone now timers
    isInitialized synths maxSynths currentMode scanSounds masterVolume needsUserGesture
    masterGain reverb].
  rewrite !insert_delete_eq. reflexivity.
Qed.

(** X15.  A scan voice is started and stopped under its key.  In scan
    mode [startScanSound] registers the voice in both tables, replacing a
    voice that was there under the same key, so the number of voices grows
    by one or not at all; [stopScanSound] with that key then removes it
    from both tables, and a key that was free before is free again: the
    engine is back in the state it was in.  In single mode
    [startScanSound] does nothing. *)
Theorem scan_voice_start_stop (hsv : HSV) (k : Key) (w : World) :
  (currentMode (audioEngine w) = single -> startScanSound hsv k w = Ok tt w)
  /\ (isInitialized (audioEngine w) = true -> currentMode (audioEngine w) = scan ->
      is_Some (reverb (audioEngine w)) ->
      exists w1 data,
        startScanSound hsv k w = Ok tt w1
        /\ synths (audioEngine w1) = <[k := data]> (synths (audioEngine w))
        /\ scanSounds (audioEngine w1) = <[k := synth data]> (scanSounds (audioEngine w))
        /\ synth_hsv data = hsv
        /\ liveVoices w1
           = match synths (audioEngine w) !! k with
             | Some _ => liveVoices w
             | None => S (liveVoices w)
             end
        /\ stopScanSound k w1
           = Ok tt (with_tables w (delete k (synths (audioEngine w)))
                                  (delete k (scanSounds (audioEngine w))))
        /\ (synths (audioEngine w) !! k = None ->
            scanSounds (audioEngine w) !! k = None ->
            stopScanSound k w1 = Ok tt w)).
Proof.
  split.
  - intros Hmode. unfold startScanSound, bind, get. rewrite Hmode.
    rewrite bool_decide_false by discriminate.
    destruct (isInitialized (audioEngine w)); reflexivity.
  - intros Hinit Hmode Hrev.
    eexists. eexists. split; [apply startScanSound_eq; assumption |].
    cbn [with_tables audioEngine synths scanSounds synth synth_hsv].
    split; [reflexivity |]. split; [reflexivity |]. split; [reflexivity |].
    assert (Hstop : forall sy sc,
              stopScanSound k (with_tables w (<[k := sy]> (synths (audioEngine w)))
                                             (<[k := sc]> (scanSounds (audioEngine w))))
              = Ok tt (with_tables w (delete k (synths (audioEngine w)))
                                     (delete k (scanSounds (audioEngine w))))).
    { intros sy sc. rewrite stopScanSound_eq.
      cbn [with_tables audioEngine synths scanSounds].
      rewrite with_tables_twice, !delete_insert_eq. reflexivity. }
    split; [| split].
    + unfold liveVoices. cbn [with_tables audioEngine synths].
      destruct (synths (audioEngine w) !! k) eqn:Hk.
      * apply map_size_insert_Some. eauto.
      * apply map_size_insert_None. exact Hk.
    + apply Hstop.
    + intros Hsy Hsc. rewrite Hstop.
      rewrite (delete_id _ _ Hsy), (delete_id _ _ Hsc), with_tables_id. reflexivity.
Qed.

Lemma scan_voice_start_stop_witness :
  exists w1,
    startScanSound demoHsv (KStr "0_0") (scanning 100) = Ok tt w1
    /\ liveVoices w1 = 1%nat
    /\ stopScanSound (KStr "0_0") w1 = Ok tt (scanning 100).
Proof.
  destruct (proj2 (scan_voice_start_stop demoHsv (KStr "0_0") (scanning 100)))
    as (w1 & data & Hrun & _ & _ & _ & Hlive & _ & Hback).
  - reflexivity.
  - reflexivity.
  - simpl. eauto.
  - exists w1. split; [exact Hrun |]. split; [exact Hlive |].
    apply Hback; reflexivity.
Defined.

(** *** The life of a transient voice *)

Lemma playNote_eq (hsv : HSV) (rnd : string) (w : World) :
  isInitialized (audioEngine w) = true -> is_Some (reverb (audioEngine w)) ->
  let id := KStr ("note_" +:+ pretty (Date_now w) +:+ "_" +:+ rnd) in
  let delay := (((1 # 10) + (100 - val hsv) / 100 * (3 # 10)) * 1000 + 500)%Q in
  exists data,
    synth_hsv data = hsv
    /\ playNote hsv None rnd w
       = Ok tt
           {| audioEngine :=
                audioEngine (with_tables w (<[id := data]> (synths (audioEngine w)))
                                           (scanSounds (audioEngine w)));
              controller := controller w; imageProcessor := imageProcessor w;
              tone := tone w; now := now w;
              timers := enqueue (mkTimer (now w + delay)%Q (CleanupSynth id)) (timers w) |}.
Proof.
  intros Hinit Hrev id delay. eexists. split; [| unfold playNote, bind, get].
  2: { rewrite Hinit. cbn [negb]. fold id.
       rewrite (createSynth_eq hsv id w Hinit Hrev). reflexivity. }
  reflexivity.
Qed.

(** X16.  A note played by [playNote] lives for its duration and half a
    second more: for a brightness from 0 to 100 the voice is registered
    under its id, is still there when less than 600 ms have passed and
    is gone, with its timer, once 900 ms have passed. *)
Theorem transient_voice_expires (hsv : HSV) (rnd : string) (w : World) (ms : Q) :
  isInitialized (audioEngine w) = true -> is_Some (reverb (audioEngine w)) ->
  timers w = [] -> (0 <= val hsv <= 100)%Q ->
  exists id data w1,
    playNote hsv None rnd w = Ok tt w1
    /\ synths (audioEngine w1) = <[id := data]> (synths (audioEngine w))
    /\ length (timers w1) = 1%nat
    /\ ((0 <= ms)%Q -> (ms < 600)%Q ->
        synths (audioEngine (elapse ms w1)) = synths (audioEngine w1)
        /\ length (timers (elapse ms w1)) = 1%nat)
    /\ ((900 <= ms)%Q ->
        synths (audioEngine (elapse ms w1)) = delete id (synths (audioEngine w))
        /\ timers (elapse ms w1) = []).
Proof.
  intros Hinit Hrev Htimers [Hv0 Hv1].
  destruct (playNote_eq hsv rnd w Hinit Hrev) as (data & _ & Hrun).
  cbv zeta in Hrun. rewrite Htimers in Hrun. cbn [enqueue] in Hrun.
  set (id := KStr ("note_" +:+ pretty (Date_now w) +:+ "_" +:+ rnd)) in *.
  set (delay := (((1 # 10) + (100 - val hsv) / 100 * (3 # 10)) * 1000 + 500)%Q) in *.
  assert (Hdelay : (600 <= delay <= 900)%Q).
  { unfold delay. unfold Qdiv. change (/ 100)%Q with (1 # 100)%Q. split; lra. }
  clearbody delay.
  exists id, data. eexists. split; [exact Hrun |].
  cbn [with_tables audioEngine synths timers length].
  split; [reflexivity |]. split; [reflexivity |].
  unfold elapse. cbn [timers length now fireDue].
  split.
  - intros Hms0 Hms.
    destruct (Qle_bool (due {| due := now w + delay; callback := CleanupSynth id |})
                (now w + ms)) eqn:Hdue.
    + apply Qle_bool_iff in Hdue. cbn [due] in Hdue. lra.
    + cbn [set_clock world_of audioEngine synths timers length]. split; reflexivity.
  - intros Hms.
    destruct (Qle_bool (due {| due := now w + delay; callback := CleanupSynth id |})
                (now w + ms)) eqn:Hdue.
    + cbn [set_clock world_of callback InteractiveCanvas.runCallback].
      rewrite cleanupSynth_eq.
      cbn [world_of with_tables audioEngine synths scanSounds timers set_clock].
      rewrite delete_insert_eq. split; reflexivity.
    + apply Qle_bool_false in Hdue. cbn [due] in Hdue. lra.
Qed.

Lemma transient_voice_expires_witness :
  exists id data w1,
    playNote demoHsv None "0.42" (initialized 50) = Ok tt w1
    /\ synths (audioEngine w1) = <[id := data]> (synths (audioEngine (initialized 50)))
    /\ synths (audioEngine (elapse 1000 w1))
       = delete id (synths (audioEngine (initialized 50)))
    /\ timers (elapse 1000 w1) = [].
Proof.
  destruct (transient_voice_expires demoHsv "0.42" (initialized 50) 1000)
    as (id & data & w1 & Hrun & Hsy & _ & _ & Hgone).
  - reflexivity.
  - simpl. eauto.
  - reflexivity.
  - split; discriminate.
  - exists id, data, w1. split; [exact Hrun |]. split; [exact Hsy |].
    apply Hgone. discriminate.
Defined.

End EngineMore.

(** ** Further properties of the event loop *)

Section EventLoop.
Import JS AudioEngine InteractiveCanvas.

(** *** What a handler may do to the modes *)

Lemma modeFrame_refl w : modeFrame w w.
Proof. repeat split; auto. Qed.

Lemma modeFrame_trans w1 w2 w3 : modeFrame w1 w2 -> modeFrame w2 w3 -> modeFrame w1 w3.
Proof.
  intros (Hc & Hm & Hs) (Hc' & Hm' & Hs').
  split; [congruence |]. split; [congruence |].
  intros Hsingle Hempty. apply Hs'; [congruence | apply Hs; assumption].
Qed.

Lemma modeFrame_agree w w' : modeFrame w w' -> modesAgree w -> modesAgree w'.
Proof.
  intros (Hc & Hm & Hs) [Heq Hempty]. split; [congruence |].
  intros Hsingle. rewrite Hm in Hsingle. apply Hs; [exact Hsingle | apply Hempty, Hsingle].
Qed.

Lemma frame_bind {A B} (m : M A) (k : A -> M B) w :
  modeFrame w (world_of (m w)) -> (forall a, framed (k a)) ->
  modeFrame w (world_of (bind m k w)).
Proof.
  intros Hm Hk. unfold bind. destruct (m w) as [a w' | msg w']; simpl in *.
  - eapply modeFrame_trans; [exact Hm | apply Hk].
  - exact Hm.
Qed.

Lemma framed_bind {A B} (m : M A) (k : A -> M B) :
  framed m -> (forall a, framed (k a)) -> framed (bind m k).
Proof. intros Hm Hk w. apply frame_bind; [apply Hm | exact Hk]. Qed.

Lemma framed_ret {A} (a : A) : framed (ret a).
Proof. intros w. apply modeFrame_refl. Qed.

Lemma framed_throw {A} msg : framed (throw (A := A) msg).
Proof. intros w. apply modeFrame_refl. Qed.

(** [let* w := get in body w]. *)
Lemma framed_get {A} (body : World -> M A) :
  (forall w, modeFrame w (world_of (body w w))) -> framed (bind get body).
Proof. intros H w. unfold bind, get. apply H. Qed.

Lemma modeFrame_with_tables w sy sc :
  (currentMode (audioEngine w) = single -> scanSounds (audioEngine w) = ∅ -> sc = ∅) ->
  modeFrame w (with_tables w sy sc).
Proof. intros H. repeat split; try reflexivity. exact H. Qed.

Lemma framed_cleanupSynth id : framed (cleanupSynth id).
Proof.
  intros w. rewrite cleanupSynth_eq. apply modeFrame_with_tables. auto.
Qed.

Lemma framed_stopScanSound k : framed (stopScanSound k).
Proof.
  intros w. rewrite stopScanSound_eq. apply modeFrame_with_tables.
  intros _ ->. apply delete_empty.
Qed.

Lemma framed_stopAllScanSounds : framed stopAllScanSounds.
Proof.
  intros w. rewrite stopAllScanSounds_eq. apply modeFrame_with_tables. auto.
Qed.

Lemma framed_set_synths m : framed (set_synths m).
Proof. intros w. repeat split; auto. Qed.

Lemma framed_setTimeout cb delay : framed (setTimeout cb delay).
Proof. intros w. repeat split; auto. Qed.

Lemma framed_set_scanColumn column : framed (set_scanColumn column).
Proof. intros w. repeat split; auto. Qed.

Lemma framed_set_hoveredPixel pixel : framed (set_hoveredPixel pixel).
Proof. intros w. repeat split; auto. Qed.

Lemma framed_set_clock t rest : framed (set_clock t rest).
Proof. intros w. repeat split; auto. Qed.

Lemma framed_createSynth hsv id : framed (createSynth hsv id).
Proof.
  unfold createSynth. apply framed_get. intros w.
  destruct (negb (isInitialized (audioEngine w))); [apply modeFrame_refl |].
  cbv zeta. apply frame_bind.
  - destruct (reverb (audioEngine w)); [apply modeFrame_refl |].
    destruct (connect_undefined_throws (tone w)); apply modeFrame_refl.
  - intros _. apply framed_bind; [apply framed_set_synths | intros; apply framed_ret].
Qed.

Lemma framed_playNote hsv duration rnd : framed (playNote hsv duration rnd).
Proof.
  unfold playNote. apply framed_get. intros w.
  destruct (negb (isInitialized (audioEngine w))); [apply modeFrame_refl |].
  cbv zeta. apply frame_bind; [apply framed_createSynth |].
  intros [sy |]; [apply framed_setTimeout | apply framed_ret].
Qed.

(** The same, for a continuation that relies on the mode of the engine. *)
Lemma frame_bind_mode {A B} (m : M A) (k : A -> M B) w :
  modeFrame w (world_of (m w)) ->
  (forall a w', currentMode (audioEngine w') = currentMode (audioEngine w) ->
                modeFrame w' (world_of (k a w'))) ->
  modeFrame w (world_of (bind m k w)).
Proof.
  intros Hm Hk. unfold bind. destruct (m w) as [a w' | msg w']; simpl in *.
  - eapply modeFrame_trans; [exact Hm | apply Hk, Hm].
  - exact Hm.
Qed.

(** In scan mode [startScanSound] leaves the modes alone; otherwise it
    does nothing. *)
Lemma framed_startScanSound hsv k : framed (startScanSound hsv k).
Proof.
  intros w. unfold startScanSound, bind at 1, get.
  destruct (negb (isInitialized (audioEngine w))); [apply modeFrame_refl |].
  cbn [orb].
  destruct (bool_decide (currentMode (audioEngine w) = scan)) eqn:Hmode;
    [| apply modeFrame_refl].
  apply bool_decide_eq_true in Hmode. cbn [negb].
  apply frame_bind_mode; [apply framed_stopScanSound |].
  intros _ w1 H1. apply frame_bind_mode; [apply framed_createSynth |].
  intros [sy |] w2 H2; [| apply modeFrame_refl].
  split; [reflexivity |]. split; [reflexivity |].
  intros Hsingle. congruence.
Qed.

Lemma framed_runCallback cb : framed (runCallback cb).
Proof.
  destruct cb as [id | pixel index]; simpl.
  - apply framed_cleanupSynth.
  - apply framed_get. intros w. apply framed_startScanSound.
Qed.

Lemma framed_scheduleColumn step index columnPixels :
  framed (scheduleColumn step index columnPixels).
Proof.
  revert index. induction columnPixels as [| pixel rest IH]; intros index; simpl.
  - apply framed_ret.
  - apply framed_bind; [| intros; apply IH].
    destruct pixel as [pixel |]; [| apply framed_ret].
    destruct (Z.rem (Z.of_nat index) step =? 0); [apply framed_setTimeout | apply framed_ret].
Qed.

Lemma framed_handleScanMove mouseX : framed (handleScanMove mouseX).
Proof.
  unfold handleScanMove. apply framed_get. intros w. cbv zeta.
  destruct (negb _); [| apply modeFrame_refl].
  apply frame_bind.
  - destruct (0 <=? scanColumn (controller w));
      [apply framed_stopScanSound | apply modeFrame_refl].
  - intros _. apply framed_bind; [apply framed_set_scanColumn |].
    intros _. apply framed_scheduleColumn.
Qed.

Lemma framed_handleScanRelease : framed handleScanRelease.
Proof.
  unfold handleScanRelease. apply framed_get. intros w.
  destruct (0 <=? scanColumn (controller w)); [| apply modeFrame_refl].
  apply frame_bind; [apply framed_stopScanSound | intros; apply framed_set_scanColumn].
Qed.

Lemma framed_handleSingleClick x y rnd : framed (handleSingleClick x y rnd).
Proof.
  unfold handleSingleClick. apply framed_get. intros w.
  destruct (ImageProcessor.getPixelAt x y (imageProcessor w)); [| apply modeFrame_refl].
  apply frame_bind; [apply framed_set_hoveredPixel | intros; apply framed_playNote].
Qed.

Lemma framed_mousePressed x y rnd : framed (mousePressed x y rnd).
Proof.
  unfold mousePressed. apply framed_get. intros w.
  destruct (_ || _); [apply modeFrame_refl |].
  destruct (ctl_mode (controller w)); [| apply modeFrame_refl].
  destruct (adjusted w x y). apply framed_handleSingleClick.
Qed.

Lemma framed_mouseMoved x y : framed (mouseMoved x y).
Proof.
  unfold mouseMoved. apply framed_get. intros w.
  destruct (negb _); [apply modeFrame_refl |]. cbv zeta.
  apply frame_bind; [repeat split; auto |].
  intros _. destruct (adjusted w x y).
  apply framed_bind; [apply framed_set_hoveredPixel |].
  intros _. apply framed_get. intros w'.
  destruct (ctl_mode (controller w')), (isPlaying (controller w'));
    try apply modeFrame_refl. apply framed_handleScanMove.
Qed.

Lemma framed_mouseReleased : framed mouseReleased.
Proof.
  unfold mouseReleased. apply framed_get. intros w.
  destruct (ctl_mode (controller w)), (isPlaying (controller w));
    try apply modeFrame_refl. apply framed_handleScanRelease.
Qed.

Lemma framed_mouseExited : framed mouseExited.
Proof.
  unfold mouseExited. apply framed_bind; [apply framed_set_hoveredPixel |].
  intros _. apply framed_get. intros w.
  destruct (ctl_mode (controller w)), (isPlaying (controller w));
    try apply modeFrame_refl. apply framed_handleScanRelease.
Qed.

Lemma framed_setPlaying playing : framed (setPlaying playing).
Proof.
  unfold setPlaying. apply framed_get. intros w. cbv zeta.
  apply frame_bind; [repeat split; auto |].
  intros _. destruct (negb playing); [| apply framed_ret].
  apply framed_bind; [apply framed_handleScanRelease | intros; apply framed_stopAllScanSounds].
Qed.

Lemma modeFrame_fireDue fuel target w : modeFrame w (fireDue fuel target w).
Proof.
  revert w. induction fuel as [| fuel IH]; intros w; simpl; [apply modeFrame_refl |].
  destruct (timers w) as [| t rest]; [apply modeFrame_refl |].
  destruct (Qle_bool (due t) target); [| apply modeFrame_refl].
  eapply modeFrame_trans; [| apply IH].
  eapply modeFrame_trans; [| apply framed_runCallback].
  repeat split; auto.
Qed.

Lemma modeFrame_elapse ms w : modeFrame w (elapse ms w).
Proof.
  unfold elapse. cbv zeta.
  eapply modeFrame_trans; [apply modeFrame_fireDue | apply framed_set_clock].
Qed.

(** *** The handlers that stop playback *)

Lemma handleScanRelease_eq w :
  handleScanRelease w
  = Ok tt (if 0 <=? scanColumn (controller w)
           then with_column
                  (with_tables w
                     (delete (KNum (scanColumn (controller w))) (synths (audioEngine w)))
                     (delete (KNum (scanColumn (controller w)))
                             (scanSounds (audioEngine w))))
                  (-1)
           else w).
Proof.
  unfold handleScanRelease, bind, get.
  destruct (0 <=? scanColumn (controller w)); [| reflexivity].
  rewrite stopScanSound_eq. reflexivity.
Qed.

Lemma setMode_agrees mode w : modesAgree (world_of (InteractiveCanvas.setMode mode w)).
Proof.
  unfold InteractiveCanvas.setMode, bind, get, set_controller. cbv zeta.
  destruct mode.
  - rewrite handleScanRelease_eq.
    unfold AudioEngine.setMode, bind, get, set_engine. cbv zeta.
    rewrite stopAllScanSounds_eq. cbn [world_of with_tables audioEngine controller
      ctl_mode currentMode scanSounds].
    destruct (0 <=? _); split; try reflexivity; intros _; reflexivity.
  - unfold ret, AudioEngine.setMode, bind, get, set_engine, ret. cbv zeta.
    cbn [world_of audioEngine controller ctl_mode currentMode scanSounds].
    split; [reflexivity |]. intros Hs. discriminate Hs.
Qed.

(** X17.  Between any two events the canvas and the engine are in the same
    mode, and in single mode no scan sound is registered: every pointer
    event, mode or playback change and timer callback keeps this, from any
    world in which it holds. *)
Theorem modes_agree_throughout (evs : list Event) (w : World) :
  modesAgree w -> modesAgree (run evs w).
Proof.
  unfold run. revert w. induction evs as [| ev evs IH]; intros w Hw; simpl; [exact Hw |].
  apply IH. destruct ev; simpl.
  - eapply modeFrame_agree; [apply framed_mouseMoved | exact Hw].
  - eapply modeFrame_agree; [apply framed_mousePressed | exact Hw].
  - eapply modeFrame_agree; [apply framed_mouseReleased | exact Hw].
  - eapply modeFrame_agree; [apply framed_mouseExited | exact Hw].
  - apply setMode_agrees.
  - eapply modeFrame_agree; [apply framed_setPlaying | exact Hw].
  - eapply modeFrame_agree; [apply modeFrame_elapse | exact Hw].
Qed.

Lemma modesAgree_fresh pixelSize backend : modesAgree (freshWorld pixelSize backend).
Proof. split; [reflexivity | intros _; reflexivity]. Qed.

Lemma modes_agree_throughout_witness :
  modesAgree
    (run [SetMode scan; SetPlaying true; MouseMoved 10 10; Elapse 400; SetMode single]
         (initialized 100)).
Proof.
  apply modes_agree_throughout.
  eapply modeFrame_agree; [| apply (modesAgree_fresh 100 (mkTone true))].
  repeat split; auto.
Defined.

Lemma setPlaying_false_world w :
  exists w',
    setPlaying false w = Ok tt w'
    /\ (isPlaying (controller w') = false
        /\ scanSounds (audioEngine w') = ∅
        /\ scanColumn (controller w') < 0
        /\ timers w' = timers w)
    /\ (now w' = now w
        /\ isInitialized (audioEngine w') = isInitialized (audioEngine w)
        /\ currentMode (audioEngine w') = currentMode (audioEngine w)
        /\ reverb (audioEngine w') = reverb (audioEngine w)
        /\ ctl_mode (controller w') = ctl_mode (controller w)).
Proof.
  unfold setPlaying, bind, get, set_controller. cbv zeta. cbn [negb].
  rewrite handleScanRelease_eq. rewrite stopAllScanSounds_eq.
  eexists. split; [reflexivity |].
  cbn [controller scanColumn].
  destruct (Z.leb_spec 0 (scanColumn (controller w))) as [Hcol | Hcol];
    cbn [with_tables with_column audioEngine controller isPlaying scanSounds scanColumn
         timers now isInitialized currentMode reverb ctl_mode];
    repeat apply conj; try reflexivity; lia.
Qed.

(** X18.  Stopping playback clears the scan sounds and the scan column and
    returns normally, but it cancels no timer: the queue of pending
    callbacks is the one it was. *)
Theorem stopping_playback_keeps_timers (w : World) :
  exists w',
    setPlaying false w = Ok tt w'
    /\ isPlaying (controller w') = false
    /\ scanSounds (audioEngine w') = ∅
    /\ scanColumn (controller w') < 0
    /\ timers w' = timers w.
Proof.
  destruct (setPlaying_false_world w) as (w' & Hrun & Hstop & _).
  exists w'. split; [exact Hrun | exact Hstop].
Qed.

Lemma runCallback_StartScan pixel index w :
  runCallback (StartScan pixel index) w
  = startScanSound (ImageProcessor.hsv pixel)
      (scanKey (scanColumn (controller w)) index) w.
Proof. reflexivity. Qed.

(** X19.  So a staggered onset that is still pending when playback is
    stopped fires afterwards: in scan mode it starts a voice although
    nothing is playing, and registers it in both tables under the key made
    of the cleared (negative) scan column and its index. *)
Theorem pending_onset_fires_after_stop (w : World) (d ms : Q)
    (pixel : ImageProcessor.Cell) (index : nat) (rest : list Timer) :
  isInitialized (audioEngine w) = true -> currentMode (audioEngine w) = scan ->
  is_Some (reverb (audioEngine w)) ->
  timers w = mkTimer d (StartScan pixel index) :: rest ->
  (d <= now w + ms)%Q ->
  (forall t, head rest = Some t -> (now w + ms < due t)%Q) ->
  let w1 := world_of (setPlaying false w) in
  let w2 := elapse ms w1 in
  isPlaying (controller w2) = false
  /\ scanColumn (controller w2) < 0
  /\ is_Some (scanSounds (audioEngine w2) !! scanKey (scanColumn (controller w2)) index)
  /\ (synth_hsv <$> synths (audioEngine w2) !! scanKey (scanColumn (controller w2)) index)
     = Some (ImageProcessor.hsv pixel)
  /\ timers w2 = rest.
Proof.
  intros Hinit Hmode Hrev Htimers Hdue Hrest w1 w2. subst w2 w1.
  destruct (setPlaying_false_world w)
    as (w1 & -> & (Hplay & _ & Hcol & Ht) & (Hnow & Hi & Hm & Hr & _)).
  cbn [world_of]. rewrite Htimers in Ht. rewrite <- Hi in Hinit. rewrite <- Hm in Hmode.
  rewrite <- Hr in Hrev. rewrite <- Hnow in Hdue, Hrest.
  clear Htimers Hnow Hi Hm Hr w.
  unfold elapse. cbv zeta. rewrite Ht. cbn [length fireDue]. rewrite Ht.
  cbn [due callback].
  replace (Qle_bool d (now w1 + ms)) with true by (symmetry; apply Qle_bool_iff; exact Hdue).
  cbn [set_clock world_of]. rewrite runCallback_StartScan.
  cbn [controller].
  rewrite startScanSound_eq by assumption.
  cbn [world_of].
  set (w3 := with_tables _ _ _).
  assert (Hstop : fireDue (length rest) (now w1 + ms) w3 = w3).
  { destruct rest as [| t rest']; [reflexivity |].
    cbn [length fireDue]. subst w3. cbn [with_tables timers].
    specialize (Hrest t eq_refl).
    destruct (Qle_bool (due t) (now w1 + ms)) eqn:Hq; [| reflexivity].
    apply Qle_bool_iff in Hq. lra. }
  rewrite Hstop. subst w3.
  cbn [with_tables audioEngine controller isPlaying scanColumn synths scanSounds timers].
  split; [exact Hplay |]. split; [exact Hcol |].
  rewrite !lookup_insert_eq. cbn [fmap option_fmap option_map synth_hsv].
  split; [eauto |]. split; reflexivity.
Qed.

Lemma pending_onset_fires_after_stop_witness :
  let w := dispatch (MouseMoved 10 10) (scanning 100) in
  let w2 := elapse 10 (world_of (setPlaying false w)) in
  isPlaying (controller w2) = false
  /\ is_Some (scanSounds (audioEngine w2) !! scanKey (scanColumn (controller w2)) 0)
  /\ length (timers w2) = 4%nat.
Proof.
  cbv zeta.
  assert (Ht : exists pixel t rest,
            timers (dispatch (MouseMoved 10 10) (scanning 100))
            = mkTimer 0 (StartScan pixel 0) :: t :: rest
            /\ due t = 50%Q /\ length rest = 3%nat).
  { eexists. eexists. eexists. split; [vm_compute; reflexivity |].
    split; reflexivity. }
  destruct Ht as (pixel & t & rest & Ht & Hdue & Hlen).
  destruct (pending_onset_fires_after_stop
              (dispatch (MouseMoved 10 10) (scanning 100)) 0 10 pixel 0 (t :: rest))
    as (Hplay & _ & Hsc & _ & Htim).
  - reflexivity.
  - reflexivity.
  - vm_compute. eauto.
  - exact Ht.
  - vm_compute. discriminate.
  - intros t' Ht'. injection Ht' as <-. rewrite Hdue. vm_compute. reflexivity.
  - split; [exact Hplay |]. split; [exact Hsc |].
    rewrite Htim. simpl. rewrite Hlen. reflexivity.
Defined.

(** *** The onsets of a column *)

Lemma enqueue_length (t : Timer) (l : list Timer) : length (enqueue t l) = S (length l).
Proof.
  induction l as [| t' l IH]; simpl; [reflexivity |].
  destruct (Qle_bool (due t') (due t)); simpl; [rewrite IH |]; reflexivity.
Qed.

Lemma scheduleColumn_timers step index columnPixels w :
  exists w',
    scheduleColumn step index columnPixels w = Ok tt w'
    /\ audioEngine w' = audioEngine w /\ controller w' = controller w
    /\ (length (timers w') <= length (timers w) + onsets step index (length columnPixels))%nat.
Proof.
  revert index w. induction columnPixels as [| pixel rest IH]; intros index w.
  - exists w. repeat split. simpl. lia.
  - cbn [scheduleColumn length onsets]. unfold bind.
    assert (Hfirst : exists w1,
              match pixel with
              | Some pixel0 =>
                  if Z.rem (Z.of_nat index) step =? 0
                  then setTimeout (StartScan pixel0 index)
                         (inject_Z (Z.of_nat index) / inject_Z step * 50)
                  else ret tt
              | None => ret tt
              end w = Ok tt w1
              /\ audioEngine w1 = audioEngine w /\ controller w1 = controller w
              /\ (length (timers w1)
                  <= length (timers w)
                     + (if (Z.rem (Z.of_nat index) step =? 0)%Z then 1 else 0))%nat).
    { destruct pixel as [pixel |].
      - destruct (Z.rem (Z.of_nat index) step =? 0).
        + eexists. split; [reflexivity |]. cbn [audioEngine controller timers].
          rewrite enqueue_length. repeat split. lia.
        + exists w. repeat split. lia.
      - exists w. repeat split. lia. }
    destruct Hfirst as (w1 & -> & He1 & Hc1 & Hl1).
    destruct (IH (S index) w1) as (w' & -> & He & Hc & Hl).
    exists w'. split; [reflexivity |]. split; [congruence |]. split; [congruence |]. lia.
Qed.

Lemma onsets_count (step : Z) (index n : nat) :
  0 < step ->
  Z.of_nat (onsets step index n)
  = (Z.of_nat index + Z.of_nat n + step - 1) / step - (Z.of_nat index + step - 1) / step.
Proof.
  intros Hstep. revert index. induction n as [| n IH]; intros index.
  - cbn [onsets]. change (Z.of_nat 0) with 0. rewrite Z.add_0_r. lia.
  - cbn [onsets]. rewrite Nat2Z.inj_add, IH.
    rewrite Z.rem_mod_nonneg by lia.
    set (i := Z.of_nat index).
    replace (Z.of_nat (S index) + Z.of_nat n + step - 1)
      with (i + Z.of_nat (S n) + step - 1) by lia.
    replace (Z.of_nat (S index) + step - 1) with (i + step) by lia.
    assert (Hone : Z.of_nat (if (i mod step =? 0)%Z then 1%nat else 0%nat)
                   = (i + step) / step - (i + step - 1) / step).
    { pose proof (Z.div_mod i step ltac:(lia)) as Hdm.
      pose proof (Z.mod_pos_bound i step Hstep) as Hmod.
      destruct (Z.eqb_spec (i mod step) 0) as [H0 | H0].
      - rewrite <- (Z.div_unique (i + step) step (i / step + 1) 0) by lia.
        rewrite <- (Z.div_unique (i + step - 1) step (i / step) (step - 1)) by lia.
        simpl. lia.
      - rewrite <- (Z.div_unique (i + step) step (i / step + 1) (i mod step)) by lia.
        rewrite <- (Z.div_unique (i + step - 1) step (i / step + 1) (i mod step - 1))
          by lia.
        simpl. lia. }
    lia.
Qed.

Lemma onsets_bound (n : nat) :
  let step := Z.max 1 (Z.of_nat n / 5) in
  (onsets step 0 n <= 9)%nat
  /\ (Z.of_nat n mod 5 = 0 -> (onsets step 0 n <= 5)%nat).
Proof.
  intros step.
  assert (Hstep : 0 < step) by (unfold step; lia).
  pose proof (onsets_count step 0 n Hstep) as Hc.
  change (Z.of_nat 0) with 0 in Hc.
  rewrite (Z.div_small (0 + step - 1) step) in Hc by lia.
  pose proof (Z.div_mod (Z.of_nat n) 5 ltac:(lia)) as Hdm.
  pose proof (Z.mod_pos_bound (Z.of_nat n) 5 ltac:(lia)) as Hmod.
  destruct (Z.eq_dec (Z.of_nat n / 5) 0) as [Hq | Hq].
  - assert (Hs : step = 1) by (unfold step; lia).
    assert (Hd : (0 + Z.of_nat n + step - 1) / step = Z.of_nat n)
      by (rewrite Hs, Z.div_1_r; lia).
    rewrite Hd in Hc. split; [lia |]. intros. lia.
  - assert (Hq1 : 1 <= Z.of_nat n / 5) by (pose proof (Z.div_pos (Z.of_nat n) 5); lia).
    assert (Hs : step = Z.of_nat n / 5) by (unfold step; lia).
    split.
    + assert ((0 + Z.of_nat n + step - 1) / step < 10)
        by (apply Z.div_lt_upper_bound; lia).
      lia.
    + intros H5.
      assert ((0 + Z.of_nat n + step - 1) / step < 6)
        by (apply Z.div_lt_upper_bound; lia).
      lia.
Qed.

(** X20.  One move of the pointer in scan mode schedules at most nine
    staggered onsets, whatever the length of the column, and at most five
    when that length is a multiple of five; a move that stays in the scan
    column schedules nothing and changes nothing.  The move returns
    normally and leaves every synthesizer as it is, except possibly the one
    registered under the number of the previous column. *)
Theorem handleScanMove_schedules_at_most_nine (mouseX : Q) (w : World) :
  let n := length (ImageProcessor.getColumnPixels mouseX (imageProcessor w)) in
  let newColumn :=
    Math_floor (mouseX / inject_Z (ImageProcessor.getPixelSize (imageProcessor w))) in
  exists w',
    handleScanMove mouseX w = Ok tt w'
    /\ (length (timers w') <= length (timers w) + 9)%nat
    /\ (Z.of_nat n mod 5 = 0 -> (length (timers w') <= length (timers w) + 5)%nat)
    /\ (newColumn = scanColumn (controller w) -> w' = w)
    /\ (forall k, k <> KNum (scanColumn (controller w)) ->
          synths (audioEngine w') !! k = synths (audioEngine w) !! k).
Proof.
  intros n newColumn. unfold handleScanMove, bind at 1, get at 1. cbv zeta.
  fold newColumn.
  destruct (Z.eqb_spec newColumn (scanColumn (controller w))) as [Heq | Hne]; cbn [negb].
  - exists w. split; [reflexivity |]. split; [lia |]. split; [lia |].
    split; [reflexivity |]. reflexivity.
  - unfold bind at 1.
    assert (Hstop : exists w1,
              (if 0 <=? scanColumn (controller w)
               then stopScanSound (KNum (scanColumn (controller w)))
               else ret tt) w = Ok tt w1
              /\ timers w1 = timers w
              /\ forall k, k <> KNum (scanColumn (controller w)) ->
                   synths (audioEngine w1) !! k = synths (audioEngine w) !! k).
    { destruct (0 <=? scanColumn (controller w)).
      - rewrite stopScanSound_eq. eexists. split; [reflexivity |].
        split; [reflexivity |].
        intros k Hk. cbn [with_tables audioEngine synths].
        apply lookup_delete_ne. congruence.
      - exists w. repeat split. }
    destruct Hstop as (w1 & -> & Ht1 & Hs1).
    unfold bind at 1, set_scanColumn, bind at 1, get at 1, set_controller.
    set (w2 := {| audioEngine := audioEngine w1; controller := _;
                  imageProcessor := imageProcessor w1; tone := tone w1;
                  now := now w1; timers := timers w1 |}).
    rewrite Math_floor_Zdiv. change (Z.of_nat 5) with 5.
    destruct (scheduleColumn_timers
                (Z.max 1 (Z.of_nat n / 5)) 0
                (ImageProcessor.getColumnPixels mouseX (imageProcessor w)) w2)
      as (w' & Hrun & He & Hc & Hl).
    fold n. rewrite Hrun. exists w'. split; [reflexivity |].
    destruct (onsets_bound n) as [H9 H5]. fold n in Hl.
    change (timers w2) with (timers w1) in Hl. rewrite Ht1 in Hl.
    split; [lia |]. split; [intros Hn; specialize (H5 Hn); lia |].
    split; [intros Hc'; contradiction |].
    intros k Hk. rewrite He. change (audioEngine w2) with (audioEngine w1).
    apply Hs1, Hk.
Qed.

End EventLoop.

(** ** Further properties of the pointer handlers and of the application *)

Section PointerAndApp.
Import JS AudioEngine InteractiveCanvas ImageSoundSynesthesia.
Import ImageProcessor ImageProcessorQueries.




(** X22.  The pointer handlers are guarded: a press does nothing without
    an image, while playback is stopped, or in scan mode; a move does
    nothing without an image; a release does nothing unless the canvas is
    playing in scan mode. *)
Theorem pointer_events_are_guarded (x y : Q) (rnd : string) (w : World) :
  (hasImage (imageProcessor w) = false ->
   mousePressed x y rnd w = Ok tt w /\ mouseMoved x y w = Ok tt w)
  /\ (isPlaying (controller w) = false ->
      mousePressed x y rnd w = Ok tt w /\ mouseReleased w = Ok tt w)
  /\ (ctl_mode (controller w) = scan -> mousePressed x y rnd w = Ok tt w)
  /\ (ctl_mode (controller w) = single -> mouseReleased w = Ok tt w).
Proof.
  split; [| split; [| split]].
  - intros Hno. unfold mousePressed, mouseMoved, bind, get. rewrite Hno. split; reflexivity.
  - intros Hstop. unfold mousePressed, mouseReleased, bind, get. rewrite Hstop.
    rewrite orb_true_r. destruct (ctl_mode (controller w)); split; reflexivity.
  - intros Hscan. unfold mousePressed, bind, get. rewrite Hscan.
    destruct (_ || _); reflexivity.
  - intros Hsingle. unfold mouseReleased, bind, get. rewrite Hsingle. reflexivity.
Qed.

(** *** Changing the mode *)

Lemma engine_setMode_eq mode w :
  AudioEngine.setMode mode w
  = Ok tt
      (let e := audioEngine w in
       {| audioEngine :=
            {| isInitialized := isInitialized e;
               synths :=
                 match mode with
                 | single => deleteAll (map fst (map_to_list (scanSounds e))) (synths e)
                 | scan => synths e
                 end;
               maxSynths := maxSynths e; currentMode := mode;
               scanSounds := match mode with single => ∅ | scan => scanSounds e end;
               masterVolume := masterVolume e; needsUserGesture := needsUserGesture e;
               masterGain := masterGain e; reverb := reverb e |};
          controller := controller w; imageProcessor := imageProcessor w;
          tone := tone w; now := now w; timers := timers w |}).
Proof.
  unfold AudioEngine.setMode, bind, get, set_engine. cbv zeta.
  destruct mode; [rewrite stopAllScanSounds_eq |]; reflexivity.
Qed.

(** Setting the mode the engine is already in changes nothing, when no scan
    sound is left to stop. *)
Lemma engine_setMode_again mode w :
  currentMode (audioEngine w) = mode ->
  (mode = single -> scanSounds (audioEngine w) = ∅) ->
  AudioEngine.setMode mode w = Ok tt w.
Proof.
  intros Hmode Hempty. rewrite engine_setMode_eq. f_equal.
  destruct w as [e c ip t n ts]. destruct e as [i sy mx cm sc mv ng mg rv].
  cbn in *. subst mode.
  destruct cm; [rewrite (Hempty eq_refl) |]; reflexivity.
Qed.

Lemma canvas_setMode_world mode w :
  exists w',
    InteractiveCanvas.setMode mode w = Ok tt w'
    /\ (ctl_mode (controller w') = mode /\ currentMode (audioEngine w') = mode)
    /\ (timers w' = timers w /\ isPlaying (controller w') = isPlaying (controller w))
    /\ (mode = single ->
        scanSounds (audioEngine w') = ∅ /\ scanColumn (controller w') < 0)
    /\ (mode = scan ->
        synths (audioEngine w') = synths (audioEngine w)
        /\ scanSounds (audioEngine w') = scanSounds (audioEngine w)
        /\ scanColumn (controller w') = scanColumn (controller w)).
Proof.
  unfold InteractiveCanvas.setMode, bind, get, set_controller. cbv zeta.
  destruct mode.
  - rewrite handleScanRelease_eq, engine_setMode_eq. eexists. split; [reflexivity |].
    cbn [controller scanColumn].
    destruct (Z.leb_spec 0 (scanColumn (controller w)));
      cbn [with_tables with_column audioEngine controller ctl_mode currentMode timers
           isPlaying scanSounds scanColumn];
      repeat apply conj; try reflexivity; try (intros; discriminate);
      (intros _; split; [reflexivity | lia]).
  - unfold ret. rewrite engine_setMode_eq. eexists. split; [reflexivity |].
    cbn [audioEngine controller ctl_mode currentMode timers isPlaying scanSounds
         scanColumn synths].
    repeat apply conj; try reflexivity; intros; try discriminate.
    repeat apply conj; reflexivity.
Qed.

(** X23.  [handleModeChange] puts the application, the canvas and the
    engine in the new mode and cancels no timer; going to single mode it
    leaves no scan sound and no scan column.  Its second call of the
    engine's [setMode] changes nothing: the world is the one the canvas's
    [setMode] has left.  [toggleMode] goes to the other mode. *)
Theorem handleModeChange_switches_all (newMode : Mode) (a : App) (w : World) :
  exists w',
    snd (handleModeChange newMode a w) = Ok tt w'
    /\ InteractiveCanvas.setMode newMode w = Ok tt w'
    /\ (app_currentMode (fst (handleModeChange newMode a w)) = newMode
        /\ ctl_mode (controller w') = newMode
        /\ currentMode (audioEngine w') = newMode)
    /\ timers w' = timers w
    /\ (newMode = single ->
        scanSounds (audioEngine w') = ∅ /\ scanColumn (controller w') < 0)
    /\ (app_currentMode (fst (toggleMode a w)) <> app_currentMode a
        /\ fst (toggleMode (fst (toggleMode a w)) w) = a).
Proof.
  destruct (canvas_setMode_world newMode w)
    as (w' & Hrun & [Hc He] & [Ht _] & Hsingle & _).
  exists w'. unfold handleModeChange. cbn [fst snd]. unfold bind. rewrite Hrun.
  split; [apply engine_setMode_again; [exact He | intros Hm; apply (Hsingle Hm)] |].
  split; [reflexivity |]. split; [repeat split; assumption |].
  split; [exact Ht |]. split; [exact Hsingle |].
  unfold toggleMode, handleModeChange. cbn [fst app_currentMode].
  destruct a as [p m s]. cbn [app_currentMode app_isPlaying app_currentPixelSize].
  destruct m; split; try discriminate; reflexivity.
Qed.

(** *** Starting and stopping *)

(** X24.  [togglePlayback] always returns normally and flips the playing
    flag of the application and of the canvas, whatever the audio backend
    does: [init] swallows its failures, so the [catch] of the handler is
    never entered.  After a start the engine is marked initialized; after
    a stop no scan sound and no scan column is left.  Neither the mode nor
    the timers change. *)
Theorem togglePlayback_flips (o : AudioEngine.InitOutcome) (a : App) (w : World) :
  exists w',
    snd (togglePlayback o a w) = Ok tt w'
    /\ (app_isPlaying (fst (togglePlayback o a w)) = negb (app_isPlaying a)
        /\ isPlaying (controller w') = negb (app_isPlaying a))
    /\ (app_isPlaying a = false ->
        isInitialized (audioEngine w') = true
        /\ synths (audioEngine w') = synths (audioEngine w)
        /\ scanSounds (audioEngine w') = scanSounds (audioEngine w))
    /\ (app_isPlaying a = true ->
        scanSounds (audioEngine w') = ∅ /\ scanColumn (controller w') < 0
        /\ isInitialized (audioEngine w') = isInitialized (audioEngine w))
    /\ (timers w' = timers w
        /\ ctl_mode (controller w') = ctl_mode (controller w)
        /\ currentMode (audioEngine w') = currentMode (audioEngine w)).
Proof.
  unfold togglePlayback. destruct (app_isPlaying a) eqn:Hplaying; cbn [negb andb].
  - cbn [fst snd app_isPlaying]. unfold bind at 1. rewrite stopAllScanSounds_eq.
    destruct (setPlaying_false_world
                (with_tables w
                   (deleteAll (map fst (map_to_list (scanSounds (audioEngine w))))
                      (synths (audioEngine w))) ∅))
      as (w' & Hrun & (Hp & Hs & Hc & Ht) & (_ & Hi & Hm & _ & Hcm)).
    exists w'. split; [exact Hrun |]. split; [split; [reflexivity | exact Hp] |].
    split; [intros Hf; discriminate Hf |].
    split; [intros _; repeat split; assumption |].
    split; [exact Ht |]. split; [exact Hcm | exact Hm].
  - destruct (isInitialized (audioEngine w)) eqn:Hinit; cbn [negb].
    + unfold bind, ret, setPlaying, bind, get, set_controller, ret. cbn.
      eexists. split; [reflexivity |]. cbn.
      split; [split; reflexivity |]. split; [intros _; repeat split; exact Hinit |].
      split; [intros Hf; discriminate Hf |]. repeat split.
    + destruct o; unfold AudioEngine.init, bind, ret, setPlaying, bind, get, set_controller,
        set_engine, ret; cbn;
        (eexists; split; [reflexivity |]); cbn;
        (split; [split; reflexivity |]); (split; [intros _; repeat split |]);
        (split; [intros Hf; discriminate Hf |]); repeat split.
Qed.

(** *** The pixel size slider and the upload *)

Lemma processImage_pixelSize resample blend ip :
  pixelSize (processImage resample blend ip) = pixelSize ip.
Proof.
  unfold processImage. destruct (originalImage ip), (canvas ip);
    try destruct (layout _) as [[[? ?] ?] ?]; reflexivity.
Qed.

(** X25.  [handlePixelSizeChange] records the slider's value in the
    application as it is, but tells the processor only while an image is
    loaded, and the processor clamps it.  So a size chosen before the first
    upload never reaches the processor: the upload that follows processes
    the image with the size the processor had.  Nothing else of the world
    changes, and an upload without a file changes nothing at all. *)
Theorem handlePixelSizeChange_needs_image resample blend (newSize : Z) (a : App)
    (w : World) (img : Image) :
  app_currentPixelSize (fst (handlePixelSizeChange resample blend newSize a w)) = newSize
  /\ (hasImage (imageProcessor w) = false ->
      snd (handlePixelSizeChange resample blend newSize a w) = Ok tt w
      /\ exists w1,
           handleImageUpload resample blend (Some img) w = Ok tt w1
           /\ pixelSize (imageProcessor w1) = pixelSize (imageProcessor w))
  /\ (hasImage (imageProcessor w) = true ->
      exists w',
        snd (handlePixelSizeChange resample blend newSize a w) = Ok tt w'
        /\ pixelSize (imageProcessor w')
           = Z.max (minPixelSize (imageProcessor w))
               (Z.min (maxPixelSize (imageProcessor w)) newSize)
        /\ audioEngine w' = audioEngine w /\ controller w' = controller w
        /\ timers w' = timers w)
  /\ handleImageUpload resample blend None w = Ok tt w.
Proof.
  split; [reflexivity |]. split; [| split; [| reflexivity]].
  - intros Hno. unfold handlePixelSizeChange. cbn [snd]. rewrite Hno.
    split; [reflexivity |].
    eexists. split; [reflexivity |].
    cbn [imageProcessor]. unfold loadImage. rewrite processImage_pixelSize. reflexivity.
  - intros Hhas. unfold handlePixelSizeChange. cbn [snd]. rewrite Hhas.
    eexists. split; [reflexivity |]. cbn [imageProcessor audioEngine controller timers].
    split; [| repeat split].
    unfold setPixelSize. destruct (originalImage (imageProcessor w));
      [rewrite processImage_pixelSize |]; reflexivity.
Qed.

End PointerAndApp.
